(** * CTC loss of kaldi-aslp: a shallow embedding of [aslp-nnet/ctc-loss.cc]

    The development follows the source file top to bottom:
    - [IEEE]: the two floating-point formats of the source ([BaseFloat],
      taken as IEEE binary32, and [double]), on the Standard Library's
      executable specification of IEEE 754 arithmetic;
    - [Fallible]: the error monad of calls that may abort;
    - [CuMatrix]: the dense matrix contract the source consumes;
    - [CtcLoss]: the running statistics, [Eval], [EvalParallel], the three
      statistics policies and the greedy decoder of [ErrorRate];
    - [ForwardBackward]: the forward-backward recursion in exact log-domain
      arithmetic.
    The properties follow the definitions, grouped by the part of the source
    they are about. *)

From Stdlib Require Import ZArith List Bool Lia String.
From Stdlib Require Import Floats.SpecFloat.
From Stdlib Require Import Ring.
From Stdlib Require QArith Qcanon.
From stdpp Require Import base list.

Open Scope Z_scope.

(** ** Floating point *)

Module IEEE.

(** [BaseFloat] is Kaldi's single precision build; [double] is binary64.
    Both are values of [spec_float]; every operation below states the
    format it rounds to. *)
Definition BaseFloat := spec_float.
Definition double := spec_float.

Definition prec32 := 24.
Definition emax32 := 128.
Definition prec64 := 53.
Definition emax64 := 1024.

(** Implicit conversions of C++: [int32] to [float] or [double] (rounding
    to nearest even), [float] to [double] (exact), [double] to [float]. *)
Definition float_of_int (n : Z) : BaseFloat := binary_normalize prec32 emax32 n 0 false.
Definition double_of_int (n : Z) : double := binary_normalize prec64 emax64 n 0 false.
Definition to_double (x : BaseFloat) : double := SFldexp prec64 emax64 x 0.
Definition to_float (x : double) : BaseFloat := SFldexp prec32 emax32 x 0.

Definition fadd := SFadd prec32 emax32.
Definition fsub := SFsub prec32 emax32.
Definition fmul := SFmul prec32 emax32.
Definition fdiv := SFdiv prec32 emax32.
Definition dadd := SFadd prec64 emax64.
Definition dsub := SFsub prec64 emax64.
Definition dmul := SFmul prec64 emax64.
Definition ddiv := SFdiv prec64 emax64.
Definition dsqrt := SFsqrt prec64 emax64.

(** The comparison operators of C++: every comparison with a NaN is
    false. [x > y] is [lt y x] and [x >= y] is [le y x]. *)
Definition lt (x y : spec_float) : bool := SFltb x y.
Definition le (x y : spec_float) : bool := SFleb x y.

Definition is_nan (x : spec_float) : bool :=
  match x with S754_nan => true | _ => false end.

(** [KALDI_ISFINITE]: neither NaN nor an infinity. *)
Definition KALDI_ISFINITE (x : spec_float) : bool :=
  match x with
  | S754_zero _ | S754_finite _ _ _ => true
  | S754_infinity _ | S754_nan => false
  end.

Definition zero : spec_float := S754_zero false.
Definition pos_inf : spec_float := S754_infinity false.

End IEEE.

Import IEEE.

(** ** Calls that may abort *)

Module Fallible.

(** Why a call stopped early. [KALDI_ASSERT] and [KALDI_ERR] abort the
    call; an index outside a vector or a matrix and an integer remainder
    by zero have no defined behaviour in C++ and are modelled as aborts of
    their own kind, so that no theorem depends on what they would do. *)
Inductive Failure :=
| AssertLabelRange      (* KALDI_ASSERT(label[l] < net_out.NumCols()) *)
| AssertPadding         (* KALDI_ASSERT(num_frames % num_sequence == 0) *)
| ErrLabelGtOutdim      (* KALDI_ERR << "label gt outdim" *)
| IndexOutOfRange
| IntDivByZero.

Inductive Result (A : Type) :=
| Ok (a : A)
| Abort (f : Failure).
Arguments Ok {A} a.
Arguments Abort {A} f.

Definition bind {A B} (m : Result A) (k : A -> Result B) : Result B :=
  match m with
  | Ok a => k a
  | Abort f => Abort f
  end.

Definition of_option {A} (o : option A) : Result A :=
  match o with
  | Some a => Ok a
  | None => Abort IndexOutOfRange
  end.

(** [for (i = start; i < start + n; i++) body], threading the state. *)
Fixpoint for_loop {St} (n : nat) (i : Z) (body : Z -> St -> Result St) (s : St) : Result St :=
  match n with
  | O => Ok s
  | S n' => bind (body i s) (for_loop n' (i + 1) body)
  end.

End Fallible.

Import Fallible.

Declare Scope fallible_scope.
Delimit Scope fallible_scope with fallible.
Notation "'let!' x ':=' m 'in' k" := (bind m (fun x => k))
  (at level 10, x pattern, m at level 100, k at level 200) : fallible_scope.
Open Scope fallible_scope.

(** Vector element [v[i]] for a C++ [int] index. *)
Definition at_index {A} (v : list A) (i : Z) : Result A :=
  if i <? 0 then Abort IndexOutOfRange else of_option (v !! Z.to_nat i).

(** ** The dense matrix contract *)

Module CuMatrix.

(** Modelled from the spec: the dense matrix collaborator
    ([CuMatrix<BaseFloat>], [CuVector<BaseFloat>]) is not part of the
    source file; the operations below are the ones listed as consumed
    interfaces (element-wise multiply, row-wise sum, scaled add,
    element-wise floor/ceiling clamp, row-zeroing, total sum,
    construction), on rows of binary32 values. *)
Record Matrix := mkMatrix {
  NumCols : Z;
  Rows : list (list BaseFloat)
}.

Definition NumRows (m : Matrix) : Z := Z.of_nat (length (Rows m)).

Definition map_entries (f : BaseFloat -> BaseFloat) (m : Matrix) : Matrix :=
  mkMatrix (NumCols m) (map (map f) (Rows m)).

(** [Resize(r, c, kSetZero)]. *)
Definition Resize (r c : Z) : Matrix :=
  mkMatrix c (repeat (repeat zero (Z.to_nat c)) (Z.to_nat r)).

Definition Set_ (x : BaseFloat) (m : Matrix) : Matrix := map_entries (fun _ => x) m.
Definition SetZero (m : Matrix) : Matrix := Set_ zero m.

(** [m(r, c)]. The accessor is not known to check its indices: a read
    outside the matrix has no defined result. The model stops the call
    there, and no statement below concludes anything from such a stop. *)
Definition entry (m : Matrix) (r c : Z) : Result BaseFloat :=
  let! row := at_index (Rows m) r in at_index row c.

(** [m->Row(r).SetZero()]: the row index is checked. *)
Definition RowSetZero (r : Z) (m : Matrix) : Result Matrix :=
  let! row := at_index (Rows m) r in
  Ok (mkMatrix (NumCols m) (<[Z.to_nat r := map (fun _ => zero) row]> (Rows m))).

(** [a.MulElements(b)]. *)
Definition MulElements (a b : Matrix) : Matrix :=
  mkMatrix (NumCols a) (zip_with (zip_with fmul) (Rows a) (Rows b)).

(** [v.AddColSumMat(1.0, m, 0.0)]: entry [t] of the vector receives the sum
    of row [t] of [m]. *)
Definition vec_sum (v : list BaseFloat) : BaseFloat := fold_left fadd v zero.
Definition AddColSumMat (m : Matrix) : list BaseFloat := map vec_sum (Rows m).

(** [m.MulRowsVec(v)]: row [t] is scaled by [v(t)]. *)
Definition MulRowsVec (m : Matrix) (v : list BaseFloat) : Matrix :=
  mkMatrix (NumCols m) (zip_with (fun row x => map (fun y => fmul y x) row) (Rows m) v).

(** [a.AddMat(alpha, b)]: [a += alpha * b]. *)
Definition AddMat (alpha : BaseFloat) (a b : Matrix) : Matrix :=
  mkMatrix (NumCols a)
    (zip_with (zip_with (fun x y => fadd x (fmul alpha y))) (Rows a) (Rows b)).

(** [m.ApplyFloor(f)] and [m.ApplyCeiling(c)], entry by entry through a
    comparison, as Kaldi writes them: an entry that compares false (a NaN)
    is left as it is. *)
Definition floor_entry (f x : BaseFloat) : BaseFloat := if lt x f then f else x.
Definition ceiling_entry (c x : BaseFloat) : BaseFloat := if lt c x then c else x.
Definition ApplyFloor (f : BaseFloat) (m : Matrix) : Matrix := map_entries (floor_entry f) m.
Definition ApplyCeiling (c : BaseFloat) (m : Matrix) : Matrix := map_entries (ceiling_entry c) m.

(** [m.Sum()]: all entries, row after row. *)
Definition Sum (m : Matrix) : BaseFloat := vec_sum (concat (Rows m)).

(** [x] is an entry of [m]. *)
Definition is_entry (x : BaseFloat) (m : Matrix) : Prop :=
  exists row, In row (Rows m) /\ In x row.

Definition all_zero (m : Matrix) : Prop :=
  forall x, is_entry x m -> x = zero.

End CuMatrix.

Import CuMatrix.

(** ** The CTC objective: running statistics and policies *)

Module CtcLoss.

(** What the reporting channel receives ([KALDI_WARN], [KALDI_LOG]), and,
    as a ghost marker, every evaluation of a quotient by [normal_num_]. *)
Inductive Event :=
| WarnAbnormalAvg (utt : string) (pzx : BaseFloat) (per_frame mean sigma : double)
| WarnAbnormalSum (utt : string) (pzx : BaseFloat)
| WarnDiffNotFinite
| LogProgress (sequences_num : Z)
| DivideByNormalNum (n : Z).

(** [int32] arithmetic on the counters: a sum that leaves the range of a
    32-bit signed integer wraps around, as the compiled code does. *)
Definition int32 (z : Z) : Z := (z + 2147483648) mod 4294967296 - 2147483648.

(** The registries of class [Ctc]. The class is declared in a header that
    is not part of the source file: the counters are [int32], the frame and
    sequence counts being added with wrap-around, and the objective and
    loss sums [double], the type of the locals they are combined with. The
    scratch buffers [alpha_], [beta_], [ctc_err_] and [label_expand_] are
    resized and refilled by every call before they are read, and are locals
    of the functions below. *)
Record CtcState := mkCtc {
  obj_ : double;
  obj_progress_ : double;
  frames_ : Z;
  frames_progress_ : Z;
  sequences_num_ : Z;
  sequences_progress_ : Z;
  error_num_progress_ : Z;
  ref_num_progress_ : Z;
  report_step_ : Z;
  normal_num_ : Z;
  stat_period_ : Z;
  loss_sum_ : double;
  loss_sum_bak_ : double;
  loss_square_sum_ : double;
  loss_square_sum_bak_ : double;
  trace_ : list Event
}.

(** [obj_ += x; obj_progress_ += x;] *)
Definition add_objective (x : double) (c : CtcState) : CtcState :=
  mkCtc (dadd (obj_ c) x) (dadd (obj_progress_ c) x) (frames_ c) (frames_progress_ c)
    (sequences_num_ c) (sequences_progress_ c) (error_num_progress_ c) (ref_num_progress_ c)
    (report_step_ c) (normal_num_ c) (stat_period_ c) (loss_sum_ c) (loss_sum_bak_ c)
    (loss_square_sum_ c) (loss_square_sum_bak_ c) (trace_ c).

(** [frames_ += n; frames_progress_ += n;] *)
Definition add_frames (n : Z) (c : CtcState) : CtcState :=
  mkCtc (obj_ c) (obj_progress_ c) (int32 (frames_ c + n)) (int32 (frames_progress_ c + n))
    (sequences_num_ c) (sequences_progress_ c) (error_num_progress_ c) (ref_num_progress_ c)
    (report_step_ c) (normal_num_ c) (stat_period_ c) (loss_sum_ c) (loss_sum_bak_ c)
    (loss_square_sum_ c) (loss_square_sum_bak_ c) (trace_ c).

(** [sequences_progress_ += n; sequences_num_ += n;] *)
Definition add_sequences (n : Z) (c : CtcState) : CtcState :=
  mkCtc (obj_ c) (obj_progress_ c) (frames_ c) (frames_progress_ c)
    (int32 (sequences_num_ c + n)) (int32 (sequences_progress_ c + n)) (error_num_progress_ c)
    (ref_num_progress_ c) (report_step_ c) (normal_num_ c) (stat_period_ c) (loss_sum_ c)
    (loss_sum_bak_ c) (loss_square_sum_ c) (loss_square_sum_bak_ c) (trace_ c).

Definition emit (e : Event) (c : CtcState) : CtcState :=
  mkCtc (obj_ c) (obj_progress_ c) (frames_ c) (frames_progress_ c)
    (sequences_num_ c) (sequences_progress_ c) (error_num_progress_ c) (ref_num_progress_ c)
    (report_step_ c) (normal_num_ c) (stat_period_ c) (loss_sum_ c) (loss_sum_bak_ c)
    (loss_square_sum_ c) (loss_square_sum_bak_ c) (e :: trace_ c).

Definition set_normal_num (n : Z) (c : CtcState) : CtcState :=
  mkCtc (obj_ c) (obj_progress_ c) (frames_ c) (frames_progress_ c)
    (sequences_num_ c) (sequences_progress_ c) (error_num_progress_ c) (ref_num_progress_ c)
    (report_step_ c) n (stat_period_ c) (loss_sum_ c) (loss_sum_bak_ c)
    (loss_square_sum_ c) (loss_square_sum_bak_ c) (trace_ c).

(** [loss_sum_ += x; loss_square_sum_ += x * x;] *)
Definition add_loss (x : double) (c : CtcState) : CtcState :=
  mkCtc (obj_ c) (obj_progress_ c) (frames_ c) (frames_progress_ c)
    (sequences_num_ c) (sequences_progress_ c) (error_num_progress_ c) (ref_num_progress_ c)
    (report_step_ c) (normal_num_ c) (stat_period_ c) (dadd (loss_sum_ c) x) (loss_sum_bak_ c)
    (dadd (loss_square_sum_ c) (dmul x x)) (loss_square_sum_bak_ c) (trace_ c).

(** [loss_sum_bak_ += x; loss_square_sum_bak_ += x * x;] *)
Definition add_loss_bak (x : double) (c : CtcState) : CtcState :=
  mkCtc (obj_ c) (obj_progress_ c) (frames_ c) (frames_progress_ c)
    (sequences_num_ c) (sequences_progress_ c) (error_num_progress_ c) (ref_num_progress_ c)
    (report_step_ c) (normal_num_ c) (stat_period_ c) (loss_sum_ c) (dadd (loss_sum_bak_ c) x)
    (loss_square_sum_ c) (dadd (loss_square_sum_bak_ c) (dmul x x)) (trace_ c).

(** The half-window reset:
    [loss_sum_ -= loss_sum_bak_; loss_square_sum_ -= loss_square_sum_bak_;
     loss_sum_bak_ = loss_sum_; loss_square_sum_bak_ = loss_square_sum_;
     normal_num_ = stat_period_ / 2;] *)
Definition reset_window (c : CtcState) : CtcState :=
  let loss_sum := dsub (loss_sum_ c) (loss_sum_bak_ c) in
  let loss_square_sum := dsub (loss_square_sum_ c) (loss_square_sum_bak_ c) in
  mkCtc (obj_ c) (obj_progress_ c) (frames_ c) (frames_progress_ c)
    (sequences_num_ c) (sequences_progress_ c) (error_num_progress_ c) (ref_num_progress_ c)
    (report_step_ c) (stat_period_ c ÷ 2) (stat_period_ c) loss_sum loss_sum
    loss_square_sum loss_square_sum (trace_ c).

(** The reset of the progress window after a report. *)
Definition reset_progress (c : CtcState) : CtcState :=
  mkCtc (obj_ c) zero (frames_ c) 0
    (sequences_num_ c) 0 0 0
    (report_step_ c) (normal_num_ c) (stat_period_ c) (loss_sum_ c) (loss_sum_bak_ c)
    (loss_square_sum_ c) (loss_square_sum_bak_ c) (trace_ c).

(** [for (int t = 0; t < frame_num; t++) diff->Row(t*num_sequence+s).SetZero();] *)
Definition zero_utt_rows (num_sequence s frame_num : Z) (diff : Matrix) : Result Matrix :=
  for_loop (Z.to_nat frame_num) 0 (fun t d => RowSetZero (t * num_sequence + s) d) diff.

(** *** [Ctc::StatAndAverageLossCheck] *)

(** [double loss_per_frame = pzx_host(s) / frame_num_utt[s];] *)
Definition loss_per_frame_of (pzx : BaseFloat) (frame_num : Z) : double :=
  to_double (fdiv pzx (float_of_int frame_num)).

(** [double mean = loss_sum_ / normal_num_;] *)
Definition rolling_mean (c : CtcState) : double :=
  ddiv (loss_sum_ c) (double_of_int (normal_num_ c)).

(** [double sigma = sqrt(loss_square_sum_ / normal_num_);] *)
Definition rolling_sigma (c : CtcState) : double :=
  dsqrt (ddiv (loss_square_sum_ c) (double_of_int (normal_num_ c))).

(** [loss_per_frame >= (mean - 6 * sigma) && loss_per_frame <= (mean + 6 * sigma)] *)
Definition within_six_sigma (c : CtcState) (loss_per_frame : double) : bool :=
  le (dsub (rolling_mean c) (dmul (double_of_int 6) (rolling_sigma c))) loss_per_frame
  && le loss_per_frame (dadd (rolling_mean c) (dmul (double_of_int 6) (rolling_sigma c))).

(** The body of the loop over [s], up to the frame counters. *)
Definition avg_decide (utt : list string) (num_sequence s frame_num : Z) (pzx : BaseFloat)
    (c : CtcState) (diff : Matrix) : Result (CtcState * Matrix) :=
  if normal_num_ c <? stat_period_ c ÷ 2 then
    (* Acc enough stat for check, no check *)
    if KALDI_ISFINITE pzx && lt zero pzx && lt pzx (float_of_int 3000) then
      let c := set_normal_num (normal_num_ c + 1) c in
      let loss_per_frame := loss_per_frame_of pzx frame_num in
      let c := add_loss loss_per_frame c in
      let c := add_loss_bak loss_per_frame c in
      Ok (add_objective (to_double pzx) c, diff)
    else Ok (c, diff)
  else
    (* Check *)
    let loss_per_frame := loss_per_frame_of pzx frame_num in
    let c := emit (DivideByNormalNum (normal_num_ c)) c in
    if KALDI_ISFINITE pzx && within_six_sigma c loss_per_frame
       && (lt zero pzx && lt pzx (float_of_int 3000)) then
      let c := set_normal_num (normal_num_ c + 1) c in
      let c := add_loss loss_per_frame c in
      let c := add_objective (to_double pzx) c in
      (* Reset the mean and sum for new stat *)
      Ok (if normal_num_ c =? stat_period_ c then reset_window c else c, diff)
    else
      (* avgloss is abnormal *)
      let! name := at_index utt s in
      let c := emit (DivideByNormalNum (normal_num_ c)) c in
      let c := emit (WarnAbnormalAvg name pzx loss_per_frame
                       (ddiv (loss_sum_ c) (double_of_int (normal_num_ c)))
                       (ddiv (loss_square_sum_ c) (double_of_int (normal_num_ c)))) c in
      let! diff := zero_utt_rows num_sequence s frame_num diff in
      Ok (c, diff).

Definition avg_utt (utt : list string) (frame_num_utt : list Z) (pzx_host : list BaseFloat)
    (s : Z) (st : CtcState * Matrix) : Result (CtcState * Matrix) :=
  let num_sequence := Z.of_nat (length frame_num_utt) in
  let! pzx := at_index pzx_host s in
  let! frame_num := at_index frame_num_utt s in
  let! (c, diff) := avg_decide utt num_sequence s frame_num pzx (fst st) (snd st) in
  Ok (add_frames frame_num c, diff).

(** The finiteness guard that ends [StatAndAverageLossCheck]. *)
Definition finite_guard (st : CtcState * Matrix) : CtcState * Matrix :=
  let grad_sum := to_double (Sum (snd st)) in
  if negb (KALDI_ISFINITE grad_sum)
  then (emit WarnDiffNotFinite (fst st), SetZero (snd st))
  else st.

Definition StatAndAverageLossCheck (utt : list string) (frame_num_utt : list Z)
    (pzx_host : list BaseFloat) (st : CtcState * Matrix) : Result (CtcState * Matrix) :=
  let num_sequence := Z.of_nat (length frame_num_utt) in
  let! st := for_loop (length frame_num_utt) 0 (avg_utt utt frame_num_utt pzx_host) st in
  let st := finite_guard st in
  Ok (add_sequences num_sequence (fst st), snd st).

(** *** [Ctc::StatAndLossCheck] *)

Definition sum_utt (utt : list string) (frame_num_utt : list Z) (pzx_host : list BaseFloat)
    (s : Z) (st : CtcState * Matrix) : Result (CtcState * Matrix) :=
  let num_sequence := Z.of_nat (length frame_num_utt) in
  let! pzx := at_index pzx_host s in
  let! frame_num := at_index frame_num_utt s in
  let! (c, diff) :=
    (* If abnormal, drop the diff and statistic *)
    if lt (float_of_int 3000) pzx || lt pzx zero then
      let! name := at_index utt s in
      let c := emit (WarnAbnormalSum name pzx) (fst st) in
      let! diff := zero_utt_rows num_sequence s frame_num (snd st) in
      Ok (c, diff)
    else Ok (add_objective (to_double pzx) (fst st), snd st) in
  Ok (add_frames frame_num c, diff).

Definition StatAndLossCheck (utt : list string) (frame_num_utt : list Z)
    (pzx_host : list BaseFloat) (st : CtcState * Matrix) : Result (CtcState * Matrix) :=
  let num_sequence := Z.of_nat (length frame_num_utt) in
  let! st := for_loop (length frame_num_utt) 0 (sum_utt utt frame_num_utt pzx_host) st in
  Ok (add_sequences num_sequence (fst st), snd st).

(** *** [Ctc::StatOnly] *)

Definition only_utt (frame_num_utt : list Z) (pzx_host : list BaseFloat)
    (s : Z) (st : CtcState * Matrix) : Result (CtcState * Matrix) :=
  let! pzx := at_index pzx_host s in
  let! frame_num := at_index frame_num_utt s in
  Ok (add_frames frame_num (add_objective (to_double pzx) (fst st)), snd st).

Definition StatOnly (utt : list string) (frame_num_utt : list Z)
    (pzx_host : list BaseFloat) (st : CtcState * Matrix) : Result (CtcState * Matrix) :=
  let num_sequence := Z.of_nat (length frame_num_utt) in
  let! st := for_loop (length frame_num_utt) 0 (only_utt frame_num_utt pzx_host) st in
  Ok (add_sequences num_sequence (fst st), snd st).

(** *** The part of [Ctc::Eval] and [Ctc::EvalParallel] after the kernels *)

(** Back-propagation of the errors through the softmax layer: from
    [ctc_err_.MulElements(net_out)] to [diff->AddMat(-1.0, net_out_tmp)].
    [ctc_err_] has been resized to the dimensions of [net_out]. *)
Definition assemble_diff (net_out ctc_err : Matrix) : Matrix :=
  let ctc_err := MulElements ctc_err net_out in
  let row_sum := AddColSumMat ctc_err in
  let net_out_tmp := MulRowsVec net_out row_sum in
  let diff := ctc_err in
  AddMat (float_of_int (-1)) diff net_out_tmp.

(** [diff->ApplyFloor(-1.0); diff->ApplyCeiling(1.0);] *)
Definition clip_diff (diff : Matrix) : Matrix :=
  ApplyCeiling (float_of_int 1) (ApplyFloor (float_of_int (-1)) diff).

(** [if (pzx < -10000) pzx = -10000; if (pzx > 10000) pzx = 10000;] *)
Definition clamp_pzx (pzx : BaseFloat) : BaseFloat :=
  let pzx := if lt pzx (float_of_int (-10000)) then float_of_int (-10000) else pzx in
  if lt (float_of_int 10000) pzx then float_of_int 10000 else pzx.

(** The progressive report that ends both calls. *)
Definition progressive_report (c : CtcState) : CtcState :=
  if report_step_ c <=? sequences_progress_ c
  then reset_progress (emit (LogProgress (sequences_num_ c)) c)
  else c.

(** [Eval] from "back-propagate the errors through the softmax layer" on,
    given the error matrix and the log-likelihood the kernels produced. *)
Definition Eval_tail (c : CtcState) (net_out ctc_err : Matrix) (pzx : BaseFloat)
    : CtcState * Matrix :=
  let num_frames := NumRows net_out in
  let diff := clip_diff (assemble_diff net_out ctc_err) in
  let pzx := clamp_pzx pzx in
  (* update registries *)
  let c := add_objective (to_double (SFopp pzx)) c in
  let c := add_sequences 1 c in
  let c := add_frames num_frames c in
  (progressive_report c, diff).

(** The build-time selection [CTC_GRAD_CHECK] among the three policies. *)
Inductive GradCheck := SUM_LOSS_CHECK | AVG_LOSS_CHECK | STAT_ONLY.

Definition stats_policy (check : GradCheck) :=
  match check with
  | SUM_LOSS_CHECK => StatAndLossCheck
  | AVG_LOSS_CHECK => StatAndAverageLossCheck
  | STAT_ONLY => StatOnly
  end.

(** [pzx.Scale(-1); Vector<BaseFloat> pzx_host(pzx);] *)
Definition Scale (alpha : BaseFloat) (v : list BaseFloat) : list BaseFloat :=
  map (fun x => fmul x alpha) v.

(** [EvalParallel] from "back-propagate the errors through the softmax
    layer" on. *)
Definition EvalParallel_tail (check : GradCheck) (c : CtcState) (utt : list string)
    (frame_num_utt : list Z) (net_out ctc_err : Matrix) (pzx : list BaseFloat)
    : Result (CtcState * Matrix) :=
  let diff := assemble_diff net_out ctc_err in
  (* update registries *)
  let pzx_host := Scale (float_of_int (-1)) pzx in
  let! (c, diff) := stats_policy check utt frame_num_utt pzx_host (c, diff) in
  (* Clip diff, ensure that it is reasonable *)
  let diff := clip_diff diff in
  Ok (progressive_report c, diff).

(** *** Label expansion *)

(** [Eval]: blanks (class 0) at the even positions, the labels at the odd
    ones, each label checked against the number of classes. *)
Definition expand_label (num_cols : Z) (label : list Z) : Result (list Z) :=
  let len_labels := Z.of_nat (length label) in
  let exp_len_labels := 2 * len_labels + 1 in
  for_loop (length label) 0
    (fun l label_expand =>
       let! x := at_index label l in
       if x <? num_cols
       then Ok (<[Z.to_nat (2 * l + 1) := x]> label_expand)
       else Abort AssertLabelRange)
    (repeat 0 (Z.to_nat exp_len_labels)).

(** [EvalParallel]: the longest label sequence of the batch. *)
Definition max_label_len_of (num_sequence : nat) (label : list (list Z)) : Result Z :=
  for_loop num_sequence 0
    (fun s max_label_len =>
       let! label_s := at_index label s in
       Ok (if max_label_len <? Z.of_nat (length label_s)
           then Z.of_nat (length label_s) else max_label_len))
    0.

(** [EvalParallel]: one slot of [exp_len_labels] entries per sequence,
    padded with -1. First the loop over the labels of sequence [s], then the
    body of the loop over the sequences, whose state is
    [(label_lengths_utt, label_expand_)]. *)
Definition expand_sequence_inner (num_cols exp_len_labels s : Z) (label_s : list Z)
    (label_expand : list Z) : Result (list Z) :=
  for_loop (length label_s) 0
    (fun l label_expand =>
       let! x := at_index label_s l in
       if num_cols <=? x then Abort ErrLabelGtOutdim
       else
         let label_expand := <[Z.to_nat (s * exp_len_labels + 2 * l) := 0]> label_expand in
         Ok (<[Z.to_nat (s * exp_len_labels + 2 * l + 1) := x]> label_expand))
    label_expand.

Definition expand_sequence (num_cols exp_len_labels : Z) (label : list (list Z)) (s : Z)
    (st : list Z * list Z) : Result (list Z * list Z) :=
  let! label_s := at_index label s in
  let size := Z.of_nat (length label_s) in
  let label_lengths_utt := <[Z.to_nat s := 2 * size + 1]> (fst st) in
  let! label_expand := expand_sequence_inner num_cols exp_len_labels s label_s (snd st) in
  Ok (label_lengths_utt, <[Z.to_nat (s * exp_len_labels + 2 * size) := 0]> label_expand).

Definition expand_labels_parallel (num_cols : Z) (num_sequence : nat)
    (label : list (list Z)) : Result (Z * list Z * list Z) :=
  let! max_label_len := max_label_len_of num_sequence label in
  let exp_len_labels := 2 * max_label_len + 1 in
  let! (label_lengths_utt, label_expand) :=
    for_loop num_sequence 0 (expand_sequence num_cols exp_len_labels label)
      (repeat 0 num_sequence,
       repeat (-1) (Z.to_nat (Z.of_nat num_sequence * exp_len_labels))) in
  Ok (exp_len_labels, label_lengths_utt, label_expand).

(** *** The whole calls, over the kernels of the matrix library *)

Section Kernels.

(** The log-domain helpers and the forward, backward and error kernels
    live in [aslp-cudamatrix], outside the source file. They enter as
    parameters, so what is proved of the whole calls holds whatever they
    compute; each takes the buffer it updates as its first argument and
    returns it. *)
Variable ApplyLog : Matrix -> Matrix.
Variable ExpA : BaseFloat -> BaseFloat.
Variable log_ : BaseFloat -> BaseFloat.
Variable LogAPlusB : double -> double -> double.
Variable log_zero_ : BaseFloat.
Variable ComputeCtcAlpha : Matrix -> Matrix -> Z -> list Z -> bool -> Matrix.
Variable ComputeCtcBeta : Matrix -> Matrix -> Z -> list Z -> bool -> Matrix.
Variable ComputeCtcError :
  Matrix -> Matrix -> Matrix -> Matrix -> list Z -> BaseFloat -> Matrix.
Variable ComputeCtcAlphaMSeq : Matrix -> Matrix -> Z -> list Z -> list Z -> Matrix.
Variable ComputeCtcBetaMSeq : Matrix -> Matrix -> Z -> list Z -> list Z -> list Z -> Matrix.
Variable ComputeCtcErrorMSeq :
  Matrix -> Matrix -> Matrix -> Matrix -> list Z -> list Z -> list BaseFloat -> Matrix.
Variable CTC_GRAD_CHECK : GradCheck.

(** [for (t = 0; t < n; t++) m.kernel(t)] and its downward twin, for
    kernels that cannot abort. *)
Definition sweep_up (n : Z) (kernel : Matrix -> Z -> Matrix) (m : Matrix) : Matrix :=
  fold_left kernel (map Z.of_nat (seq 0 (Z.to_nat n))) m.
Definition sweep_down (n : Z) (kernel : Matrix -> Z -> Matrix) (m : Matrix) : Matrix :=
  fold_left kernel (rev (map Z.of_nat (seq 0 (Z.to_nat n)))) m.

Definition Eval (c : CtcState) (net_out : Matrix) (label : list Z)
    : Result (CtcState * Matrix) :=
  let num_frames := NumRows net_out in
  let num_classes := NumCols net_out in
  let len_labels := Z.of_nat (length label) in
  let exp_len_labels := 2 * len_labels + 1 in
  let! label_expand := expand_label (NumCols net_out) label in
  (* compute in log scale *)
  let log_nnet_out := ApplyLog net_out in
  let alpha := Resize num_frames exp_len_labels in
  let beta := Resize num_frames exp_len_labels in
  let alpha :=
    sweep_up num_frames
      (fun a t => ComputeCtcAlpha a log_nnet_out t label_expand false) alpha in
  let beta :=
    sweep_down num_frames
      (fun b t => ComputeCtcBeta b log_nnet_out t label_expand false) beta in
  (* compute the log-likelihood of the label sequence given the inputs logP(z|x) *)
  let! tmp1 := entry alpha (num_frames - 1) (exp_len_labels - 1) in
  let! tmp2 := entry alpha (num_frames - 1) (exp_len_labels - 2) in
  let pzx := fadd tmp1 (log_ (fadd (float_of_int 1) (ExpA (fsub tmp2 tmp1)))) in
  (* compute the errors *)
  let ctc_err := Resize num_frames num_classes in
  let ctc_err := ComputeCtcError ctc_err alpha beta net_out label_expand pzx in
  Ok (Eval_tail c net_out ctc_err pzx).

(** The loop that reads each sequence's log-likelihood off its own last
    row of [alpha_]. *)
Definition read_pzx (num_sequence : Z) (frame_num_utt : list Z) (label : list (list Z))
    (alpha : Matrix) (s : Z) (pzx : list BaseFloat) : Result (list BaseFloat) :=
  let! label_s := at_index label s in
  let label_len := 2 * Z.of_nat (length label_s) + 1 in
  let! frame_num := at_index frame_num_utt s in
  let! tmp1 := entry alpha ((frame_num - 1) * num_sequence + s) (label_len - 1) in
  let! tmp2 := entry alpha ((frame_num - 1) * num_sequence + s) (label_len - 2) in
  Ok (<[Z.to_nat s := to_float (LogAPlusB (to_double tmp1) (to_double tmp2))]> pzx).

Definition EvalParallel (c : CtcState) (utt : list string) (frame_num_utt : list Z)
    (net_out : Matrix) (label : list (list Z)) : Result (CtcState * Matrix) :=
  let num_sequence := Z.of_nat (length frame_num_utt) in
  let num_frames := NumRows net_out in
  let! _ :=
    if num_sequence =? 0 then Abort IntDivByZero
    else if Z.rem num_frames num_sequence =? 0 then Ok tt
    else Abort AssertPadding in
  let num_frames_per_sequence := num_frames ÷ num_sequence in
  let num_classes := NumCols net_out in
  (* label expansion *)
  let! (exp_len_labels, label_lengths_utt, label_expand) :=
    expand_labels_parallel (NumCols net_out) (length frame_num_utt) label in
  (* convert into the log scale *)
  let log_nnet_out := ApplyLog net_out in
  (* do the forward and backward pass, to compute alpha and beta values *)
  let alpha := Set_ log_zero_ (Resize num_frames exp_len_labels) in
  let beta := Set_ log_zero_ (Resize num_frames exp_len_labels) in
  let alpha :=
    sweep_up num_frames_per_sequence
      (fun a t => ComputeCtcAlphaMSeq a log_nnet_out t label_expand frame_num_utt) alpha in
  let beta :=
    sweep_down num_frames_per_sequence
      (fun b t => ComputeCtcBetaMSeq b log_nnet_out t label_expand frame_num_utt
                    label_lengths_utt) beta in
  let! pzx :=
    for_loop (length frame_num_utt) 0 (read_pzx num_sequence frame_num_utt label alpha)
      (repeat zero (length frame_num_utt)) in
  (* gradients from CTC *)
  let ctc_err := Resize num_frames num_classes in
  let ctc_err :=
    ComputeCtcErrorMSeq ctc_err alpha beta net_out label_expand frame_num_utt pzx in
  EvalParallel_tail CTC_GRAD_CHECK c utt frame_num_utt net_out ctc_err pzx.

End Kernels.

(** *** The greedy decoder of [Ctc::ErrorRate] and [Ctc::ErrorRateMSeq] *)

(** "remove the repetitions": the loop over [j], in place on [data], with
    the write index [i]. The state of the loop is [(data, i)]. *)
Definition remove_repetitions (dim : Z) (data : list Z) : Result (list Z * Z) :=
  for_loop (Z.to_nat (dim - 1)) 1
    (fun j st =>
       let! dj := at_index (fst st) j in
       let! dj1 := at_index (fst st) (j - 1) in
       if negb (dj =? dj1)
       then Ok (<[Z.to_nat (snd st) := dj]> (fst st), snd st + 1)
       else Ok st)
    (data, 1).

(** "remove the blanks": the loop over [n < i]. *)
Definition remove_blanks (data : list Z) (i : Z) : Result (list Z) :=
  for_loop (Z.to_nat i) 0
    (fun n hyp_seq =>
       let! d := at_index data n in
       Ok (if negb (d =? 0) then hyp_seq ++ [d] else hyp_seq))
    [].

(** The hypothesis [ErrorRate] scores, from the per-frame arg-max
    sequence [data] that [FindRowMaxId] returned. *)
Definition ErrorRate_hyp (data : list Z) : Result (list Z) :=
  let dim := Z.of_nat (length data) in
  let! (data, i) := remove_repetitions dim data in
  remove_blanks data i.

(** [raw_hyp_seq[f] = data[f*num_seq + s]] for [f < num_frame]. *)
Definition raw_hyp_seq_of (data : list Z) (num_seq s num_frame : Z) : Result (list Z) :=
  for_loop (Z.to_nat num_frame) 0
    (fun f raw => let! d := at_index data (f * num_seq + s) in
                  Ok (<[Z.to_nat f := d]> raw))
    (repeat 0 (Z.to_nat num_frame)).

(** The hypothesis [ErrorRateMSeq] scores for sequence [s]: the body of its
    loop over the sequences, up to the edit distance. *)
Definition ErrorRateMSeq_hyp (data : list Z) (num_seq s num_frame : Z) : Result (list Z) :=
  let! raw_hyp_seq := raw_hyp_seq_of data num_seq s num_frame in
  let! (raw_hyp_seq, i) := remove_repetitions num_frame raw_hyp_seq in
  remove_blanks raw_hyp_seq i.

(** The hypotheses [ErrorRateMSeq] scores, one per sequence. *)
Definition ErrorRateMSeq_hyps (frame_num_utt : list Z) (data : list Z)
    : Result (list (list Z)) :=
  let num_seq := Z.of_nat (length frame_num_utt) in
  for_loop (length frame_num_utt) 0
    (fun s hyps =>
       let! num_frame := at_index frame_num_utt s in
       let! hyp_seq := ErrorRateMSeq_hyp data num_seq s num_frame in
       Ok (hyps ++ [hyp_seq]))
    [].

End CtcLoss.

(** ** The forward-backward recursion in exact log-domain arithmetic *)

Module ForwardBackward.

(** Log-domain arithmetic: the sentinel "log-zero", the value [log 1],
    [log_add] (log-sum-exp) and the sum [log_mul] of two log-domain values
    (a product of probabilities). Carried out exactly, these four form a
    commutative semiring; binary32 realises them up to rounding, which is
    what "within floating-point tolerance" stands for. *)
Class LogArith (W : Type) := {
  log_zero : W;
  log_one : W;
  log_add : W -> W -> W;
  log_mul : W -> W -> W
}.

Section Tables.
Context {W : Type} `{LogArith W}.

(** [log_posterior t k] is the logarithm of the posterior of class [k] at
    frame [t]; [label] is the reference label sequence, [T] the number
    of frames. *)
Variable log_posterior : nat -> Z -> W.
Variable label : list Z.
Variable T : nat.

Definition blank : Z := 0.

(** The expanded label sequence [blank, y1, blank, ..., yL, blank]. *)
Fixpoint expand (l : list Z) : list Z :=
  match l with
  | [] => [blank]
  | y :: l' => blank :: y :: expand l'
  end.

Definition L : nat := length label.
Definition expanded_label (s : nat) : Z := nth s (expand label) blank.

(** [log(posterior(t, expanded_label[s]))]. *)
Definition emission (t s : nat) : W := log_posterior t (expanded_label s).

(** The skip over a blank: into position [s] from [s-2], allowed if
    [s >= 2], [s] is odd (a label position) and
    [expanded_label[s] <> expanded_label[s-2]]; and out of position [s] to
    [s+2], the same condition seen from [s]. *)
Definition skip_from_two_back (s : nat) : bool :=
  (2 <=? s)%nat && Nat.odd s && negb (expanded_label s =? expanded_label (s - 2)).

Definition skip_to_two_ahead (s : nat) : bool :=
  (s + 2 <=? 2 * L)%nat && Nat.odd s
  && negb (expanded_label s =? expanded_label (s + 2)).

(** Modelled from the spec: the forward kernel [ComputeCtcAlpha] is not
    part of the source file. Initialisation: [alpha(0,0)] and, if [L > 0],
    [alpha(0,1)] hold the log posterior of their label, every other
    [alpha(0,s)] is log-zero. Recurrence for [t > 0]: the log-sum of
    [alpha(t-1,s)], of [alpha(t-1,s-1)] if [s >= 1] and of
    [alpha(t-1,s-2)] if the skip is allowed, plus the log posterior of
    [expanded_label[s]] at [t]. *)
Fixpoint alpha (t s : nat) : W :=
  match t with
  | O =>
      match s with
      | O => emission 0 0
      | 1%nat => if (0 <? L)%nat then emission 0 1 else log_zero
      | _ => log_zero
      end
  | S t' =>
      let sum := alpha t' s in
      let sum := if (1 <=? s)%nat then log_add sum (alpha t' (s - 1)) else sum in
      let sum := if skip_from_two_back s then log_add sum (alpha t' (s - 2)) else sum in
      log_mul sum (emission t s)
  end.

(** Modelled from the spec: the backward kernel [ComputeCtcBeta] is not
    part of the source file. It is the mirror image of the forward
    recurrence, run from [T-1] down to 0, in the convention of the total
    [log_add(beta(0,0) + log p(0,blank), beta(0,1) + log p(0,label_1))] of
    the specification, which is also that of the CPU reference left
    commented out at the end of the source file: [beta(t,s)] leaves out the
    posterior of frame [t]. Initialisation: [beta(T-1,2L)] and, if [L > 0],
    [beta(T-1,2L-1)] are [log 1], every other [beta(T-1,s)] is log-zero.
    Recurrence for [t < T-1]: the log-sum of
    [beta(t+1,s) + log p(t+1,expanded_label[s])], of the same at [s+1] if
    [s+1 <= 2L] and of the same at [s+2] if the skip is allowed.
    [beta_back k t] is the row of frame [t] when [k] frames follow it. *)
Fixpoint beta_back (k t s : nat) : W :=
  match k with
  | O =>
      if (s =? 2 * L)%nat then log_one
      else if (0 <? L)%nat && (s =? 2 * L - 1)%nat then log_one
      else log_zero
  | S k' =>
      let sum := log_mul (beta_back k' (t + 1) s) (emission (t + 1) s) in
      let sum := if (s + 1 <=? 2 * L)%nat
                 then log_add sum (log_mul (beta_back k' (t + 1) (s + 1))
                                           (emission (t + 1) (s + 1)))
                 else sum in
      let sum := if skip_to_two_ahead s
                 then log_add sum (log_mul (beta_back k' (t + 1) (s + 2))
                                           (emission (t + 1) (s + 2)))
                 else sum in
      sum
  end.

Definition beta (t s : nat) : W := beta_back (T - 1 - t) t s.

(** The total log-likelihood read off the last row of the alpha table,
    [log_add(alpha(T-1, 2L), alpha(T-1, 2L-1))]. *)
Definition total_from_alpha : W :=
  log_add (alpha (T - 1) (2 * L)) (alpha (T - 1) (2 * L - 1)).

(** The total computed from the first row of the beta table,
    [log_add(beta(0,0) + log p(0,blank), beta(0,1) + log p(0,label_1))]. *)
Definition total_from_beta : W :=
  log_add (log_mul (beta 0 0) (emission 0 0)) (log_mul (beta 0 1) (emission 0 1)).

End Tables.

End ForwardBackward.

Import CtcLoss.

(** * Properties *)

(** ** Loops and indexing *)

Lemma bind_Ok {A B} (m : Result A) (k : A -> Result B) (b : B) :
  bind m k = Ok b -> exists a, m = Ok a /\ k a = Ok b.
Proof. destruct m as [a|f]; simpl; [eauto | discriminate]. Qed.

Lemma for_loop_invariant {St} (P : Z -> St -> Prop) (body : Z -> St -> Result St) :
  forall (n : nat) (i : Z) (s r : St),
    P i s ->
    (forall j s s', i <= j < i + Z.of_nat n -> P j s -> body j s = Ok s' -> P (j + 1) s') ->
    for_loop n i body s = Ok r ->
    P (i + Z.of_nat n) r.
Proof.
  induction n as [|n IH]; intros i s r Hs Hstep Hrun; simpl in Hrun.
  - injection Hrun as <-. now replace (i + Z.of_nat 0) with i by lia.
  - apply bind_Ok in Hrun as (s1 & H1 & Hrun).
    replace (i + Z.of_nat (S n)) with ((i + 1) + Z.of_nat n) by lia.
    apply IH with (s := s1); [ | | exact Hrun].
    + apply Hstep with (s := s); [lia | exact Hs | exact H1].
    + intros j s2 s3 Hj. apply Hstep. lia.
Qed.

(** A loop whose body succeeds under the invariant runs to its end. *)
Lemma for_loop_total {St} (P : Z -> St -> Prop) (body : Z -> St -> Result St) :
  forall (n : nat) (i : Z) (s : St),
    P i s ->
    (forall j s, i <= j < i + Z.of_nat n -> P j s ->
       exists s', body j s = Ok s' /\ P (j + 1) s') ->
    exists r, for_loop n i body s = Ok r /\ P (i + Z.of_nat n) r.
Proof.
  induction n as [|n IH]; intros i s Hs Hstep; simpl.
  - exists s. split; [reflexivity | now replace (i + Z.of_nat 0) with i by lia].
  - destruct (Hstep i s) as (s1 & H1 & HP1); [lia | exact Hs | ].
    rewrite H1. simpl.
    destruct (IH (i + 1) s1 HP1) as (r & Hr & HPr).
    + intros j s2 Hj. apply Hstep. lia.
    + exists r. split; [exact Hr | ].
      now replace (i + Z.of_nat (S n)) with ((i + 1) + Z.of_nat n) by lia.
Qed.

(** A loop aborts only the way its body does. *)
Lemma for_loop_abort {St} (Q : Failure -> Prop) (body : Z -> St -> Result St) :
  (forall j s f, body j s = Abort f -> Q f) ->
  forall (n : nat) (i : Z) (s : St) f, for_loop n i body s = Abort f -> Q f.
Proof.
  intros Hbody. induction n as [|n IH]; intros i s f Hrun; simpl in Hrun.
  - discriminate.
  - destruct (body i s) as [s1|f1] eqn:E; simpl in Hrun.
    + eapply IH, Hrun.
    + injection Hrun as <-. eapply Hbody, E.
Qed.

Lemma at_index_Ok {A} (v : list A) (i : Z) (x : A) :
  at_index v i = Ok x <-> 0 <= i /\ v !! Z.to_nat i = Some x.
Proof.
  unfold at_index. destruct (Z.ltb_spec i 0) as [Hneg|Hpos].
  - split; [discriminate | lia].
  - destruct (v !! Z.to_nat i) as [y|]; simpl; split.
    + intros [= ->]. auto.
    + intros [_ [= ->]]. reflexivity.
    + discriminate.
    + intros [_ [=]].
Qed.

Lemma at_index_in_range {A} (v : list A) (i : Z) :
  0 <= i < Z.of_nat (length v) -> exists x, at_index v i = Ok x.
Proof.
  intros Hi. destruct (lookup_lt_is_Some_2 v (Z.to_nat i)) as [x Hx]; [lia|].
  exists x. apply at_index_Ok. split; [lia | exact Hx].
Qed.

Lemma at_index_abort {A} (v : list A) (i : Z) f :
  at_index v i = Abort f -> f = IndexOutOfRange.
Proof.
  unfold at_index. destruct (i <? 0); [congruence|].
  destruct (v !! Z.to_nat i); simpl; congruence.
Qed.

Lemma at_index_nat {A} (v : list A) (n : nat) :
  at_index v (Z.of_nat n) = of_option (v !! n).
Proof.
  unfold at_index. destruct (Z.ltb_spec (Z.of_nat n) 0); [lia|].
  now rewrite Nat2Z.id.
Qed.

(** ** The windowed average-loss policy *)

(** A registry as the constructor of [Ctc] leaves it, for a given window
    length and report step. *)
Definition fresh_state (stat_period report_step : Z) : CtcState :=
  mkCtc zero zero 0 0 0 0 0 0 report_step 0 stat_period zero zero zero zero [].

(** The two phases of [StatAndAverageLossCheck]. *)
Definition bootstrap_phase (c : CtcState) : Prop := normal_num_ c < stat_period_ c ÷ 2.
Definition check_phase (c : CtcState) : Prop := stat_period_ c ÷ 2 <= normal_num_ c.

(** The total loss is finite and strictly between 0 and 3000. *)
Definition sane_loss (pzx : BaseFloat) : Prop :=
  KALDI_ISFINITE pzx = true /\ lt zero pzx = true /\ lt pzx (float_of_int 3000) = true.

(** The per-frame loss lies between [mean - 6 sigma] and [mean + 6 sigma],
    for the rolling mean and the rolling sigma of the registry. *)
Definition inside_six_sigma (c : CtcState) (loss_per_frame : double) : Prop :=
  le (dsub (rolling_mean c) (dmul (double_of_int 6) (rolling_sigma c))) loss_per_frame = true
  /\ le loss_per_frame (dadd (rolling_mean c) (dmul (double_of_int 6) (rolling_sigma c))) = true.

(** The loss of an utterance has been added to the objective and to the
    rolling sums (which the half-window reset may have re-centred in the
    same step). *)
Definition loss_added (pzx : BaseFloat) (loss_per_frame : double) (c c' : CtcState) : Prop :=
  obj_ c' = dadd (obj_ c) (to_double pzx)
  /\ obj_progress_ c' = dadd (obj_progress_ c) (to_double pzx)
  /\ ((normal_num_ c' = normal_num_ c + 1
       /\ loss_sum_ c' = dadd (loss_sum_ c) loss_per_frame
       /\ loss_square_sum_ c' =
            dadd (loss_square_sum_ c) (dmul loss_per_frame loss_per_frame))
      \/ (normal_num_ c + 1 = stat_period_ c
          /\ normal_num_ c' = stat_period_ c ÷ 2
          /\ loss_sum_ c' = dsub (dadd (loss_sum_ c) loss_per_frame) (loss_sum_bak_ c)
          /\ loss_square_sum_ c' =
               dsub (dadd (loss_square_sum_ c) (dmul loss_per_frame loss_per_frame))
                    (loss_square_sum_bak_ c))).

(** The utterance has left the objective and the loss statistics alone. *)
Definition loss_left_out (c c' : CtcState) : Prop :=
  obj_ c' = obj_ c /\ obj_progress_ c' = obj_progress_ c
  /\ normal_num_ c' = normal_num_ c
  /\ loss_sum_ c' = loss_sum_ c /\ loss_sum_bak_ c' = loss_sum_bak_ c
  /\ loss_square_sum_ c' = loss_square_sum_ c
  /\ loss_square_sum_bak_ c' = loss_square_sum_bak_ c.

Lemma sane_loss_guard (pzx : BaseFloat) :
  KALDI_ISFINITE pzx && lt zero pzx && lt pzx (float_of_int 3000) = true <-> sane_loss pzx.
Proof.
  unfold sane_loss. rewrite !andb_true_iff. tauto.
Qed.

Lemma check_guard (c : CtcState) (pzx : BaseFloat) (lpf : double) :
  KALDI_ISFINITE pzx && within_six_sigma c lpf
    && (lt zero pzx && lt pzx (float_of_int 3000)) = true
  <-> sane_loss pzx /\ inside_six_sigma c lpf.
Proof.
  unfold sane_loss, inside_six_sigma, within_six_sigma. rewrite !andb_true_iff. tauto.
Qed.

Lemma zero_utt_rows_abort N s fn diff f :
  zero_utt_rows N s fn diff = Abort f -> f = IndexOutOfRange.
Proof.
  unfold zero_utt_rows. intros Hrun.
  eapply (for_loop_abort (fun f => f = IndexOutOfRange)); [|exact Hrun].
  intros j d f'. unfold RowSetZero. destruct (at_index (Rows d) (j * N + s)) eqn:E; simpl.
  - discriminate.
  - intros [= <-]. eapply at_index_abort, E.
Qed.

(** What [avg_decide] does in each of its four branches. *)
Lemma avg_decide_bootstrap_accept utt N s fn pzx c diff :
  bootstrap_phase c -> sane_loss pzx ->
  avg_decide utt N s fn pzx c diff =
    Ok (add_objective (to_double pzx)
          (add_loss_bak (loss_per_frame_of pzx fn)
             (add_loss (loss_per_frame_of pzx fn)
                (set_normal_num (normal_num_ c + 1) c))), diff).
Proof.
  intros Hb Hs. unfold avg_decide.
  destruct (Z.ltb_spec (normal_num_ c) (stat_period_ c ÷ 2)); [|unfold bootstrap_phase in Hb; lia].
  apply sane_loss_guard in Hs. now rewrite Hs.
Qed.

Lemma avg_decide_bootstrap_skip utt N s fn pzx c diff :
  bootstrap_phase c -> ~ sane_loss pzx ->
  avg_decide utt N s fn pzx c diff = Ok (c, diff).
Proof.
  intros Hb Hs. unfold avg_decide.
  destruct (Z.ltb_spec (normal_num_ c) (stat_period_ c ÷ 2)); [|unfold bootstrap_phase in Hb; lia].
  destruct (KALDI_ISFINITE pzx && lt zero pzx && lt pzx (float_of_int 3000)) eqn:E;
    [|reflexivity].
  apply sane_loss_guard in E. contradiction.
Qed.

Lemma avg_decide_check_accept utt N s fn pzx c diff :
  check_phase c -> sane_loss pzx -> inside_six_sigma c (loss_per_frame_of pzx fn) ->
  avg_decide utt N s fn pzx c diff =
    Ok (let c2 := add_objective (to_double pzx)
                    (add_loss (loss_per_frame_of pzx fn)
                       (set_normal_num (normal_num_ c + 1)
                          (emit (DivideByNormalNum (normal_num_ c)) c))) in
        if normal_num_ c + 1 =? stat_period_ c then reset_window c2 else c2, diff).
Proof.
  intros Hc Hs Hw. unfold avg_decide.
  destruct (Z.ltb_spec (normal_num_ c) (stat_period_ c ÷ 2)); [unfold check_phase in Hc; lia|].
  pose proof (proj2 (check_guard c pzx (loss_per_frame_of pzx fn)) (conj Hs Hw)) as G.
  change (within_six_sigma (emit (DivideByNormalNum (normal_num_ c)) c)
            (loss_per_frame_of pzx fn))
    with (within_six_sigma c (loss_per_frame_of pzx fn)).
  now rewrite G.
Qed.

Lemma avg_decide_check_drop utt N s fn pzx c diff :
  check_phase c -> ~ (sane_loss pzx /\ inside_six_sigma c (loss_per_frame_of pzx fn)) ->
  avg_decide utt N s fn pzx c diff =
    (let! name := at_index utt s in
     let! diff' := zero_utt_rows N s fn diff in
     Ok (emit (WarnAbnormalAvg name pzx (loss_per_frame_of pzx fn)
                 (ddiv (loss_sum_ c) (double_of_int (normal_num_ c)))
                 (ddiv (loss_square_sum_ c) (double_of_int (normal_num_ c))))
           (emit (DivideByNormalNum (normal_num_ c))
              (emit (DivideByNormalNum (normal_num_ c)) c)), diff')).
Proof.
  intros Hc Hn. unfold avg_decide.
  destruct (Z.ltb_spec (normal_num_ c) (stat_period_ c ÷ 2)); [unfold check_phase in Hc; lia|].
  change (within_six_sigma (emit (DivideByNormalNum (normal_num_ c)) c)
            (loss_per_frame_of pzx fn))
    with (within_six_sigma c (loss_per_frame_of pzx fn)).
  destruct (KALDI_ISFINITE pzx && within_six_sigma c (loss_per_frame_of pzx fn)
            && (lt zero pzx && lt pzx (float_of_int 3000))) eqn:E.
  - apply check_guard in E. contradiction.
  - reflexivity.
Qed.

(** ** Zeroing the rows of one sequence *)

Definition zeroize (row : list BaseFloat) : list BaseFloat := map (fun _ => zero) row.

(** Row [r] belongs to sequence [s] of a batch of [N] sequences with
    [frame_num] frames: [r = t*N + s] for a frame [t] of the sequence. *)
Definition row_of_sequence (N s frame_num : Z) (r : nat) : Prop :=
  exists t, 0 <= t < frame_num /\ Z.of_nat r = t * N + s.

(** Every frame of sequence [s] has its row inside [diff]. *)
Definition rows_in_range (N s frame_num : Z) (diff : Matrix) : Prop :=
  0 <= s /\ 0 <= N /\ forall t, 0 <= t < frame_num -> t * N + s < NumRows diff.

Lemma zeroize_idem row : zeroize (zeroize row) = zeroize row.
Proof. unfold zeroize. rewrite map_map. reflexivity. Qed.

Lemma RowSetZero_in_range (r : Z) (m : Matrix) :
  0 <= r < NumRows m ->
  exists row, Rows m !! Z.to_nat r = Some row
    /\ RowSetZero r m = Ok (mkMatrix (NumCols m) (<[Z.to_nat r := zeroize row]> (Rows m))).
Proof.
  intros Hr. unfold NumRows in Hr.
  destruct (at_index_in_range (Rows m) r Hr) as [row Hrow].
  exists row. split; [now apply at_index_Ok in Hrow|].
  unfold RowSetZero. rewrite Hrow. reflexivity.
Qed.

Lemma zero_utt_rows_spec (N s frame_num : Z) (diff : Matrix) :
  rows_in_range N s frame_num diff ->
  exists diff',
    zero_utt_rows N s frame_num diff = Ok diff'
    /\ NumCols diff' = NumCols diff
    /\ length (Rows diff') = length (Rows diff)
    /\ (forall r, row_of_sequence N s frame_num r ->
          Rows diff' !! r = zeroize <$> Rows diff !! r)
    /\ (forall r, ~ row_of_sequence N s frame_num r ->
          Rows diff' !! r = Rows diff !! r).
Proof.
  intros (Hs & HN & Hrange). unfold zero_utt_rows.
  set (P := fun (j : Z) (d : Matrix) =>
    NumCols d = NumCols diff
    /\ length (Rows d) = length (Rows diff)
    /\ (forall r : nat, zeroize <$> Rows d !! r = zeroize <$> Rows diff !! r)
    /\ (forall r, row_of_sequence N s j r -> Rows d !! r = zeroize <$> Rows diff !! r)
    /\ (forall r, ~ row_of_sequence N s j r -> Rows d !! r = Rows diff !! r)).
  destruct (for_loop_total P (fun t d => RowSetZero (t * N + s) d)
              (Z.to_nat frame_num) 0 diff) as (d' & Hrun & HP).
  - unfold P. repeat split; try reflexivity.
    intros r (t & Ht & _). lia.
  - intros j d Hj (Hcols & Hlen & Hz & Hin & Hout).
    assert (Hjr : 0 <= j * N + s < NumRows d).
    { unfold NumRows. rewrite Hlen. split; [nia|]. apply Hrange. lia. }
    destruct (RowSetZero_in_range _ _ Hjr) as (row & Hrow & ->).
    eexists. split; [reflexivity|].
    unfold P; simpl. split; [exact Hcols|]. split; [now rewrite length_insert|].
    assert (Hlt : (Z.to_nat (j * N + s) < length (Rows d))%nat)
      by (unfold NumRows in Hjr; lia).
    split; [|split].
    + intros r. destruct (decide (Z.to_nat (j * N + s) = r)) as [<-|Hne].
      * rewrite list_lookup_insert_eq by exact Hlt. simpl.
        rewrite zeroize_idem, <- Hz, Hrow. reflexivity.
      * rewrite list_lookup_insert_ne by exact Hne. apply Hz.
    + intros r (t & Ht & Hr).
      destruct (decide (Z.to_nat (j * N + s) = r)) as [<-|Hne].
      * rewrite list_lookup_insert_eq by exact Hlt.
        rewrite <- Hz, Hrow. reflexivity.
      * rewrite list_lookup_insert_ne by exact Hne. apply Hin.
        exists t. split; [|exact Hr].
        assert (t <> j) by (intros ->; apply Hne; lia). lia.
    + intros r Hnot.
      destruct (decide (Z.to_nat (j * N + s) = r)) as [<-|Hne].
      * exfalso. apply Hnot. exists j. split; [lia|]. lia.
      * rewrite list_lookup_insert_ne by exact Hne. apply Hout.
        intros (t & Ht & Hr). apply Hnot. exists t. split; [lia | exact Hr].
  - exists d'. split; [exact Hrun|].
    replace (0 + Z.of_nat (Z.to_nat frame_num)) with (Z.max 0 frame_num) in HP by lia.
    destruct HP as (Hcols & Hlen & _ & Hin & Hout).
    repeat split; try assumption.
    + intros r (t & Ht & Hr). apply Hin. exists t. split; [lia | exact Hr].
    + intros r Hnot. apply Hout. intros (t & Ht & Hr). apply Hnot.
      exists t. split; [lia | exact Hr].
Qed.

Lemma RowSetZero_Ok (r : Z) (m m' : Matrix) :
  RowSetZero r m = Ok m' ->
  exists row, 0 <= r /\ Rows m !! Z.to_nat r = Some row
    /\ m' = mkMatrix (NumCols m) (<[Z.to_nat r := zeroize row]> (Rows m)).
Proof.
  unfold RowSetZero. intros H. apply bind_Ok in H as (row & Hrow & H).
  injection H as <-. apply at_index_Ok in Hrow as [H0 Hrow]. exists row. auto.
Qed.

(** What a completed [zero_utt_rows] has done: the rows of the sequence
    are zeroed, the others untouched; the row indices were all in range. *)
Lemma zero_utt_rows_Ok (N s frame_num : Z) (diff diff' : Matrix) :
  zero_utt_rows N s frame_num diff = Ok diff' ->
  NumCols diff' = NumCols diff
  /\ length (Rows diff') = length (Rows diff)
  /\ (forall r : nat, Rows diff' !! r = Rows diff !! r
                      \/ Rows diff' !! r = zeroize <$> Rows diff !! r)
  /\ (forall r, row_of_sequence N s frame_num r ->
        Rows diff' !! r = zeroize <$> Rows diff !! r)
  /\ (forall r, ~ row_of_sequence N s frame_num r -> Rows diff' !! r = Rows diff !! r).
Proof.
  intros Hrun. unfold zero_utt_rows in Hrun.
  set (P := fun (j : Z) (d : Matrix) =>
    NumCols d = NumCols diff
    /\ length (Rows d) = length (Rows diff)
    /\ (forall r : nat, Rows d !! r = Rows diff !! r
                        \/ Rows d !! r = zeroize <$> Rows diff !! r)
    /\ (forall r, row_of_sequence N s j r -> Rows d !! r = zeroize <$> Rows diff !! r)
    /\ (forall r, ~ row_of_sequence N s j r -> Rows d !! r = Rows diff !! r)).
  assert (HP : P (0 + Z.of_nat (Z.to_nat frame_num)) diff').
  { apply (for_loop_invariant P (fun t d => RowSetZero (t * N + s) d)
             (Z.to_nat frame_num) 0 diff); [| |exact Hrun].
    - unfold P. repeat split; auto. intros r (t & Ht & _). lia.
    - intros j d d' Hj (Hcols & Hlen & Hany & Hin & Hout) Hstep.
      apply RowSetZero_Ok in Hstep as (row & H0 & Hrow & ->).
      assert (Hlt : (Z.to_nat (j * N + s) < length (Rows d))%nat)
        by (apply lookup_lt_Some in Hrow; exact Hrow).
      unfold P; cbn [NumCols Rows].
      split; [exact Hcols|]. split; [now rewrite length_insert|].
      assert (Hhere : Some (zeroize row) = zeroize <$> Rows diff !! Z.to_nat (j * N + s)).
      { destruct (Hany (Z.to_nat (j * N + s))) as [E|E]; rewrite Hrow in E.
        - now rewrite <- E.
        - destruct (Rows diff !! Z.to_nat (j * N + s)) as [row0|]; simpl in *;
            [injection E as ->; now rewrite zeroize_idem | discriminate]. }
      split; [|split].
      + intros r. destruct (decide (Z.to_nat (j * N + s) = r)) as [<-|Hne].
        * right. rewrite list_lookup_insert_eq by exact Hlt. exact Hhere.
        * rewrite list_lookup_insert_ne by exact Hne. apply Hany.
      + intros r (t & Ht & Hr).
        destruct (decide (Z.to_nat (j * N + s) = r)) as [<-|Hne].
        * rewrite list_lookup_insert_eq by exact Hlt. exact Hhere.
        * rewrite list_lookup_insert_ne by exact Hne. apply Hin.
          exists t. split; [|exact Hr].
          assert (t <> j) by (intros ->; apply Hne; lia). lia.
      + intros r Hnot.
        destruct (decide (Z.to_nat (j * N + s) = r)) as [<-|Hne].
        * exfalso. apply Hnot. exists j. split; [lia|]. lia.
        * rewrite list_lookup_insert_ne by exact Hne. apply Hout.
          intros (t & Ht & Hr). apply Hnot. exists t. split; [lia | exact Hr]. }
  destruct HP as (Hcols & Hlen & Hany & Hin & Hout).
  repeat split; try assumption.
  - intros r (t & Ht & Hr). apply Hin. exists t. split; [lia | exact Hr].
  - intros r Hnot. apply Hout. intros (t & Ht & Hr). apply Hnot.
    exists t. split; [lia | exact Hr].
Qed.

(** The rows of sequence [s] have been zeroed in [diff'], every other row
    of [diff] is as it was. *)
Definition sequence_rows_zeroed (N s frame_num : Z) (diff diff' : Matrix) : Prop :=
  NumCols diff' = NumCols diff
  /\ length (Rows diff') = length (Rows diff)
  /\ (forall r, row_of_sequence N s frame_num r ->
        Rows diff' !! r = zeroize <$> Rows diff !! r)
  /\ (forall r, ~ row_of_sequence N s frame_num r ->
        Rows diff' !! r = Rows diff !! r).

(** The frame count of the utterance has been added to both frame
    counters, in [int32] arithmetic. *)
Definition frames_counted (frame_num : Z) (c c' : CtcState) : Prop :=
  frames_ c' = int32 (frames_ c + frame_num)
  /\ frames_progress_ c' = int32 (frames_progress_ c + frame_num).

(** The total loss is finite and lies in the closed interval [0, 3000]. *)
Definition loss_in_closed_range (pzx : BaseFloat) : Prop :=
  KALDI_ISFINITE pzx = true /\ le zero pzx = true /\ le pzx (float_of_int 3000) = true.

(** In the check phase a step either adds the loss or leaves it out, and it
    adds only a loss that is finite and strictly between 0 and 3000. *)
Lemma avg_decide_check_cases utt N s fn pzx c diff c' diff' :
  check_phase c ->
  avg_decide utt N s fn pzx c diff = Ok (c', diff') ->
  (sane_loss pzx /\ diff' = diff /\ loss_added pzx (loss_per_frame_of pzx fn) c c')
  \/ loss_left_out c c'.
Proof.
  intros Hc Hrun.
  destruct (KALDI_ISFINITE pzx && within_six_sigma c (loss_per_frame_of pzx fn)
            && (lt zero pzx && lt pzx (float_of_int 3000))) eqn:E.
  - apply check_guard in E as [Hs Hw]. left.
    rewrite (avg_decide_check_accept utt N s fn pzx c diff Hc Hs Hw) in Hrun.
    injection Hrun as <- <-. split; [exact Hs|]. split; [reflexivity|].
    unfold loss_added. destruct (Z.eqb_spec (normal_num_ c + 1) (stat_period_ c)) as [E|E].
    + simpl. repeat split. right. repeat split. exact E.
    + simpl. repeat split. left. repeat split.
  - right.
    assert (Hn : ~ (sane_loss pzx /\ inside_six_sigma c (loss_per_frame_of pzx fn)))
      by (intros H; apply check_guard in H; congruence).
    rewrite (avg_decide_check_drop utt N s fn pzx c diff Hc Hn) in Hrun.
    apply bind_Ok in Hrun as (name & _ & Hrun).
    apply bind_Ok in Hrun as (d1 & _ & Hrun).
    injection Hrun as <- <-. unfold loss_left_out. simpl. repeat split.
Qed.

(** C2, as the code has it, for the test on the total loss. Under the
    windowed policy an utterance is accepted only if its total loss is
    finite and strictly between 0 and 3000. In the check phase an utterance
    whose total loss is not so is left out of the objective and of the
    rolling sums, and any other is either accepted or left out (by the test
    on its per-frame loss, of which nothing is said here). In the bootstrap
    phase the utterance is accepted if and only if its total loss is finite
    and strictly between 0 and 3000, whatever its per-frame loss; otherwise
    nothing changes. *)
Theorem C2_windowed_acceptance :
  forall (utt : list string) (N s fn : Z) (pzx : BaseFloat) (c : CtcState) (diff : Matrix),
    (check_phase c ->
       forall c' diff', avg_decide utt N s fn pzx c diff = Ok (c', diff') ->
         (~ sane_loss pzx -> loss_left_out c c')
         /\ ((sane_loss pzx /\ diff' = diff
              /\ loss_added pzx (loss_per_frame_of pzx fn) c c')
             \/ loss_left_out c c'))
    /\ (bootstrap_phase c ->
          (sane_loss pzx ->
             exists c', avg_decide utt N s fn pzx c diff = Ok (c', diff)
                        /\ loss_added pzx (loss_per_frame_of pzx fn) c c')
          /\ (~ sane_loss pzx -> avg_decide utt N s fn pzx c diff = Ok (c, diff))).
Proof.
  intros utt N s fn pzx c diff. split.
  - intros Hc c' diff' Hrun.
    pose proof (avg_decide_check_cases utt N s fn pzx c diff c' diff' Hc Hrun) as Hcases.
    split; [|exact Hcases].
    intros Hn. destruct Hcases as [(Hs & _)|Hout]; [contradiction | exact Hout].
  - intros Hb. split.
    + intros Hs. rewrite (avg_decide_bootstrap_accept utt N s fn pzx c diff Hb Hs).
      eexists. split; [reflexivity|].
      unfold loss_added. simpl. repeat split. left. repeat split.
    + intros Hn. apply avg_decide_bootstrap_skip; assumption.
Qed.

(** A registry in its check phase: a window of two, one sample of 5 per
    frame so far. *)
Definition window_state : CtcState :=
  mkCtc zero zero 0 0 0 0 0 0 100 1 2 (double_of_int 5) (double_of_int 5)
    (double_of_int 25) (double_of_int 25) [].

Lemma C2_windowed_acceptance_witness :
  (exists c' diff',
     avg_decide ["utt1"%string] 1 0 1 (float_of_int 3000) window_state
       (mkMatrix 1 [[float_of_int 1]]) = Ok (c', diff')
     /\ loss_left_out window_state c')
  /\ (exists c' diff',
        avg_decide ["utt1"%string] 1 0 1 (float_of_int 5) window_state
          (mkMatrix 1 [[float_of_int 1]]) = Ok (c', diff')
        /\ ((sane_loss (float_of_int 5) /\ diff' = mkMatrix 1 [[float_of_int 1]]
             /\ loss_added (float_of_int 5) (loss_per_frame_of (float_of_int 5) 1)
                  window_state c')
            \/ loss_left_out window_state c')
        /\ obj_ c' = double_of_int 5)
  /\ (exists c',
        avg_decide ["utt1"%string] 1 0 10 (float_of_int 25) (fresh_state 100 100)
          (mkMatrix 1 [[zero]]) = Ok (c', mkMatrix 1 [[zero]])
        /\ loss_added (float_of_int 25) (loss_per_frame_of (float_of_int 25) 10)
             (fresh_state 100 100) c').
Proof.
  split; [|split].
  - eexists. eexists. split; [vm_compute; reflexivity|].
    refine (proj1 (proj1 (C2_windowed_acceptance ["utt1"%string] 1 0 1 (float_of_int 3000)
                            window_state (mkMatrix 1 [[float_of_int 1]])) _ _ _ _) _).
    + unfold check_phase. vm_compute. discriminate.
    + vm_compute. reflexivity.
    + unfold sane_loss. vm_compute. intros (_ & _ & H). discriminate.
  - eexists. eexists. split; [vm_compute; reflexivity|]. split; [|vm_compute; reflexivity].
    refine (proj2 (proj1 (C2_windowed_acceptance ["utt1"%string] 1 0 1 (float_of_int 5)
                            window_state (mkMatrix 1 [[float_of_int 1]])) _ _ _ _)).
    + unfold check_phase. vm_compute. discriminate.
    + vm_compute. reflexivity.
  - destruct (C2_windowed_acceptance ["utt1"%string] 1 0 10 (float_of_int 25)
                (fresh_state 100 100) (mkMatrix 1 [[zero]])) as [_ Hboot].
    destruct Hboot as [Hacc _].
    + unfold bootstrap_phase. vm_compute. reflexivity.
    + apply Hacc. unfold sane_loss. vm_compute. repeat split.
Defined.

(** At a total loss of exactly 3000, a finite value of the closed interval
    [0, 3000], the bootstrap phase leaves the utterance out. *)
Lemma C2_counterexample :
  bootstrap_phase (fresh_state 100 100)
  /\ loss_in_closed_range (float_of_int 3000)
  /\ avg_decide ["utt1"%string] 1 0 10 (float_of_int 3000) (fresh_state 100 100)
       (mkMatrix 1 [[zero]]) = Ok (fresh_state 100 100, mkMatrix 1 [[zero]])
  /\ obj_ (fresh_state 100 100)
       <> dadd (obj_ (fresh_state 100 100)) (to_double (float_of_int 3000)).
Proof.
  split; [unfold bootstrap_phase; vm_compute; reflexivity|].
  split; [unfold loss_in_closed_range; vm_compute; repeat split|].
  split; [vm_compute; reflexivity|].
  vm_compute. discriminate.
Qed.

(** ** Rejected utterances *)

(** The sum-threshold policy rejects a total loss above 3000 or below 0. *)
Definition rejected_by_sum (pzx : BaseFloat) : Prop :=
  lt (float_of_int 3000) pzx = true \/ lt pzx zero = true.

(** The windowed policy, once in its check phase, rejects a loss that is not
    sane or whose per-frame value is outside the 6 sigma band. *)
Definition rejected_by_check (c : CtcState) (pzx : BaseFloat) (frame_num : Z) : Prop :=
  check_phase c
  /\ ~ (sane_loss pzx /\ inside_six_sigma c (loss_per_frame_of pzx frame_num)).

(** What a rejection does to the gradient and to the registry. *)
Definition rejection_effect (N s frame_num : Z) (c c' : CtcState) (diff diff' : Matrix) : Prop :=
  sequence_rows_zeroed N s frame_num diff diff'
  /\ obj_ c' = obj_ c /\ obj_progress_ c' = obj_progress_ c
  /\ frames_counted frame_num c c'.

(** C3, as the code has it. An utterance rejected by the sum-threshold
    policy, or by the windowed policy in its check phase, has exactly the rows
    [t * num_sequence + s], [t] below its frame count, set to zero; the rows
    of the other sequences are unchanged, its loss is not added to the
    objective sums and its frame count is added to both frame counters. *)
Theorem C3_rejection_zeroes_own_rows :
  forall (utt : list string) (frame_num_utt : list Z) (pzx_host : list BaseFloat)
         (s : Z) (c : CtcState) (diff : Matrix) (pzx : BaseFloat) (fn : Z) (name : string),
    at_index pzx_host s = Ok pzx ->
    at_index frame_num_utt s = Ok fn ->
    at_index utt s = Ok name ->
    rows_in_range (Z.of_nat (length frame_num_utt)) s fn diff ->
    (rejected_by_sum pzx ->
       exists c' diff',
         sum_utt utt frame_num_utt pzx_host s (c, diff) = Ok (c', diff')
         /\ rejection_effect (Z.of_nat (length frame_num_utt)) s fn c c' diff diff')
    /\ (rejected_by_check c pzx fn ->
          exists c' diff',
            avg_utt utt frame_num_utt pzx_host s (c, diff) = Ok (c', diff')
            /\ rejection_effect (Z.of_nat (length frame_num_utt)) s fn c c' diff diff').
Proof.
  intros utt fnu pzx_host s c diff pzx fn name Hpzx Hfn Hname Hrange.
  destruct (zero_utt_rows_spec _ _ _ _ Hrange) as (d' & Hzero & Hrows).
  split.
  - intros Hrej. exists (add_frames fn (emit (WarnAbnormalSum name pzx) c)), d'.
    split.
    + unfold sum_utt. rewrite Hpzx, Hfn. cbn [bind fst snd].
      assert (G : lt (float_of_int 3000) pzx || lt pzx zero = true)
        by (apply orb_true_iff; exact Hrej).
      rewrite G, Hname. cbn [bind]. rewrite Hzero. reflexivity.
    + unfold rejection_effect, frames_counted. simpl. repeat split; apply Hrows.
  - intros [Hc Hn].
    exists (add_frames fn
              (emit (WarnAbnormalAvg name pzx (loss_per_frame_of pzx fn)
                       (ddiv (loss_sum_ c) (double_of_int (normal_num_ c)))
                       (ddiv (loss_square_sum_ c) (double_of_int (normal_num_ c))))
                 (emit (DivideByNormalNum (normal_num_ c))
                    (emit (DivideByNormalNum (normal_num_ c)) c)))), d'.
    split.
    + unfold avg_utt. rewrite Hpzx, Hfn. cbn [bind fst snd].
      rewrite (avg_decide_check_drop utt _ s fn pzx c diff Hc Hn).
      rewrite Hname. cbn [bind]. rewrite Hzero. reflexivity.
    + unfold rejection_effect, frames_counted. simpl. repeat split; apply Hrows.
Qed.

(** A batch of two sequences of two frames each, over three classes. *)
Definition two_by_two : Matrix :=
  mkMatrix 3 (repeat [float_of_int 1; float_of_int (-1); zero] 4).

Lemma C3_rejection_zeroes_own_rows_witness :
  exists c' diff',
    sum_utt ["utt0"%string; "utt1"%string] [2; 2] [float_of_int 10; float_of_int 5000] 1
      (fresh_state 100 100, two_by_two) = Ok (c', diff')
    /\ rejection_effect 2 1 2 (fresh_state 100 100) c' two_by_two diff'.
Proof.
  refine (proj1 (C3_rejection_zeroes_own_rows ["utt0"%string; "utt1"%string] [2; 2]
                   [float_of_int 10; float_of_int 5000] 1 (fresh_state 100 100)
                   two_by_two (float_of_int 5000) 2 "utt1"%string _ _ _ _) _).
  - reflexivity.
  - reflexivity.
  - reflexivity.
  - unfold rows_in_range. split; [lia|]. split; [simpl; lia|].
    intros t Ht. unfold NumRows. simpl. lia.
  - left. vm_compute. reflexivity.
Defined.

(** A call of the windowed policy in its bootstrap phase, on one utterance
    with a loss of 5000: the loss is kept out of the objective, and the row
    of the utterance comes back as it was, not zeroed. *)
Lemma C3_counterexample :
  bootstrap_phase (fresh_state 100 100)
  /\ exists c',
       StatAndAverageLossCheck ["utt0"%string] [1] [float_of_int 5000]
         (fresh_state 100 100, mkMatrix 1 [[float_of_int 1]])
       = Ok (c', mkMatrix 1 [[float_of_int 1]])
       /\ loss_left_out (fresh_state 100 100) c'
       /\ row_of_sequence 1 0 1 0
       /\ Rows (mkMatrix 1 [[float_of_int 1]]) !! 0%nat <> Some [zero].
Proof.
  split; [unfold bootstrap_phase; vm_compute; reflexivity|].
  eexists. split; [vm_compute; reflexivity|].
  split; [unfold loss_left_out; simpl; repeat split|].
  split; [exists 0; simpl; lia|].
  vm_compute. discriminate.
Qed.

(** ** The bootstrap phase *)

(** The loss is not finite, or lies outside the open interval (0, 3000). *)
Definition abnormal_loss (pzx : BaseFloat) : Prop :=
  KALDI_ISFINITE pzx = false \/ lt zero pzx = false \/ lt pzx (float_of_int 3000) = false.

Lemma abnormal_not_sane (pzx : BaseFloat) : abnormal_loss pzx -> ~ sane_loss pzx.
Proof.
  intros [H|[H|H]] (H1 & H2 & H3); congruence.
Qed.

(** ** The denominator [normal_num_] *)

(** The divisors recorded in a trace. *)
Definition divisors (tr : list Event) : list Z :=
  flat_map (fun e => match e with DivideByNormalNum n => [n] | _ => [] end) tr.

Lemma divisors_app tr1 tr2 : divisors (tr1 ++ tr2) = divisors tr1 ++ divisors tr2.
Proof. unfold divisors. apply flat_map_app. Qed.

(** One utterance of the windowed policy: the window length is constant,
    the divisors it records are the current [normal_num_] of a check-phase
    state, a bootstrap step only ever increments [normal_num_], and a
    check-phase step keeps it at or above [stat_period_ / 2]. *)
Lemma avg_utt_step (utt : list string) (frame_num_utt : list Z) (pzx_host : list BaseFloat)
    (s : Z) (c c' : CtcState) (diff diff' : Matrix) :
  avg_utt utt frame_num_utt pzx_host s (c, diff) = Ok (c', diff') ->
  stat_period_ c' = stat_period_ c
  /\ (exists new, trace_ c' = new ++ trace_ c
        /\ forall n, In n (divisors new) -> check_phase c /\ n = normal_num_ c)
  /\ (bootstrap_phase c ->
        normal_num_ c' = normal_num_ c \/ normal_num_ c' = normal_num_ c + 1)
  /\ (check_phase c ->
        normal_num_ c' = normal_num_ c \/ normal_num_ c' = normal_num_ c + 1
        \/ (normal_num_ c + 1 = stat_period_ c /\ normal_num_ c' = stat_period_ c ÷ 2)).
Proof.
  intros Hrun. unfold avg_utt in Hrun.
  apply bind_Ok in Hrun as (pzx & _ & Hrun).
  apply bind_Ok in Hrun as (fn & _ & Hrun).
  apply bind_Ok in Hrun as ([c1 d1] & Hdec & Hrun). injection Hrun as <- <-.
  cbn [fst snd] in Hdec. unfold avg_decide in Hdec.
  destruct (Z.ltb_spec (normal_num_ c) (stat_period_ c ÷ 2)) as [Hlt|Hge].
  - destruct (KALDI_ISFINITE pzx && lt zero pzx && lt pzx (float_of_int 3000));
      injection Hdec as <- <-; simpl.
    + split; [reflexivity|]. split; [exists []; simpl; tauto|].
      split; [auto|]. unfold check_phase. lia.
    + split; [reflexivity|]. split; [exists []; simpl; tauto|].
      split; [auto|]. unfold check_phase. lia.
  - destruct (KALDI_ISFINITE pzx
              && within_six_sigma (emit (DivideByNormalNum (normal_num_ c)) c)
                   (loss_per_frame_of pzx fn)
              && (lt zero pzx && lt pzx (float_of_int 3000))).
    + injection Hdec as <- <-. cbn [normal_num_ set_normal_num add_loss add_objective emit
                                    stat_period_].
      destruct (Z.eqb_spec (normal_num_ c + 1) (stat_period_ c)) as [E|E]; simpl.
      * split; [reflexivity|].
        split; [exists [DivideByNormalNum (normal_num_ c)]; simpl; split;
                [reflexivity | intros n [<-|[]]; auto]|].
        split; [unfold bootstrap_phase; lia | auto].
      * split; [reflexivity|].
        split; [exists [DivideByNormalNum (normal_num_ c)]; simpl; split;
                [reflexivity | intros n [<-|[]]; auto]|].
        split; [unfold bootstrap_phase; lia | auto].
    + apply bind_Ok in Hdec as (name & _ & Hdec).
      apply bind_Ok in Hdec as (d2 & _ & Hdec). injection Hdec as <- <-. simpl.
      split; [reflexivity|].
      split.
      * eexists [_; DivideByNormalNum (normal_num_ c); DivideByNormalNum (normal_num_ c)].
        simpl. split; [reflexivity|]. intros n [<-|[<-|[]]]; auto.
      * split; [unfold bootstrap_phase; lia | auto].
Qed.

(** C8. With [stat_period_ >= 2], every quotient by [normal_num_] that a
    call of [StatAndAverageLossCheck] evaluates has
    [normal_num_ >= stat_period_ / 2 > 0]; the divisors of one utterance are
    those of a check-phase state; a bootstrap step only ever increments
    [normal_num_]; and a check-phase step leaves it unchanged, increments it
    or, when the increment reaches [stat_period_], sets it back to exactly
    [stat_period_ / 2]. *)
Theorem C8_normal_num_positive :
  forall (utt : list string) (frame_num_utt : list Z) (pzx_host : list BaseFloat)
         (c c' : CtcState) (diff diff' : Matrix),
    2 <= stat_period_ c ->
    (StatAndAverageLossCheck utt frame_num_utt pzx_host (c, diff) = Ok (c', diff') ->
       exists new, trace_ c' = new ++ trace_ c
                   /\ forall n, In n (divisors new) -> stat_period_ c ÷ 2 <= n /\ 0 < n)
    /\ (forall s, avg_utt utt frame_num_utt pzx_host s (c, diff) = Ok (c', diff') ->
          (exists new, trace_ c' = new ++ trace_ c
             /\ forall n, In n (divisors new) ->
                  n = normal_num_ c /\ stat_period_ c ÷ 2 <= n /\ 0 < n)
          /\ (bootstrap_phase c ->
                normal_num_ c' = normal_num_ c \/ normal_num_ c' = normal_num_ c + 1)
          /\ (check_phase c ->
                normal_num_ c' = normal_num_ c \/ normal_num_ c' = normal_num_ c + 1
                \/ (normal_num_ c + 1 = stat_period_ c
                    /\ normal_num_ c' = stat_period_ c ÷ 2))).
Proof.
  intros utt fnu pzx_host c c' diff diff' Hperiod.
  assert (Hhalf : 0 < stat_period_ c ÷ 2).
  { pose proof (Z.quot_le_lower_bound (stat_period_ c) 2 1). lia. }
  split.
  - intros Hrun. unfold StatAndAverageLossCheck in Hrun.
    apply bind_Ok in Hrun as ([c1 d1] & Hloop & Hrun). injection Hrun as <- <-.
    set (P := fun (_ : Z) (st : CtcState * Matrix) =>
      stat_period_ (fst st) = stat_period_ c
      /\ exists new, trace_ (fst st) = new ++ trace_ c
           /\ forall n, In n (divisors new) -> stat_period_ c ÷ 2 <= n /\ 0 < n).
    assert (HP : P (0 + Z.of_nat (length fnu)) (c1, d1)).
    { apply (for_loop_invariant P (avg_utt utt fnu pzx_host) (length fnu) 0 (c, diff)).
      - split; [reflexivity|]. exists []. simpl. tauto.
      - intros j [c2 d2] [c3 d3] _ (Hsp & new & Htr & Hdiv) Hstep.
        apply avg_utt_step in Hstep as (Hsp' & (new' & Htr' & Hdiv') & _).
        split; [simpl in *; congruence|].
        exists (new' ++ new). simpl in *. split; [rewrite Htr', Htr; apply app_assoc|].
        intros n Hn. rewrite divisors_app in Hn. apply in_app_or in Hn as [Hn|Hn].
        + destruct (Hdiv' n Hn) as [Hc ->]. unfold check_phase in Hc.
          rewrite Hsp in Hc. split; [exact Hc | lia].
        + auto.
      - exact Hloop. }
    destruct HP as (_ & new & Htr & Hdiv). unfold finite_guard. cbn [fst snd].
    destruct (negb (KALDI_ISFINITE (to_double (Sum d1)))); cbn [fst snd].
    + exists (WarnDiffNotFinite :: new). simpl in *. split; [now rewrite Htr|exact Hdiv].
    + exists new. simpl in *. auto.
  - intros s Hstep. apply avg_utt_step in Hstep as (_ & (new & Htr & Hdiv) & Hb & Hc).
    split; [|split; assumption].
    exists new. split; [exact Htr|]. intros n Hn.
    destruct (Hdiv n Hn) as [Hcp ->]. unfold check_phase in Hcp.
    repeat split; [exact Hcp | lia].
Qed.

(** A window of two samples: the first utterance fills the bootstrap half,
    the other two go through the check phase. *)
Lemma C8_normal_num_positive_witness :
  exists c' diff',
    StatAndAverageLossCheck ["u0"%string; "u1"%string; "u2"%string] [1; 1; 1]
      [float_of_int 20; float_of_int 21; float_of_int 9000]
      (fresh_state 2 100, mkMatrix 1 (repeat [float_of_int 1] 3)) = Ok (c', diff')
    /\ exists new, trace_ c' = new ++ trace_ (fresh_state 2 100)
         /\ forall n, In n (divisors new) -> stat_period_ (fresh_state 2 100) ÷ 2 <= n /\ 0 < n.
Proof.
  eexists. eexists. split; [vm_compute; reflexivity|].
  refine (proj1 (C8_normal_num_positive ["u0"%string; "u1"%string; "u2"%string] [1; 1; 1]
                   [float_of_int 20; float_of_int 21; float_of_int 9000]
                   (fresh_state 2 100) _ (mkMatrix 1 (repeat [float_of_int 1] 3)) _ _) _).
  - simpl. lia.
  - vm_compute. reflexivity.
Defined.

(** ** The finiteness guard *)

Lemma SetZero_all_zero (m : Matrix) : all_zero (SetZero m).
Proof.
  intros x (row & Hrow & Hx). unfold SetZero, Set_, map_entries in Hrow. simpl in Hrow.
  apply in_map_iff in Hrow as (row0 & <- & _).
  apply in_map_iff in Hx as (x0 & <- & _). reflexivity.
Qed.

(** C4, as the code has it. Only the windowed average-loss policy ends
    with the guard: after its loop over the utterances, a gradient buffer
    whose sum is not finite is set to zero, a warning is emitted and the call
    returns normally; a finite sum leaves the buffer as the loop left it. The
    sum-threshold policy returns the buffer as its loop left it, and the
    stat-only policy returns the buffer it was given, with no warning. *)
Theorem C4_guard_in_windowed_policy_only :
  forall (utt : list string) (frame_num_utt : list Z) (pzx_host : list BaseFloat)
         (st st1 : CtcState * Matrix),
    (for_loop (length frame_num_utt) 0 (avg_utt utt frame_num_utt pzx_host) st = Ok st1 ->
       (KALDI_ISFINITE (to_double (Sum (snd st1))) = false ->
          StatAndAverageLossCheck utt frame_num_utt pzx_host st
            = Ok (add_sequences (Z.of_nat (length frame_num_utt))
                    (emit WarnDiffNotFinite (fst st1)), SetZero (snd st1))
          /\ all_zero (SetZero (snd st1)))
       /\ (KALDI_ISFINITE (to_double (Sum (snd st1))) = true ->
             StatAndAverageLossCheck utt frame_num_utt pzx_host st
               = Ok (add_sequences (Z.of_nat (length frame_num_utt)) (fst st1), snd st1)))
    /\ (for_loop (length frame_num_utt) 0 (sum_utt utt frame_num_utt pzx_host) st = Ok st1 ->
          StatAndLossCheck utt frame_num_utt pzx_host st
            = Ok (add_sequences (Z.of_nat (length frame_num_utt)) (fst st1), snd st1))
    /\ (forall c' diff',
          StatOnly utt frame_num_utt pzx_host st = Ok (c', diff') ->
          diff' = snd st /\ trace_ c' = trace_ (fst st)).
Proof.
  intros utt fnu pzx_host st st1. split; [|split].
  - intros Hloop. unfold StatAndAverageLossCheck, finite_guard. rewrite Hloop. cbn [bind].
    split; intros Hfin; rewrite Hfin; cbn [negb fst snd].
    + split; [reflexivity | apply SetZero_all_zero].
    + destruct st1; reflexivity.
  - intros Hloop. unfold StatAndLossCheck. rewrite Hloop. reflexivity.
  - intros c' diff' Hrun. unfold StatOnly in Hrun.
    apply bind_Ok in Hrun as ([c1 d1] & Hloop & Hrun). injection Hrun as <- <-.
    set (P := fun (_ : Z) (s : CtcState * Matrix) =>
                snd s = snd st /\ trace_ (fst s) = trace_ (fst st)).
    apply (for_loop_invariant P) in Hloop; [exact Hloop | split; reflexivity |].
    intros j s s' _ [Hd Ht] Hbody. unfold only_utt in Hbody.
    apply bind_Ok in Hbody as (pzx & _ & Hbody).
    apply bind_Ok in Hbody as (fn & _ & Hbody). injection Hbody as <-.
    split; simpl; assumption.
Qed.

Lemma C4_guard_in_windowed_policy_only_witness :
  StatAndAverageLossCheck ["u0"%string] [1] [float_of_int 20]
    (fresh_state 100 100, mkMatrix 2 [[pos_inf; float_of_int 1]])
  = Ok (add_sequences 1
          (emit WarnDiffNotFinite
             (fst (add_frames 1
                     (add_objective (to_double (float_of_int 20))
                        (add_loss_bak (loss_per_frame_of (float_of_int 20) 1)
                           (add_loss (loss_per_frame_of (float_of_int 20) 1)
                              (set_normal_num 1 (fresh_state 100 100))))),
                   mkMatrix 2 [[pos_inf; float_of_int 1]]))),
        SetZero (mkMatrix 2 [[pos_inf; float_of_int 1]])).
Proof.
  refine (proj1 (proj1 (proj1 (C4_guard_in_windowed_policy_only ["u0"%string] [1]
                                 [float_of_int 20]
                                 (fresh_state 100 100, mkMatrix 2 [[pos_inf; float_of_int 1]])
                                 (_, _)) _) _)).
  - vm_compute. reflexivity.
  - vm_compute. reflexivity.
Defined.

(** Stat-only and sum-threshold: a buffer with an infinite entry, hence a
    sum that is not finite, comes back as it was, with no warning. *)
Lemma C4_counterexample :
  KALDI_ISFINITE (to_double (Sum (mkMatrix 2 [[pos_inf; float_of_int 1]]))) = false
  /\ (exists c', StatOnly ["u0"%string] [1] [float_of_int 20]
                   (fresh_state 100 100, mkMatrix 2 [[pos_inf; float_of_int 1]])
                 = Ok (c', mkMatrix 2 [[pos_inf; float_of_int 1]])
                 /\ trace_ c' = [])
  /\ (exists c', StatAndLossCheck ["u0"%string] [1] [float_of_int 20]
                   (fresh_state 100 100, mkMatrix 2 [[pos_inf; float_of_int 1]])
                 = Ok (c', mkMatrix 2 [[pos_inf; float_of_int 1]])
                 /\ trace_ c' = [])
  /\ ~ all_zero (mkMatrix 2 [[pos_inf; float_of_int 1]]).
Proof.
  split; [vm_compute; reflexivity|].
  split; [eexists; split; [vm_compute; reflexivity | reflexivity]|].
  split; [eexists; split; [vm_compute; reflexivity | reflexivity]|].
  intros Hz. specialize (Hz pos_inf). unfold pos_inf, zero in Hz.
  assert (S754_infinity false = S754_zero false) as E; [|discriminate E].
  apply Hz. exists [S754_infinity false; float_of_int 1]. simpl. auto.
Qed.

(** ** The bootstrap phase over a whole call *)

(** A loop of [a + b] rounds is a loop of [a] rounds followed by one of
    [b]. *)
Lemma for_loop_app {St} (body : Z -> St -> Result St) (a b : nat) :
  forall (i : Z) (s : St),
    for_loop (a + b) i body s
    = bind (for_loop a i body s) (for_loop b (i + Z.of_nat a) body).
Proof.
  induction a as [|a IH]; intros i s.
  - cbn [for_loop Nat.add bind]. f_equal. lia.
  - cbn [for_loop Nat.add]. destruct (body i s) as [s1|f]; cbn [bind]; [|reflexivity].
    rewrite IH. f_equal. f_equal. lia.
Qed.

(** The rows of two different sequences of a batch are different rows. *)
Lemma rows_of_sequences_disjoint (N s j fn fn' : Z) (r : nat) :
  0 <= s < N -> 0 <= j < N -> j <> s ->
  row_of_sequence N s fn r -> ~ row_of_sequence N j fn' r.
Proof.
  intros Hs Hj Hne (t & Ht & Hr) (t' & Ht' & Hr').
  assert (E : (t - t') * N = j - s) by lia.
  destruct (Z.lt_trichotomy t t') as [H|[H|H]]; nia.
Qed.

(** The step of one utterance leaves the rows of every other sequence as
    they are. *)
Lemma avg_utt_other_rows utt fnu pzx_host (j : Z) (st st' : CtcState * Matrix) :
  avg_utt utt fnu pzx_host j st = Ok st' ->
  forall (s fn : Z) (r : nat),
    0 <= s < Z.of_nat (length fnu) -> j <> s ->
    row_of_sequence (Z.of_nat (length fnu)) s fn r ->
    Rows (snd st') !! r = Rows (snd st) !! r.
Proof.
  intros Hrun s fn r Hs Hne Hr. unfold avg_utt in Hrun.
  apply bind_Ok in Hrun as (pzx & _ & Hrun).
  apply bind_Ok in Hrun as (fnj & Hfnj & Hrun).
  apply bind_Ok in Hrun as ([c1 d1] & Hdec & Hrun). injection Hrun as <-.
  cbn [snd]. apply at_index_Ok in Hfnj as [Hj0 Hfnj]. apply lookup_lt_Some in Hfnj.
  unfold avg_decide in Hdec.
  destruct (normal_num_ (fst st) <? stat_period_ (fst st) ÷ 2).
  - destruct (KALDI_ISFINITE pzx && lt zero pzx && lt pzx (float_of_int 3000));
      injection Hdec as _ <-; reflexivity.
  - destruct (KALDI_ISFINITE pzx && within_six_sigma _ _ && _).
    + injection Hdec as _ <-. reflexivity.
    + apply bind_Ok in Hdec as (name & _ & Hdec).
      apply bind_Ok in Hdec as (d2 & Hzero & Hdec). injection Hdec as _ <-.
      apply zero_utt_rows_Ok in Hzero as (_ & _ & _ & _ & Hout).
      apply Hout. eapply rows_of_sequences_disjoint; [exact Hs | lia | exact Hne | exact Hr].
Qed.

(** So does a run of steps that does not include the sequence. *)
Lemma avg_loop_other_rows utt fnu pzx_host (n : nat) (i : Z) (st st' : CtcState * Matrix) :
  for_loop n i (avg_utt utt fnu pzx_host) st = Ok st' ->
  forall (s fn : Z) (r : nat),
    0 <= s < Z.of_nat (length fnu) -> (s < i \/ i + Z.of_nat n <= s) ->
    row_of_sequence (Z.of_nat (length fnu)) s fn r ->
    Rows (snd st') !! r = Rows (snd st) !! r.
Proof.
  intros Hrun s fn r Hs Hout Hr.
  apply (for_loop_invariant
           (fun (_ : Z) (x : CtcState * Matrix) => Rows (snd x) !! r = Rows (snd st) !! r)
           (avg_utt utt fnu pzx_host) n i st st'); [reflexivity | | exact Hrun].
  intros j x x' Hj HP Hstep. rewrite <- HP.
  eapply avg_utt_other_rows; [exact Hstep | exact Hs | lia | exact Hr].
Qed.

(** The rows of sequence [s] hold in [diff'] what they hold in [diff]. *)
Definition sequence_rows_kept (N s frame_num : Z) (diff diff' : Matrix) : Prop :=
  forall r, row_of_sequence N s frame_num r -> Rows diff' !! r = Rows diff !! r.

(** C10, as the code has it. In the bootstrap phase the step of an utterance
    whose loss is not finite or lies outside (0, 3000) changes nothing but
    the frame counters: the objective, the loss statistics and the trace of
    warnings are as before and the step returns the gradient buffer
    untouched. Whenever the step of an utterance changes the gradient
    buffer, the policy is in its check phase. Over the whole call, the rows
    of such an utterance come back as they went in, unless the finiteness
    guard that ends the call has found a sum that is not finite: then the
    whole buffer, these rows included, comes back zeroed, with the warning
    of the guard. *)
Theorem C10_bootstrap_leaves_gradient :
  forall (utt : list string) (frame_num_utt : list Z) (pzx_host : list BaseFloat)
         (s : Z) (c : CtcState) (diff : Matrix) (pzx : BaseFloat) (fn : Z),
    at_index pzx_host s = Ok pzx ->
    at_index frame_num_utt s = Ok fn ->
    (bootstrap_phase c -> abnormal_loss pzx ->
       avg_utt utt frame_num_utt pzx_host s (c, diff) = Ok (add_frames fn c, diff))
    /\ (forall c' diff',
          avg_utt utt frame_num_utt pzx_host s (c, diff) = Ok (c', diff') ->
          diff' <> diff -> check_phase c)
    /\ (forall (c0 : CtcState) (diff0 : Matrix) (c' : CtcState) (diff' : Matrix),
          for_loop (Z.to_nat s) 0 (avg_utt utt frame_num_utt pzx_host) (c0, diff0)
            = Ok (c, diff) ->
          bootstrap_phase c -> abnormal_loss pzx ->
          StatAndAverageLossCheck utt frame_num_utt pzx_host (c0, diff0) = Ok (c', diff') ->
          sequence_rows_kept (Z.of_nat (length frame_num_utt)) s fn diff0 diff'
          \/ (all_zero diff' /\ In WarnDiffNotFinite (trace_ c'))).
Proof.
  intros utt fnu pzx_host s c diff pzx fn Hpzx Hfn.
  assert (Hstep : bootstrap_phase c -> abnormal_loss pzx ->
            avg_utt utt fnu pzx_host s (c, diff) = Ok (add_frames fn c, diff)).
  { intros Hb Hab. unfold avg_utt. rewrite Hpzx, Hfn. cbn [bind fst snd].
    rewrite avg_decide_bootstrap_skip by (auto using abnormal_not_sane).
    reflexivity. }
  split; [exact Hstep|]. split.
  - intros c' diff' Hrun Hne. unfold avg_utt in Hrun.
    rewrite Hpzx, Hfn in Hrun. cbn [bind fst snd] in Hrun.
    apply bind_Ok in Hrun as ([c1 d1] & Hdec & Hrun). injection Hrun as <- <-.
    unfold check_phase. unfold avg_decide in Hdec.
    destruct (Z.ltb_spec (normal_num_ c) (stat_period_ c ÷ 2)) as [Hlt|Hge]; [|exact Hge].
    exfalso. apply Hne.
    destruct (KALDI_ISFINITE pzx && lt zero pzx && lt pzx (float_of_int 3000));
      injection Hdec as _ <-; reflexivity.
  - intros c0 diff0 c' diff' Hpre Hb Hab Hrun.
    pose proof Hfn as Hs. apply at_index_Ok in Hs as [Hs0 Hs]. apply lookup_lt_Some in Hs.
    unfold StatAndAverageLossCheck in Hrun.
    apply bind_Ok in Hrun as (st1 & Hloop & Hrun). injection Hrun as <- <-.
    replace (length fnu) with (Z.to_nat s + S (length fnu - S (Z.to_nat s)))%nat
      in Hloop by lia.
    rewrite for_loop_app, Hpre in Hloop. cbn [bind for_loop] in Hloop.
    replace (0 + Z.of_nat (Z.to_nat s)) with s in Hloop by lia.
    rewrite (Hstep Hb Hab) in Hloop. cbn [bind] in Hloop.
    assert (Hkept : sequence_rows_kept (Z.of_nat (length fnu)) s fn diff0 (snd st1)).
    { intros r Hr.
      rewrite (avg_loop_other_rows _ _ _ _ _ _ _ Hloop s fn r) by (try lia; exact Hr).
      cbn [snd].
      apply (avg_loop_other_rows _ _ _ _ _ _ _ Hpre s fn r); [lia | lia | exact Hr]. }
    unfold finite_guard.
    destruct (negb (KALDI_ISFINITE (to_double (Sum (snd st1))))); cbn [fst snd].
    + right. split; [apply SetZero_all_zero|]. cbn. left. reflexivity.
    + left. exact Hkept.
Qed.

(** The state in which a call on a fresh registry reaches its second
    utterance, the first having a loss of 25 over one frame. *)
Definition after_one_sample : CtcState :=
  add_frames 1
    (add_objective (to_double (float_of_int 25))
       (add_loss_bak (loss_per_frame_of (float_of_int 25) 1)
          (add_loss (loss_per_frame_of (float_of_int 25) 1)
             (set_normal_num 1 (fresh_state 100 100))))).

Lemma C10_bootstrap_leaves_gradient_witness :
  exists c' diff',
    StatAndAverageLossCheck ["utt0"%string; "utt1"%string] [1; 1]
      [float_of_int 25; float_of_int 5000]
      (fresh_state 100 100, mkMatrix 1 [[float_of_int 2]; [float_of_int 3]])
    = Ok (c', diff')
    /\ (sequence_rows_kept 2 1 1 (mkMatrix 1 [[float_of_int 2]; [float_of_int 3]]) diff'
        \/ (all_zero diff' /\ In WarnDiffNotFinite (trace_ c')))
    /\ diff' = mkMatrix 1 [[float_of_int 2]; [float_of_int 3]].
Proof.
  eexists. eexists. split; [vm_compute; reflexivity|]. split; [|reflexivity].
  refine (proj2 (proj2 (C10_bootstrap_leaves_gradient ["utt0"%string; "utt1"%string] [1; 1]
                          [float_of_int 25; float_of_int 5000] 1 after_one_sample
                          (mkMatrix 1 [[float_of_int 2]; [float_of_int 3]])
                          (float_of_int 5000) 1 _ _))
            (fresh_state 100 100) (mkMatrix 1 [[float_of_int 2]; [float_of_int 3]]) _ _ _ _ _ _).
  - reflexivity.
  - reflexivity.
  - vm_compute. reflexivity.
  - unfold bootstrap_phase. vm_compute. reflexivity.
  - right. right. vm_compute. reflexivity.
  - vm_compute. reflexivity.
Defined.

(** Two utterances in the bootstrap phase, the first with a loss of 5000 and
    a gradient row of 2, the second with a gradient row that is infinite:
    no step touches the row of the first, and the guard that ends the call
    zeroes it with the rest of the buffer. *)
Lemma C10_counterexample :
  bootstrap_phase (fresh_state 100 100)
  /\ abnormal_loss (float_of_int 5000)
  /\ exists c',
       StatAndAverageLossCheck ["utt0"%string; "utt1"%string] [1; 1]
         [float_of_int 5000; float_of_int 25]
         (fresh_state 100 100, mkMatrix 1 [[float_of_int 2]; [S754_infinity false]])
       = Ok (c', mkMatrix 1 [[zero]; [zero]])
       /\ bootstrap_phase c'
       /\ row_of_sequence 2 0 1 0
       /\ Rows (mkMatrix 1 [[zero]; [zero]]) !! 0%nat
          <> Rows (mkMatrix 1 [[float_of_int 2]; [S754_infinity false]]) !! 0%nat.
Proof.
  split; [unfold bootstrap_phase; vm_compute; reflexivity|].
  split; [right; right; vm_compute; reflexivity|].
  eexists. split; [vm_compute; reflexivity|].
  split; [unfold bootstrap_phase; vm_compute; reflexivity|].
  split; [exists 0; simpl; lia|].
  vm_compute. discriminate.
Qed.

(** ** Order of floating-point values *)

Lemma SFcompare_swap (x y : spec_float) :
  SFcompare y x = option_map CompOpp (SFcompare x y).
Proof.
  destruct x as [sx|sx| |sx mx ex], y as [sy|sy| |sy my ey]; simpl;
    try reflexivity;
    try (destruct sx; reflexivity); try (destruct sy; reflexivity);
    try (destruct sx, sy; reflexivity).
  destruct sx, sy; simpl; try reflexivity.
  - rewrite (Z.compare_antisym ey ex).
    destruct (ey ?= ex); simpl; try reflexivity.
    rewrite (Pos.compare_cont_antisym mx my Eq). reflexivity.
  - rewrite (Z.compare_antisym ey ex).
    destruct (ey ?= ex); simpl; try reflexivity.
    rewrite (Pos.compare_cont_antisym mx my Eq). reflexivity.
Qed.

Lemma SFcompare_defined (x y : spec_float) :
  is_nan x = false -> is_nan y = false -> exists c, SFcompare x y = Some c.
Proof.
  destruct x, y; simpl; intros Hx Hy; try discriminate; eauto.
Qed.

(** For numbers, [!(x < y)] gives [y <= x]. *)
Lemma not_lt_le (x y : spec_float) :
  is_nan x = false -> is_nan y = false -> lt x y = false -> le y x = true.
Proof.
  intros Hx Hy Hlt. destruct (SFcompare_defined x y Hx Hy) as [c Hc].
  unfold lt, le, SFltb, SFleb in *. rewrite SFcompare_swap, Hc. rewrite Hc in Hlt.
  destruct c; simpl; [reflexivity | discriminate | reflexivity].
Qed.

(** ** The clipped gradient *)











(** The three policies abort only on an index out of range. *)
Lemma stats_policy_abort check utt frame_num_utt pzx_host st f :
  stats_policy check utt frame_num_utt pzx_host st = Abort f -> f = IndexOutOfRange.
Proof.
  assert (Hbind : forall A B (m : Result A) (k : A -> Result B) f0,
             (forall f1, m = Abort f1 -> f1 = IndexOutOfRange) ->
             (forall a f1, k a = Abort f1 -> f1 = IndexOutOfRange) ->
             bind m k = Abort f0 -> f0 = IndexOutOfRange).
  { intros A B m k f0 Hm Hk. destruct m as [a|f1]; simpl; [apply Hk|].
    intros [= <-]. now apply Hm. }
  destruct check; simpl; intros Hrun.
  - unfold StatAndLossCheck in Hrun. revert Hrun. apply Hbind; [|discriminate].
    intros f1. apply (for_loop_abort (fun f => f = IndexOutOfRange)).
    intros j s f2. unfold sum_utt.
    apply Hbind; [apply at_index_abort|]. intros pzx f3.
    apply Hbind; [apply at_index_abort|]. intros fn f4.
    apply Hbind; [|intros [c d]; discriminate]. intros f5.
    destruct (lt (float_of_int 3000) pzx || lt pzx zero); [|discriminate].
    apply Hbind; [apply at_index_abort|]. intros name f6.
    apply Hbind; [apply zero_utt_rows_abort|]. discriminate.
  - unfold StatAndAverageLossCheck in Hrun. revert Hrun. apply Hbind; [|discriminate].
    intros f1. apply (for_loop_abort (fun f => f = IndexOutOfRange)).
    intros j s f2. unfold avg_utt.
    apply Hbind; [apply at_index_abort|]. intros pzx f3.
    apply Hbind; [apply at_index_abort|]. intros fn f4.
    apply Hbind; [|intros [c d]; discriminate]. intros f5. unfold avg_decide.
    destruct (normal_num_ (fst s) <? stat_period_ (fst s) ÷ 2).
    + destruct (KALDI_ISFINITE pzx && lt zero pzx && lt pzx (float_of_int 3000));
        discriminate.
    + match goal with |- context [if ?b then _ else _] => destruct b end; [discriminate|].
      apply Hbind; [apply at_index_abort|]. intros name f6.
      apply Hbind; [apply zero_utt_rows_abort|]. discriminate.
  - unfold StatOnly in Hrun. revert Hrun. apply Hbind; [|discriminate].
    intros f1. apply (for_loop_abort (fun f => f = IndexOutOfRange)).
    intros j s f2. unfold only_utt.
    apply Hbind; [apply at_index_abort|]. intros pzx f3.
    apply Hbind; [apply at_index_abort|]. discriminate.
Qed.

Lemma entry_abort (m : Matrix) (r c : Z) f : entry m r c = Abort f -> f = IndexOutOfRange.
Proof.
  unfold entry. destruct (at_index (Rows m) r) as [row|f1] eqn:E; simpl.
  - apply at_index_abort.
  - intros [= <-]. eapply at_index_abort, E.
Qed.


(** ** Label expansion and input validation *)

Import ForwardBackward.

Lemma for_loop_abort_in_range {St} (Q : Failure -> Prop) (body : Z -> St -> Result St) :
  forall (n : nat) (i : Z) (s : St) f,
    (forall j s f, i <= j < i + Z.of_nat n -> body j s = Abort f -> Q f) ->
    for_loop n i body s = Abort f -> Q f.
Proof.
  induction n as [|n IH]; intros i s f Hbody Hrun; simpl in Hrun.
  - discriminate.
  - destruct (body i s) as [s1|f1] eqn:E; simpl in Hrun.
    + apply (IH (i + 1) s1 f); [|exact Hrun].
      intros j s2 f2 Hj. apply Hbody. lia.
    + injection Hrun as <-. apply (Hbody i s f1); [lia | exact E].
Qed.

Lemma repeat_lookup {A} (x : A) (n i : nat) : (i < n)%nat -> repeat x n !! i = Some x.
Proof.
  revert i. induction n as [|n IH]; intros i Hi; [lia|].
  destruct i as [|i]; simpl; [reflexivity | apply IH; lia].
Qed.

Lemma expand_length (l : list Z) : length (expand l) = (2 * length l + 1)%nat.
Proof. induction l as [|y l IH]; simpl; [reflexivity | rewrite IH; lia]. Qed.

Lemma expand_lookup_odd (l : list Z) (k : nat) : expand l !! (2 * k + 1)%nat = l !! k.
Proof.
  revert k. induction l as [|y l IH]; intros k.
  - destruct k; reflexivity.
  - destruct k as [|k]; [reflexivity|].
    replace (2 * S k + 1)%nat with (S (S (2 * k + 1))) by lia. simpl. apply IH.
Qed.

Lemma expand_lookup_even (l : list Z) (k : nat) :
  (k <= length l)%nat -> expand l !! (2 * k)%nat = Some 0.
Proof.
  revert k. induction l as [|y l IH]; intros k Hk.
  - simpl in Hk. replace k with 0%nat by lia. reflexivity.
  - destruct k as [|k]; [reflexivity|].
    replace (2 * S k)%nat with (S (S (2 * k))) by lia. simpl. apply IH. simpl in Hk. lia.
Qed.

(** Every entry of [e] below [bound] is the entry of the expansion. *)
Definition agrees_below (bound : Z) (label e : list Z) : Prop :=
  forall i : nat, Z.of_nat i < bound -> e !! i = expand label !! i.

Lemma agrees_everywhere (label e : list Z) :
  length e = (2 * length label + 1)%nat ->
  agrees_below (2 * Z.of_nat (length label) + 1) label e ->
  e = expand label.
Proof.
  intros Hlen Hagree. apply list_eq. intros i.
  destruct (Z.lt_ge_cases (Z.of_nat i) (2 * Z.of_nat (length label) + 1)) as [Hlt|Hge].
  - apply Hagree, Hlt.
  - rewrite !lookup_ge_None_2; [reflexivity | rewrite expand_length; lia | lia].
Qed.

(** [Eval]'s expansion succeeds exactly on labels below the number of
    classes, with the blank-interleaved sequence; otherwise it stops on the
    assertion. *)
Lemma expand_label_Ok (C : Z) (label e : list Z) :
  expand_label C label = Ok e ->
  (forall x, In x label -> x < C) /\ e = expand label.
Proof.
  unfold expand_label. intros Hrun.
  set (P := fun (j : Z) (e : list Z) =>
    (forall (k : nat) x, Z.of_nat k < j -> label !! k = Some x -> x < C)
    /\ length e = (2 * length label + 1)%nat
    /\ agrees_below (2 * j + 1) label e
    /\ (forall i : nat, 2 * j + 1 <= Z.of_nat i -> (i < 2 * length label + 1)%nat ->
          e !! i = Some 0)).
  apply (for_loop_invariant P) in Hrun.
  - destruct Hrun as (Hgood & Hlen & Hagree & _). split.
    + intros x Hx. apply list_elem_of_In, list_elem_of_lookup in Hx as [k Hk].
      apply (Hgood k x); [|exact Hk]. apply lookup_lt_Some in Hk. lia.
    + apply agrees_everywhere; [exact Hlen|]. exact Hagree.
  - unfold P. split; [intros; lia|]. split; [rewrite repeat_length; lia|]. split.
    + intros i Hi. replace i with 0%nat by lia.
      pose proof (expand_lookup_even label 0 ltac:(lia)) as E0.
      change (2 * 0)%nat with 0%nat in E0. rewrite E0.
      replace (Z.to_nat (2 * Z.of_nat (length label) + 1)) with (S (2 * length label)) by lia.
      reflexivity.
    + intros i _ Hi. apply repeat_lookup. lia.
  - intros j e0 e1 Hj (Hgood & Hlen & Hagree & Hrest) Hbody.
    apply bind_Ok in Hbody as (x & Hx & Hbody). apply at_index_Ok in Hx as [_ Hx].
    destruct (Z.ltb_spec x C) as [HxC|]; [|discriminate]. injection Hbody as <-.
    unfold P. split; [|split; [|split]].
    + intros k y Hk Hy. destruct (decide (k = Z.to_nat j)) as [->|Hne].
      * rewrite Hx in Hy. injection Hy as <-. exact HxC.
      * apply (Hgood k y); [lia | exact Hy].
    + now rewrite length_insert.
    + intros i Hi. destruct (decide (i = Z.to_nat (2 * j + 1))) as [->|Hne].
      * rewrite list_lookup_insert_eq by lia.
        replace (Z.to_nat (2 * j + 1)) with (2 * Z.to_nat j + 1)%nat by lia.
        now rewrite expand_lookup_odd.
      * rewrite list_lookup_insert_ne by congruence.
        destruct (Z.lt_ge_cases (Z.of_nat i) (2 * j + 1)) as [Hlt|Hge];
          [apply Hagree, Hlt|].
        assert (i = (2 * (Z.to_nat j + 1))%nat) as -> by lia.
        rewrite expand_lookup_even by lia. apply Hrest; lia.
    + intros i Hi Hi'. rewrite list_lookup_insert_ne by lia. apply Hrest; lia.
Qed.

Lemma expand_label_Abort (C : Z) (label : list Z) f :
  expand_label C label = Abort f ->
  f = AssertLabelRange /\ exists x, In x label /\ C <= x.
Proof.
  unfold expand_label.
  apply (for_loop_abort_in_range
           (fun f => f = AssertLabelRange /\ exists x, In x label /\ C <= x)).
  intros j e f0 Hj Hbody.
  destruct (at_index_in_range label j) as [x Hx]; [lia|].
  rewrite Hx in Hbody. cbn [bind] in Hbody.
  destruct (Z.ltb_spec x C) as [|HxC]; [discriminate|]. injection Hbody as <-.
  split; [reflexivity|]. exists x. split; [|exact HxC].
  apply at_index_Ok in Hx as [_ Hx]. apply list_elem_of_In, list_elem_of_lookup. eauto.
Qed.

Lemma expand_sequence_inner_Ok C el s label_s e0 e :
  expand_sequence_inner C el s label_s e0 = Ok e ->
  (forall x, In x label_s -> x < C) /\ length e = length e0.
Proof.
  unfold expand_sequence_inner. intros Hrun.
  set (P := fun (j : Z) (e : list Z) =>
    (forall (k : nat) x, Z.of_nat k < j -> label_s !! k = Some x -> x < C)
    /\ length e = length e0).
  apply (for_loop_invariant P) in Hrun.
  - destruct Hrun as [Hgood Hlen]. split; [|exact Hlen].
    intros x Hx. apply list_elem_of_In, list_elem_of_lookup in Hx as [k Hk].
    apply (Hgood k x); [|exact Hk]. apply lookup_lt_Some in Hk. lia.
  - split; [intros; lia | reflexivity].
  - intros j e1 e2 Hj [Hgood Hlen] Hbody.
    apply bind_Ok in Hbody as (x & Hx & Hbody). apply at_index_Ok in Hx as [_ Hx].
    destruct (Z.leb_spec C x) as [|HxC]; [discriminate|]. injection Hbody as <-.
    split; [|now rewrite !length_insert].
    intros k y Hk Hy. destruct (decide (k = Z.to_nat j)) as [->|Hne].
    + rewrite Hx in Hy. injection Hy as <-. exact HxC.
    + apply (Hgood k y); [lia | exact Hy].
Qed.

Lemma expand_sequence_inner_Abort C el s label_s e0 f :
  expand_sequence_inner C el s label_s e0 = Abort f ->
  f = ErrLabelGtOutdim /\ exists x, In x label_s /\ C <= x.
Proof.
  unfold expand_sequence_inner.
  apply (for_loop_abort_in_range
           (fun f => f = ErrLabelGtOutdim /\ exists x, In x label_s /\ C <= x)).
  intros j e f0 Hj Hbody.
  destruct (at_index_in_range label_s j) as [x Hx]; [lia|].
  rewrite Hx in Hbody. cbn [bind] in Hbody.
  destruct (Z.leb_spec C x) as [HxC|]; [|discriminate]. injection Hbody as <-.
  split; [reflexivity|]. exists x. split; [|exact HxC].
  apply at_index_Ok in Hx as [_ Hx]. apply list_elem_of_In, list_elem_of_lookup. eauto.
Qed.

(** Some label of the batch is not below the number of classes. *)
Definition some_label_out_of_range (C : Z) (labels : list (list Z)) : Prop :=
  exists l x, In l labels /\ In x l /\ C <= x.

Lemma max_label_len_of_total (labels : list (list Z)) :
  exists m, max_label_len_of (length labels) labels = Ok m.
Proof.
  unfold max_label_len_of.
  destruct (for_loop_total (fun _ _ => True)
              (fun s max_label_len =>
                 let! label_s := at_index labels s in
                 Ok (if max_label_len <? Z.of_nat (length label_s)
                     then Z.of_nat (length label_s) else max_label_len))
              (length labels) 0 0 I) as (m & Hm & _); [|eauto].
  intros j m Hj _. destruct (at_index_in_range labels j) as [l Hl]; [lia|].
  rewrite Hl. cbn [bind]. eauto.
Qed.

Lemma expand_sequences_Ok C el (labels : list (list Z)) st0 st :
  for_loop (length labels) 0 (expand_sequence C el labels) st0 = Ok st ->
  ~ some_label_out_of_range C labels.
Proof.
  intros Hrun.
  set (P := fun (j : Z) (_ : list Z * list Z) =>
    forall (k : nat) l x, Z.of_nat k < j -> labels !! k = Some l -> In x l -> x < C).
  apply (for_loop_invariant P) in Hrun.
  - intros (l & x & Hl & Hx & HxC).
    apply list_elem_of_In, list_elem_of_lookup in Hl as [k Hk].
    assert (x < C); [|lia].
    apply (Hrun k l x); [|exact Hk|exact Hx]. apply lookup_lt_Some in Hk. lia.
  - intros k l x Hk. lia.
  - intros j st1 st2 Hj HP Hbody. unfold expand_sequence in Hbody.
    apply bind_Ok in Hbody as (label_s & Hs & Hbody). apply at_index_Ok in Hs as [_ Hs].
    apply bind_Ok in Hbody as (e & Hinner & _).
    apply expand_sequence_inner_Ok in Hinner as [Hgood _].
    intros k l x Hk Hl Hx. destruct (decide (k = Z.to_nat j)) as [->|Hne].
    + rewrite Hs in Hl. injection Hl as <-. auto.
    + apply (HP k l x); [lia | exact Hl | exact Hx].
Qed.

Lemma expand_sequences_Abort C el (labels : list (list Z)) st0 f :
  for_loop (length labels) 0 (expand_sequence C el labels) st0 = Abort f ->
  f = ErrLabelGtOutdim /\ some_label_out_of_range C labels.
Proof.
  apply (for_loop_abort_in_range
           (fun f => f = ErrLabelGtOutdim /\ some_label_out_of_range C labels)).
  intros j st f0 Hj Hbody. unfold expand_sequence in Hbody.
  destruct (at_index_in_range labels j) as [l Hl]; [lia|].
  rewrite Hl in Hbody. cbn [bind] in Hbody.
  destruct (expand_sequence_inner C el j l (snd st)) as [e|f1] eqn:Hinner;
    cbn [bind] in Hbody; [discriminate|]. injection Hbody as <-.
  apply expand_sequence_inner_Abort in Hinner as [-> (x & Hx & HxC)].
  split; [reflexivity|]. exists l, x. split; [|auto].
  apply at_index_Ok in Hl as [_ Hl]. apply list_elem_of_In, list_elem_of_lookup. eauto.
Qed.

(** [EvalParallel]'s expansion stops exactly when some label is out of
    range, on [KALDI_ERR]. *)
Lemma expand_labels_parallel_result C (labels : list (list Z)) :
  (some_label_out_of_range C labels
   /\ expand_labels_parallel C (length labels) labels = Abort ErrLabelGtOutdim)
  \/ (~ some_label_out_of_range C labels
      /\ exists r, expand_labels_parallel C (length labels) labels = Ok r).
Proof.
  unfold expand_labels_parallel.
  destruct (max_label_len_of_total labels) as [m ->]. cbn [bind].
  destruct (for_loop (length labels) 0 _ _) as [[ll e]|f] eqn:Hloop; cbn [bind].
  - right. split; [eapply expand_sequences_Ok, Hloop | eauto].
  - left. apply expand_sequences_Abort in Hloop as [-> Hbad]. auto.
Qed.

(** A call stopped on input validation: the label assertion of [Eval], or
    the padding assertion or the label error of [EvalParallel]. *)
Definition validation_abort {A} (r : Result A) : Prop :=
  r = Abort AssertLabelRange \/ r = Abort AssertPadding \/ r = Abort ErrLabelGtOutdim.

(** Some reference label is not below the number of classes. *)
Definition label_out_of_range (C : Z) (label : list Z) : Prop :=
  exists x, In x label /\ C <= x.

Lemma index_abort_is_not_validation {A} (r : Result A) :
  (forall f, r = Abort f -> f = IndexOutOfRange) -> ~ validation_abort r.
Proof.
  intros Hr [H|[H|H]]; apply Hr in H; discriminate.
Qed.

(** One step through a [bind]: the first computation either succeeded, or
    stopped on an index out of range. *)
Create HintDb aborts.
#[local] Hint Resolve at_index_abort entry_abort zero_utt_rows_abort stats_policy_abort : aborts.

Ltac peel_bind :=
  match goal with
  | |- context [bind ?m _] =>
      let E := fresh "E" in
      destruct m eqn:E; cbn [bind]; cbv zeta;
      [ | let H := fresh in intros H; injection H as <-; eauto with aborts ]
  end.

(** ** The whole calls *)

Section WholeCalls.

(** The kernels and helpers of the matrix library, as in [CtcLoss.Kernels],
    and the policy selected at build time. *)
Variable ApplyLog : Matrix -> Matrix.
Variable ExpA : BaseFloat -> BaseFloat.
Variable log_ : BaseFloat -> BaseFloat.
Variable LogAPlusB : double -> double -> double.
Variable log_zero_ : BaseFloat.
Variable ComputeCtcAlpha : Matrix -> Matrix -> Z -> list Z -> bool -> Matrix.
Variable ComputeCtcBeta : Matrix -> Matrix -> Z -> list Z -> bool -> Matrix.
Variable ComputeCtcError :
  Matrix -> Matrix -> Matrix -> Matrix -> list Z -> BaseFloat -> Matrix.
Variable ComputeCtcAlphaMSeq : Matrix -> Matrix -> Z -> list Z -> list Z -> Matrix.
Variable ComputeCtcBetaMSeq : Matrix -> Matrix -> Z -> list Z -> list Z -> list Z -> Matrix.
Variable ComputeCtcErrorMSeq :
  Matrix -> Matrix -> Matrix -> Matrix -> list Z -> list Z -> list BaseFloat -> Matrix.
Variable CTC_GRAD_CHECK : GradCheck.

Local Abbreviation Eval_ :=
  (Eval ApplyLog ExpA log_ ComputeCtcAlpha ComputeCtcBeta ComputeCtcError).
Local Abbreviation EvalParallel_ :=
  (EvalParallel ApplyLog LogAPlusB log_zero_ ComputeCtcAlphaMSeq ComputeCtcBetaMSeq
     ComputeCtcErrorMSeq CTC_GRAD_CHECK).


(** C7. [Eval] stops on its label assertion exactly when some reference
    label is not below the number of classes. For a batch with at least one
    sequence and one label sequence per sequence, [EvalParallel] stops on
    input validation (the padding assertion or the label error) exactly when
    some label is not below the number of classes or the number of frames is
    not a multiple of the number of sequences. *)
Theorem C7_input_validation :
  forall (c : CtcState) (net_out : Matrix) (label : list Z) (utt : list string)
         (frame_num_utt : list Z) (labels : list (list Z)),
    (validation_abort (Eval_ c net_out label)
     <-> label_out_of_range (NumCols net_out) label)
    /\ (frame_num_utt <> [] -> length labels = length frame_num_utt ->
          (validation_abort (EvalParallel_ c utt frame_num_utt net_out labels)
           <-> some_label_out_of_range (NumCols net_out) labels
               \/ Z.rem (NumRows net_out) (Z.of_nat (length frame_num_utt)) <> 0)).
Proof.
  intros c net_out label utt fnu labels. split.
  - unfold Eval. destruct (expand_label (NumCols net_out) label) as [e|f] eqn:E.
    + apply expand_label_Ok in E as [Hgood _]. cbn [bind]. split.
      * intros Hv. exfalso. revert Hv. apply index_abort_is_not_validation.
        intros f. do 2 peel_bind. discriminate.
      * intros (x & Hx & HxC). specialize (Hgood x Hx). lia.
    + apply expand_label_Abort in E as [-> Hbad]. cbn [bind]. split; [auto|].
      intros _. left. reflexivity.
  - intros Hne Hlen. unfold EvalParallel.
    destruct (Z.eqb_spec (Z.of_nat (length fnu)) 0) as [E0|_];
      [destruct fnu; [contradiction | simpl in E0; lia]|].
    destruct (Z.eqb_spec (Z.rem (NumRows net_out) (Z.of_nat (length fnu))) 0)
      as [Hrem|Hrem]; cbn [bind].
    + rewrite <- Hlen.
      destruct (expand_labels_parallel_result (NumCols net_out) labels)
        as [[Hbad ->]|[Hgood [[[el ll] e] ->]]]; cbn [bind].
      * split; [auto|]. intros _. right. right. reflexivity.
      * split; [|intros [Hbad|Hbad]; [contradiction | rewrite Hlen in Hbad; contradiction]].
        intros Hv. exfalso. revert Hv. apply index_abort_is_not_validation.
        intros f. destruct (for_loop _ _ _ _) as [pzx|f1] eqn:Epzx; cbn [bind].
        -- unfold EvalParallel_tail.
           destruct (stats_policy _ _ _ _ _) as [[c1 d1]|f2] eqn:Epol; cbn [bind];
             [discriminate | intros [= <-]; eapply stats_policy_abort, Epol].
        -- intros [= <-]. revert Epzx.
           apply (for_loop_abort (fun f => f = IndexOutOfRange)).
           intros j s f2. unfold read_pzx.
           do 4 peel_bind. discriminate.
    + split; [auto|]. intros _. right. left. reflexivity.
Qed.

End WholeCalls.


(** Stand-ins for the kernels, for running the calls on concrete inputs:
    each returns the buffer it is given. *)
Definition idle_row_kernel (m _ : Matrix) (_ : Z) (_ : list Z) (_ : bool) : Matrix := m.
Definition idle_error_kernel (m _ _ _ : Matrix) (_ : list Z) (_ : BaseFloat) : Matrix := m.





Lemma C7_input_validation_witness :
  validation_abort
    (EvalParallel (fun m => m) (fun x _ => x) zero
       (fun m _ _ _ _ => m) (fun m _ _ _ _ _ => m) (fun m _ _ _ _ _ _ => m) STAT_ONLY
       (fresh_state 100 100) ["u0"%string] [1] (mkMatrix 2 [[float_of_int 1; zero]]) [[5]]).
Proof.
  refine (proj2 (proj2 (C7_input_validation (fun m => m) (fun x => x) (fun x => x)
                          (fun x _ => x) zero
                          idle_row_kernel idle_row_kernel idle_error_kernel
                          (fun m _ _ _ _ => m) (fun m _ _ _ _ _ => m)
                          (fun m _ _ _ _ _ _ => m) STAT_ONLY
                          (fresh_state 100 100) (mkMatrix 2 [[float_of_int 1; zero]]) [1]
                          ["u0"%string] [1] [[5]]) _ _) _).
  - discriminate.
  - reflexivity.
  - left. exists [5], 5. simpl. repeat split; auto. lia.
Defined.

(** ** The greedy decoder *)

(** The decoder in the words of the specification: collapse consecutive
    duplicate classes to one occurrence, then drop every blank (class 0). *)
Fixpoint collapse_from (prev : Z) (l : list Z) : list Z :=
  match l with
  | [] => []
  | x :: l' => if x =? prev then collapse_from prev l' else x :: collapse_from x l'
  end.

Definition collapse_repeats (l : list Z) : list Z :=
  match l with
  | [] => []
  | x :: l' => x :: collapse_from x l'
  end.

Fixpoint drop_blanks (l : list Z) : list Z :=
  match l with
  | [] => []
  | x :: l' => if x =? 0 then drop_blanks l' else x :: drop_blanks l'
  end.

Definition greedy_decode (argmax : list Z) : list Z := drop_blanks (collapse_repeats argmax).

(** The arg-max classes of the frames of sequence [s] in a padded batch of
    [num_seq] sequences: the entries [f * num_seq + s] of [data]. *)
Definition frames_of_sequence (data : list Z) (num_seq s num_frame : Z) : list Z :=
  map (fun f => nth (Z.to_nat (Z.of_nat f * num_seq + s)) data 0) (seq 0 (Z.to_nat num_frame)).

Lemma default_last_cons (p y : Z) (l : list Z) :
  default p (last (y :: l)) = default y (last l).
Proof.
  revert p y. induction l as [|z l IH]; intros p y; [reflexivity|].
  rewrite last_cons_cons, (IH p z), (IH y z). reflexivity.
Qed.

Lemma collapse_from_snoc (p : Z) (l : list Z) (x : Z) :
  collapse_from p (l ++ [x])
  = collapse_from p l ++ (if x =? default p (last l) then [] else [x]).
Proof.
  revert p. induction l as [|y l IH]; intros p; simpl.
  - destruct (x =? p); reflexivity.
  - rewrite default_last_cons. destruct (Z.eqb_spec y p) as [->|Hne].
    + apply IH.
    + rewrite IH. reflexivity.
Qed.

Lemma collapse_repeats_snoc (l : list Z) (x y : Z) :
  last l = Some y ->
  collapse_repeats (l ++ [x]) = collapse_repeats l ++ (if x =? y then [] else [x]).
Proof.
  destruct l as [|z l]; [discriminate|]. intros Hlast. simpl.
  rewrite collapse_from_snoc. f_equal.
  assert (default z (last l) = y) as ->; [|reflexivity].
  destruct l; simpl in *; [congruence | now rewrite Hlast].
Qed.

Lemma drop_blanks_app (l1 l2 : list Z) : drop_blanks (l1 ++ l2) = drop_blanks l1 ++ drop_blanks l2.
Proof.
  induction l1 as [|x l1 IH]; simpl; [reflexivity|].
  destruct (x =? 0); [exact IH | now rewrite IH].
Qed.

(** The loop over [j] leaves the collapsed sequence in the first [i] slots. *)
Lemma remove_repetitions_spec (data : list Z) :
  data <> [] ->
  exists d i,
    remove_repetitions (Z.of_nat (length data)) data = Ok (d, i)
    /\ 1 <= i <= Z.of_nat (length data)
    /\ length d = length data
    /\ take (Z.to_nat i) d = collapse_repeats data.
Proof.
  intros Hne. unfold remove_repetitions.
  assert (Hlen : (1 <= length data)%nat) by (destruct data; [contradiction | simpl; lia]).
  set (P := fun (j : Z) (st : list Z * Z) =>
    length (fst st) = length data
    /\ 1 <= snd st <= j
    /\ take (Z.to_nat (snd st)) (fst st) = collapse_repeats (take (Z.to_nat j) data)
    /\ forall k : nat, j - 1 <= Z.of_nat k -> fst st !! k = data !! k).
  destruct (for_loop_total P
              (fun j st =>
                 let! dj := at_index (fst st) j in
                 let! dj1 := at_index (fst st) (j - 1) in
                 if negb (dj =? dj1)
                 then Ok (<[Z.to_nat (snd st) := dj]> (fst st), snd st + 1)
                 else Ok st)
              (Z.to_nat (Z.of_nat (length data) - 1)) 1 (data, 1))
    as ([d i] & Hrun & HP).
  - unfold P. simpl. split; [reflexivity|]. split; [lia|]. split; [|reflexivity].
    destruct data as [|x data]; [contradiction|]. reflexivity.
  - intros j [d i] Hj (Hl & Hi & Htake & Hsame). simpl in Hl, Hi, Htake, Hsame.
    cbn [fst snd].
    destruct (lookup_lt_is_Some_2 data (Z.to_nat j)) as [dj Hdj]; [lia|].
    destruct (lookup_lt_is_Some_2 data (Z.to_nat (j - 1))) as [dj1 Hdj1]; [lia|].
    assert (Edj : at_index d j = Ok dj).
    { apply at_index_Ok. split; [lia|]. rewrite Hsame by lia. exact Hdj. }
    assert (Edj1 : at_index d (j - 1) = Ok dj1).
    { apply at_index_Ok. split; [lia|]. rewrite Hsame by lia. exact Hdj1. }
    rewrite Edj, Edj1. cbn [bind].
    assert (Hlast : last (take (Z.to_nat j) data) = Some dj1).
    { rewrite last_lookup, length_take_le by lia.
      rewrite lookup_take_lt by lia.
      replace (pred (Z.to_nat j)) with (Z.to_nat (j - 1)) by lia. exact Hdj1. }
    assert (Hnext : collapse_repeats (take (Z.to_nat (j + 1)) data)
                    = collapse_repeats (take (Z.to_nat j) data)
                      ++ (if dj =? dj1 then [] else [dj])).
    { replace (Z.to_nat (j + 1)) with (S (Z.to_nat j)) by lia.
      rewrite (take_S_r data (Z.to_nat j) dj Hdj).
      apply collapse_repeats_snoc, Hlast. }
    destruct (Z.eqb_spec dj dj1) as [Heq|Hneq]; cbn [negb];
      eexists; (split; [reflexivity|]); unfold P; cbn [fst snd].
    + split; [exact Hl|]. split; [lia|]. split.
      * rewrite Hnext, app_nil_r. exact Htake.
      * intros k Hk. apply Hsame. lia.
    + split; [now rewrite length_insert|]. split; [lia|]. split.
      * rewrite Hnext, <- Htake.
        replace (Z.to_nat (i + 1)) with (S (Z.to_nat i)) by lia.
        rewrite (take_S_r _ (Z.to_nat i) dj) by (apply list_lookup_insert_eq; lia).
        rewrite take_insert_ge by lia. reflexivity.
      * intros k Hk. destruct (decide (Z.to_nat i = k)) as [<-|Hik].
        -- rewrite list_lookup_insert_eq by lia.
           assert (i = j) as -> by lia. now rewrite Hdj.
        -- rewrite list_lookup_insert_ne by exact Hik. apply Hsame. lia.
  - exists d, i. split; [exact Hrun|].
    destruct HP as (Hl & Hi & Htake & _). cbn [fst snd] in *.
    replace (1 + Z.of_nat (Z.to_nat (Z.of_nat (length data) - 1)))
      with (Z.of_nat (length data)) in * by lia.
    split; [exact Hi|]. split; [exact Hl|].
    rewrite Htake, Nat2Z.id, take_ge by lia. reflexivity.
Qed.

(** The loop over [n] keeps the non-blank ones of the first [i] slots. *)
Lemma remove_blanks_spec (d : list Z) (i : Z) :
  0 <= i <= Z.of_nat (length d) ->
  remove_blanks d i = Ok (drop_blanks (take (Z.to_nat i) d)).
Proof.
  intros Hi. unfold remove_blanks.
  set (P := fun (n : Z) (hyp : list Z) => hyp = drop_blanks (take (Z.to_nat n) d)).
  destruct (for_loop_total P
              (fun n hyp_seq =>
                 let! x := at_index d n in
                 Ok (if negb (x =? 0) then hyp_seq ++ [x] else hyp_seq))
              (Z.to_nat i) 0 []) as (hyp & Hrun & HP).
  - reflexivity.
  - intros n hyp Hn ->.
    destruct (lookup_lt_is_Some_2 d (Z.to_nat n)) as [x Hx]; [lia|].
    assert (Ex : at_index d n = Ok x) by (apply at_index_Ok; split; [lia | exact Hx]).
    rewrite Ex. cbn [bind]. eexists. split; [reflexivity|]. unfold P.
    replace (Z.to_nat (n + 1)) with (S (Z.to_nat n)) by lia.
    rewrite (take_S_r d (Z.to_nat n) x Hx), drop_blanks_app. simpl.
    destruct (x =? 0); simpl; [now rewrite app_nil_r | reflexivity].
  - rewrite Hrun. unfold P in HP. rewrite HP. do 3 f_equal. lia.
Qed.

Lemma ErrorRate_hyp_spec (data : list Z) :
  data <> [] -> ErrorRate_hyp data = Ok (greedy_decode data).
Proof.
  intros Hne. unfold ErrorRate_hyp.
  destruct (remove_repetitions_spec data Hne) as (d & i & -> & Hi & Hl & Htake).
  cbn [bind]. rewrite remove_blanks_spec by lia. now rewrite Htake.
Qed.

(** Every frame of sequence [s] has its arg-max inside [data]. *)
Definition frames_in_range (data : list Z) (num_seq s num_frame : Z) : Prop :=
  0 <= s /\ 0 <= num_seq
  /\ forall f, 0 <= f < num_frame -> f * num_seq + s < Z.of_nat (length data).

Lemma frames_of_sequence_lookup data N s fn (f : nat) :
  (f < Z.to_nat fn)%nat ->
  frames_of_sequence data N s fn !! f = Some (nth (Z.to_nat (Z.of_nat f * N + s)) data 0).
Proof.
  intros Hf. unfold frames_of_sequence.
  rewrite list_lookup_fmap, lookup_seq_lt by exact Hf. reflexivity.
Qed.

Lemma raw_hyp_seq_of_spec data N s fn :
  frames_in_range data N s fn ->
  raw_hyp_seq_of data N s fn = Ok (frames_of_sequence data N s fn).
Proof.
  intros (Hs & HN & Hrange). unfold raw_hyp_seq_of.
  set (P := fun (j : Z) (raw : list Z) =>
    length raw = Z.to_nat fn
    /\ forall f : nat, Z.of_nat f < j -> raw !! f = frames_of_sequence data N s fn !! f).
  destruct (for_loop_total P
              (fun f raw => let! d := at_index data (f * N + s) in
                            Ok (<[Z.to_nat f := d]> raw))
              (Z.to_nat fn) 0 (repeat 0 (Z.to_nat fn))) as (raw & Hrun & Hlen & Hraw).
  - split; [apply repeat_length | intros; lia].
  - intros j raw Hj [Hlen Hraw].
    assert (Hin : 0 <= j * N + s < Z.of_nat (length data)).
    { split; [nia | apply Hrange; lia]. }
    destruct (at_index_in_range data _ Hin) as [d Hd]. rewrite Hd. cbn [bind].
    eexists. split; [reflexivity|]. split; [now rewrite length_insert|].
    intros f Hf. destruct (decide (Z.to_nat j = f)) as [<-|Hne].
    + rewrite list_lookup_insert_eq by lia.
      rewrite frames_of_sequence_lookup by lia. f_equal.
      apply at_index_Ok in Hd as [_ Hd]. rewrite Z2Nat.id by lia.
      symmetry. apply nth_lookup_Some with (d := 0) in Hd. exact Hd.
    + rewrite list_lookup_insert_ne by exact Hne. apply Hraw. lia.
  - rewrite Hrun. f_equal. apply list_eq. intros f.
    destruct (Nat.lt_ge_cases f (Z.to_nat fn)) as [Hlt|Hge].
    + apply Hraw. lia.
    + rewrite !lookup_ge_None_2; [reflexivity | | lia].
      unfold frames_of_sequence. rewrite length_map, length_seq. exact Hge.
Qed.

Lemma ErrorRateMSeq_hyp_spec data N s fn :
  1 <= fn -> frames_in_range data N s fn ->
  ErrorRateMSeq_hyp data N s fn = Ok (greedy_decode (frames_of_sequence data N s fn)).
Proof.
  intros Hfn Hrange. unfold ErrorRateMSeq_hyp.
  rewrite raw_hyp_seq_of_spec by exact Hrange. cbn [bind].
  assert (Hlen : length (frames_of_sequence data N s fn) = Z.to_nat fn).
  { unfold frames_of_sequence. now rewrite length_map, length_seq. }
  assert (Hne : frames_of_sequence data N s fn <> []).
  { intros E. rewrite E in Hlen. simpl in Hlen. lia. }
  destruct (remove_repetitions_spec _ Hne) as (d & i & Hrun & Hi & Hl & Htake).
  rewrite Hlen, Z2Nat.id in Hrun by lia. rewrite Hrun. cbn [bind].
  rewrite remove_blanks_spec by lia. now rewrite Htake.
Qed.

(** C9. The hypothesis that [ErrorRate] scores is a function of the
    per-frame arg-max sequence alone: for a sequence of at least one frame it
    is the sequence with consecutive duplicates collapsed and the blanks
    (class 0) dropped; [ErrorRateMSeq] computes the same for every sequence
    of a padded batch, from the entries [f * num_seq + s] of the arg-max
    vector. In particular [a, a, 0, b, b, 0, 0, a] decodes to [a, b, a] for
    non-zero classes [a <> b]. *)
Theorem C9_greedy_decode :
  (forall data : list Z, data <> [] -> ErrorRate_hyp data = Ok (greedy_decode data))
  /\ (forall (frame_num_utt data : list Z),
        (forall (s : nat) fn, frame_num_utt !! s = Some fn ->
           1 <= fn
           /\ frames_in_range data (Z.of_nat (length frame_num_utt)) (Z.of_nat s) fn) ->
        ErrorRateMSeq_hyps frame_num_utt data
        = Ok (map (fun s => greedy_decode
                              (frames_of_sequence data (Z.of_nat (length frame_num_utt))
                                 (Z.of_nat s) (nth s frame_num_utt 0)))
                  (seq 0 (length frame_num_utt))))
  /\ (forall a b : Z, a <> b -> a <> 0 -> b <> 0 ->
        ErrorRate_hyp [a; a; 0; b; b; 0; 0; a] = Ok [a; b; a]).
Proof.
  split; [exact ErrorRate_hyp_spec|]. split.
  - intros fnu data Hwf. unfold ErrorRateMSeq_hyps.
    set (N := Z.of_nat (length fnu)).
    set (hyp_of := fun s : nat =>
      greedy_decode (frames_of_sequence data N (Z.of_nat s) (nth s fnu 0))).
    set (P := fun (j : Z) (hyps : list (list Z)) => hyps = map hyp_of (seq 0 (Z.to_nat j))).
    destruct (for_loop_total P
                (fun s hyps =>
                   let! num_frame := at_index fnu s in
                   let! hyp_seq := ErrorRateMSeq_hyp data N s num_frame in
                   Ok (hyps ++ [hyp_seq]))
                (length fnu) 0 []) as (hyps & Hrun & HP).
    + reflexivity.
    + intros j hyps Hj ->.
      destruct (at_index_in_range fnu j) as [fn Hfn]; [lia|].
      rewrite Hfn. cbn [bind]. apply at_index_Ok in Hfn as [_ Hfn].
      destruct (Hwf _ _ Hfn) as [Hpos Hrange]. rewrite Z2Nat.id in Hrange by lia.
      rewrite ErrorRateMSeq_hyp_spec by assumption. cbn [bind].
      eexists. split; [reflexivity|]. unfold P.
      replace (Z.to_nat (j + 1)) with (S (Z.to_nat j)) by lia.
      rewrite seq_S, map_app. simpl. do 2 f_equal. unfold hyp_of.
      rewrite Z2Nat.id by lia. do 2 f_equal.
      symmetry. apply nth_lookup_Some with (d := 0) in Hfn. exact Hfn.
    + rewrite Hrun. unfold P in HP. rewrite HP. do 3 f_equal. lia.
  - intros a b Hab Ha Hb. rewrite ErrorRate_hyp_spec by discriminate.
    assert (E0a : (0 =? a) = false) by (apply Z.eqb_neq; lia).
    assert (Ea0 : (a =? 0) = false) by (apply Z.eqb_neq; lia).
    assert (E0b : (0 =? b) = false) by (apply Z.eqb_neq; lia).
    assert (Eb0 : (b =? 0) = false) by (apply Z.eqb_neq; lia).
    unfold greedy_decode, collapse_repeats.
    repeat (cbn [collapse_from drop_blanks];
            rewrite ?E0a, ?Eb0, ?E0b, ?Ea0, ?Z.eqb_refl).
    reflexivity.
Qed.

Lemma C9_greedy_decode_witness :
  ErrorRate_hyp [3; 3; 0; 7; 7; 0; 0; 3] = Ok [3; 7; 3].
Proof.
  apply (proj2 (proj2 C9_greedy_decode) 3 7); lia.
Defined.

(** With no frame at all the loop over [n < i] starts with [i = 1] and
    reads [data[0]] of an empty vector. *)
Lemma ErrorRate_hyp_no_frame : ErrorRate_hyp [] = Abort IndexOutOfRange.
Proof. reflexivity. Qed.

(** ** Forward and backward totals *)

Section ExactLogDomain.

Context {W : Type} `{LogArith W}.

(** Exact log-domain arithmetic: [log_add] and [log_mul] form a commutative
    semiring with the sentinel log-zero as zero and [log 1] as one. *)
Hypothesis log_semiring : semi_ring_theory log_zero log_one log_add log_mul eq.

Add Ring log_ring : log_semiring.

Local Notation "x [+] y" := (log_add x y) (at level 50, left associativity).
Local Notation "x [*] y" := (log_mul x y) (at level 40, left associativity).

(** The log-sum of [f 0], ..., [f (n - 1)]. *)
Fixpoint log_sum (n : nat) (f : nat -> W) : W :=
  match n with
  | O => log_zero
  | S n' => log_sum n' f [+] f n'
  end.

Lemma log_sum_ext (n : nat) (f g : nat -> W) :
  (forall s, (s < n)%nat -> f s = g s) -> log_sum n f = log_sum n g.
Proof.
  induction n as [|n IH]; intros Hfg; simpl; [reflexivity|].
  rewrite IH, Hfg by (intros; try apply Hfg; lia). reflexivity.
Qed.

Lemma log_sum_zero (n : nat) : log_sum n (fun _ => log_zero) = log_zero.
Proof. induction n as [|n IH]; simpl; [reflexivity | rewrite IH; ring]. Qed.

Lemma log_sum_plus (n : nat) (f g : nat -> W) :
  log_sum n (fun s => f s [+] g s) = log_sum n f [+] log_sum n g.
Proof. induction n as [|n IH]; simpl; [ring | rewrite IH; ring]. Qed.

Lemma log_sum_scale_r (n : nat) (f : nat -> W) (x : W) :
  log_sum n (fun s => f s [*] x) = log_sum n f [*] x.
Proof. induction n as [|n IH]; simpl; [ring | rewrite IH; ring]. Qed.

Lemma log_sum_scale_l (n : nat) (f : nat -> W) (x : W) :
  log_sum n (fun s => x [*] f s) = x [*] log_sum n f.
Proof. induction n as [|n IH]; simpl; [ring | rewrite IH; ring]. Qed.

Lemma log_sum_swap (n m : nat) (f : nat -> nat -> W) :
  log_sum n (fun i => log_sum m (fun j => f i j))
  = log_sum m (fun j => log_sum n (fun i => f i j)).
Proof.
  induction n as [|n IH]; simpl.
  - now rewrite log_sum_zero.
  - rewrite IH, <- log_sum_plus. reflexivity.
Qed.

(** A sum that is zero except at index [k]. *)
Lemma log_sum_delta (n k : nat) (f : nat -> W) :
  log_sum n (fun s => if (s =? k)%nat then f s else log_zero)
  = if (k <? n)%nat then f k else log_zero.
Proof.
  induction n as [|n IH]; simpl; [reflexivity|]. rewrite IH.
  destruct (Nat.eqb_spec n k) as [->|Hne].
  - rewrite Nat.ltb_irrefl. rewrite (proj2 (Nat.ltb_lt k (S k))) by lia. ring.
  - destruct (Nat.ltb_spec k n); destruct (Nat.ltb_spec k (S n)); try lia; ring.
Qed.

Variable log_posterior : nat -> Z -> W.
Variable label : list Z.

Local Abbreviation al := (alpha log_posterior label).
Local Abbreviation em := (emission log_posterior label).
Local Abbreviation bb := (beta_back log_posterior label).
Local Abbreviation cskip := (skip_from_two_back label).

(** The number of expanded positions, [2L + 1]. *)
Definition states : nat := (2 * L label + 1)%nat.

(** [step s s'] is [log 1] if the recursion lets a path go from position
    [s] at one frame to position [s'] at the next, and log-zero if not. *)
Definition step (s s' : nat) : W :=
  (if (s' =? s)%nat then log_one else log_zero)
  [+] (if (s' =? s + 1)%nat then log_one else log_zero)
  [+] (if (s' =? s + 2)%nat && cskip s' then log_one else log_zero).

Lemma skip_from_two_back_le (s : nat) : cskip s = true -> (2 <= s)%nat.
Proof.
  unfold skip_from_two_back. intros Hs.
  apply andb_true_iff in Hs as [Hs _]. apply andb_true_iff in Hs as [Hs _].
  now apply Nat.leb_le in Hs.
Qed.

Lemma skip_to_two_ahead_eq (s : nat) :
  skip_to_two_ahead label s = (s + 2 <=? 2 * L label)%nat && cskip (s + 2).
Proof.
  unfold skip_to_two_ahead, skip_from_two_back.
  replace (s + 2 - 2)%nat with s by lia.
  replace (2 <=? s + 2)%nat with true by (symmetry; apply Nat.leb_le; lia).
  replace (s + 2)%nat with (S (S s)) by lia. rewrite Nat.odd_succ_succ.
  rewrite (Z.eqb_sym (expanded_label label (S (S s)))).
  now rewrite <- !andb_assoc.
Qed.

(** The successors of [s], collected by [step]. *)
Lemma step_succ_sum (m : nat) (b : nat -> W) (s : nat) :
  log_sum m (fun s' => step s s' [*] b s')
  = (if (s <? m)%nat then b s else log_zero)
    [+] (if (s + 1 <? m)%nat then b (s + 1)%nat else log_zero)
    [+] (if (s + 2 <? m)%nat
         then (if cskip (s + 2) then b (s + 2)%nat else log_zero) else log_zero).
Proof.
  rewrite (log_sum_ext m _
             (fun s' => (if (s' =? s)%nat then b s' else log_zero)
                        [+] (if (s' =? s + 1)%nat then b s' else log_zero)
                        [+] (if (s' =? s + 2)%nat
                             then (if cskip s' then b s' else log_zero) else log_zero))).
  - rewrite !log_sum_plus, !log_sum_delta. reflexivity.
  - intros s' _. unfold step.
    destruct (s' =? s)%nat, (s' =? s + 1)%nat, (s' =? s + 2)%nat, (cskip s'); simpl; ring.
Qed.

(** The predecessors of [s'], collected by [step]. *)
Lemma step_pred_sum (m : nat) (a : nat -> W) (s' : nat) :
  (s' < m)%nat ->
  log_sum m (fun s => a s [*] step s s')
  = a s'
    [+] (if (1 <=? s')%nat then a (s' - 1)%nat else log_zero)
    [+] (if cskip s' then a (s' - 2)%nat else log_zero).
Proof.
  intros Hs'.
  rewrite (log_sum_ext m _
             (fun s => (if (s =? s')%nat then a s else log_zero)
                       [+] (if (s =? s' - 1)%nat
                            then (if (1 <=? s')%nat then a s else log_zero) else log_zero)
                       [+] (if (s =? s' - 2)%nat
                            then (if cskip s' then a s else log_zero) else log_zero))).
  - rewrite !log_sum_plus, !log_sum_delta.
    rewrite !(proj2 (Nat.ltb_lt _ m)) by lia. reflexivity.
  - intros s _. unfold step.
    destruct (cskip s') eqn:Hskip.
    + apply skip_from_two_back_le in Hskip.
      destruct (Nat.eqb_spec s' s), (Nat.eqb_spec s' (s + 1)), (Nat.eqb_spec s' (s + 2)),
        (Nat.eqb_spec s s'), (Nat.eqb_spec s (s' - 1)), (Nat.eqb_spec s (s' - 2)),
        (Nat.leb_spec 1 s'); simpl; try lia; ring.
    + rewrite andb_false_r.
      destruct (Nat.eqb_spec s' s), (Nat.eqb_spec s' (s + 1)),
        (Nat.eqb_spec s s'), (Nat.eqb_spec s (s' - 1)), (Nat.eqb_spec s (s' - 2)),
        (Nat.leb_spec 1 s'); simpl; try lia; ring.
Qed.

(** The forward variable before the posterior of its own frame is added. *)
Definition alpha_in (t s : nat) : W :=
  match t with
  | O =>
      match s with
      | O => log_one
      | 1%nat => if (0 <? L label)%nat then log_one else log_zero
      | _ => log_zero
      end
  | S t' => log_sum states (fun s0 => al t' s0 [*] step s0 s)
  end.

(** The two positions in which a path may end. *)
Definition final_position (s : nat) : W :=
  if (s =? 2 * L label)%nat then log_one
  else if (0 <? L label)%nat && (s =? 2 * L label - 1)%nat then log_one
  else log_zero.

Lemma alpha_split (t s : nat) : (s < states)%nat -> al t s = alpha_in t s [*] em t s.
Proof.
  intros Hs. destruct t as [|t].
  - destruct s as [|[|s]]; simpl; [ring | destruct (0 <? L label)%nat; ring | ring].
  - cbn [alpha alpha_in]. cbv zeta. rewrite step_pred_sum by exact Hs.
    destruct (1 <=? s)%nat, (cskip s); ring.
Qed.

(** One step of the backward recurrence, as a sum over the successors. *)
Lemma beta_step (k t s : nat) :
  (s < states)%nat ->
  bb (S k) t s
  = log_sum states (fun s' => step s s' [*] (bb k (t + 1)%nat s' [*] em (t + 1)%nat s')).
Proof.
  intros Hs. unfold states in Hs.
  cbn [beta_back]. cbv zeta.
  rewrite (step_succ_sum states (fun s' => bb k (t + 1)%nat s' [*] em (t + 1)%nat s') s).
  rewrite skip_to_two_ahead_eq. unfold states.
  rewrite (proj2 (Nat.ltb_lt s _)) by lia.
  replace (s + 1 <? 2 * L label + 1)%nat with (s + 1 <=? 2 * L label)%nat
    by (destruct (Nat.leb_spec (s + 1) (2 * L label)),
                 (Nat.ltb_spec (s + 1) (2 * L label + 1)); lia || reflexivity).
  replace (s + 2 <? 2 * L label + 1)%nat with (s + 2 <=? 2 * L label)%nat
    by (destruct (Nat.leb_spec (s + 2) (2 * L label)),
                 (Nat.ltb_spec (s + 2) (2 * L label + 1)); lia || reflexivity).
  destruct (s + 1 <=? 2 * L label)%nat, (s + 2 <=? 2 * L label)%nat, (cskip (s + 2));
    simpl; ring.
Qed.

(** With the posterior of its own frame added, the backward table obeys the
    forward recurrence mirrored: steps to [s+1] and [s+2] in place of [s-1]
    and [s-2]. *)
Lemma beta_mirror (k t s : nat) :
  bb (S k) t s [*] em t s
  = (let b' := fun s' => bb k (t + 1)%nat s' [*] em (t + 1)%nat s' in
     let sum := b' s in
     let sum := if (s + 1 <=? 2 * L label)%nat then sum [+] b' (s + 1)%nat else sum in
     let sum := if skip_to_two_ahead label s then sum [+] b' (s + 2)%nat else sum in
     sum [*] em t s).
Proof. reflexivity. Qed.

(** The mass that flows through frame [t] is the mass that reaches the two
    final positions [k] frames later. *)
Lemma forward_backward_balance (k t : nat) :
  log_sum states (fun s => al t s [*] bb k t s)
  = log_sum states (fun s => al (t + k) s [*] final_position s).
Proof.
  revert t. induction k as [|k IH]; intros t.
  - replace (t + 0)%nat with t by lia. reflexivity.
  - replace (t + S k)%nat with ((t + 1) + k)%nat by lia. rewrite <- IH.
    rewrite (log_sum_ext states _
               (fun s => log_sum states
                           (fun s' => (al t s [*] step s s')
                                      [*] (em (t + 1)%nat s' [*] bb k (t + 1)%nat s')))).
    2:{ intros s Hs. rewrite beta_step by exact Hs. rewrite <- log_sum_scale_l.
        apply log_sum_ext. intros s' _. ring. }
    rewrite log_sum_swap. apply log_sum_ext. intros s' Hs'.
    rewrite log_sum_scale_r. rewrite (alpha_split (t + 1) s' Hs').
    replace (t + 1)%nat with (S t) by lia. cbn [alpha_in]. ring.
Qed.

(** The two totals agree: the mass that leaves the two initial positions
    is the mass that reaches the two final ones. *)
Lemma forward_backward_totals (T : nat) :
  (1 <= L label)%nat ->
  total_from_alpha log_posterior label T = total_from_beta log_posterior label T.
Proof.
  intros HL. unfold total_from_alpha, total_from_beta, beta.
  replace (T - 1 - 0)%nat with (T - 1)%nat by lia.
  pose proof (forward_backward_balance (T - 1) 0) as Hbal.
  replace (0 + (T - 1))%nat with (T - 1)%nat in Hbal by lia.
  assert (Hstates : (3 <= states)%nat) by (unfold states; lia).
  rewrite (log_sum_ext states _
             (fun s => (if (s =? 0)%nat then bb (T - 1) 0 s [*] em 0%nat s else log_zero)
                       [+] (if (s =? 1)%nat then bb (T - 1) 0 s [*] em 0%nat s
                            else log_zero))) in Hbal.
  2:{ intros s _. destruct s as [|[|s]]; cbn [alpha Nat.eqb]; [ring | | ring].
      rewrite (proj2 (Nat.ltb_lt 0 (L label))) by lia. ring. }
  rewrite (log_sum_ext states (fun s => al (T - 1) s [*] final_position s)
             (fun s => (if (s =? 2 * L label)%nat then al (T - 1) s else log_zero)
                       [+] (if (s =? 2 * L label - 1)%nat then al (T - 1) s else log_zero)))
    in Hbal.
  2:{ intros s _. unfold final_position.
      rewrite (proj2 (Nat.ltb_lt 0 (L label))) by lia.
      destruct (Nat.eqb_spec s (2 * L label)), (Nat.eqb_spec s (2 * L label - 1));
        simpl; try lia; ring. }
  rewrite !log_sum_plus, !log_sum_delta in Hbal.
  rewrite !(proj2 (Nat.ltb_lt _ states)) in Hbal by (unfold states in *; lia).
  symmetry. exact Hbal.
Qed.

(** C6, for the tables of the specification. With at least one frame and
    one label, the total read off the last row of the alpha table,
    [log_add(alpha(T-1, 2L), alpha(T-1, 2L-1))], equals the total computed
    from the first row of the beta table,
    [log_add(beta(0,0) + log p(0,blank), beta(0,1) + log p(0,label_1))]. *)
Theorem C6_alpha_total_is_beta_total :
  forall T : nat,
    (1 <= T)%nat -> (1 <= L label)%nat ->
    total_from_alpha log_posterior label T = total_from_beta log_posterior label T.
Proof.
  intros T _ HL. apply forward_backward_totals, HL.
Qed.

End ExactLogDomain.

(** Probabilities themselves as an exact model of the log domain: the value
    [x] of the log domain is represented by [exp x], a rational here, so that
    log-zero is 0, [log 1] is 1, [log_add] is the sum and [log_mul] the
    product. *)
#[local] Instance probability_scale : LogArith Qcanon.Qc := {|
  log_zero := Qcanon.Q2Qc (QArith_base.Qmake 0 1);
  log_one := Qcanon.Q2Qc (QArith_base.Qmake 1 1);
  log_add := Qcanon.Qcplus;
  log_mul := Qcanon.Qcmult
|}.

Lemma probability_scale_semiring :
  semi_ring_theory (log_zero (W := Qcanon.Qc)) log_one log_add log_mul eq.
Proof.
  constructor; intros; simpl.
  - apply Qcanon.Qcplus_0_l.
  - apply Qcanon.Qcplus_comm.
  - apply Qcanon.Qcplus_assoc.
  - apply Qcanon.Qcmult_1_l.
  - apply Qcanon.Qcmult_0_l.
  - apply Qcanon.Qcmult_comm.
  - apply Qcanon.Qcmult_assoc.
  - apply Qcanon.Qcmult_plus_distr_l.
Qed.

(** Three classes: the blank with posterior 1/2, the two labels with
    posteriors 1/3 and 1/6, at every frame. *)
Definition uneven_posterior (t : nat) (k : Z) : Qcanon.Qc :=
  if k =? 0 then Qcanon.Q2Qc (QArith_base.Qmake 1 2)
  else if k =? 1 then Qcanon.Q2Qc (QArith_base.Qmake 1 3)
  else Qcanon.Q2Qc (QArith_base.Qmake 1 6).

Lemma C6_alpha_total_is_beta_total_witness :
  total_from_alpha uneven_posterior [1; 2] 4 = total_from_beta uneven_posterior [1; 2] 4
  /\ total_from_alpha uneven_posterior [1; 2] 4 = Qcanon.Q2Qc (QArith_base.Qmake 11 81).
Proof.
  split.
  - apply (C6_alpha_total_is_beta_total probability_scale_semiring uneven_posterior [1; 2] 4).
    + lia.
    + simpl. lia.
  - apply Qcanon.Qc_is_canon. vm_compute. reflexivity.
Defined.

(** ** A batch of one sequence *)









Section SingleSequence.

Variable ApplyLog : Matrix -> Matrix.
Variable ExpA : BaseFloat -> BaseFloat.
Variable log_ : BaseFloat -> BaseFloat.
Variable LogAPlusB : double -> double -> double.
Variable log_zero_ : BaseFloat.
Variable ComputeCtcAlpha : Matrix -> Matrix -> Z -> list Z -> bool -> Matrix.
Variable ComputeCtcBeta : Matrix -> Matrix -> Z -> list Z -> bool -> Matrix.
Variable ComputeCtcError :
  Matrix -> Matrix -> Matrix -> Matrix -> list Z -> BaseFloat -> Matrix.
Variable ComputeCtcAlphaMSeq : Matrix -> Matrix -> Z -> list Z -> list Z -> Matrix.
Variable ComputeCtcBetaMSeq : Matrix -> Matrix -> Z -> list Z -> list Z -> list Z -> Matrix.
Variable ComputeCtcErrorMSeq :
  Matrix -> Matrix -> Matrix -> Matrix -> list Z -> list Z -> list BaseFloat -> Matrix.

Local Abbreviation Eval_ :=
  (Eval ApplyLog ExpA log_ ComputeCtcAlpha ComputeCtcBeta ComputeCtcError).
Local Abbreviation EvalParallel_ :=
  (EvalParallel ApplyLog LogAPlusB log_zero_ ComputeCtcAlphaMSeq ComputeCtcBetaMSeq
     ComputeCtcErrorMSeq).













End SingleSequence.





(** * Further properties of the calls *)

(** ** More on loops *)

(** A loop whose body stops at some index of its range does not return. *)
Lemma for_loop_stops {St} (body : Z -> St -> Result St) (j0 : Z) :
  (forall s, exists f, body j0 s = Abort f) ->
  forall (n : nat) (i : Z) (s : St),
    i <= j0 < i + Z.of_nat n -> exists f, for_loop n i body s = Abort f.
Proof.
  intros Hstop. induction n as [|n IH]; intros i s Hj; [lia|].
  cbn [for_loop]. destruct (Z.eq_dec i j0) as [->|Hne].
  - destruct (Hstop s) as [f ->]. exists f. reflexivity.
  - destruct (body i s) as [s1|f]; [|exists f; reflexivity].
    cbn [bind]. apply IH. lia.
Qed.

(** Two bodies that agree on the range of the loop give the same loop. *)
Lemma for_loop_ext {St} (body body' : Z -> St -> Result St) :
  forall (n : nat) (i : Z) (s : St),
    (forall j s, i <= j < i + Z.of_nat n -> body j s = body' j s) ->
    for_loop n i body s = for_loop n i body' s.
Proof.
  induction n as [|n IH]; intros i s H; [reflexivity|].
  cbn [for_loop]. rewrite H by lia. destruct (body' i s) as [s1|f]; [|reflexivity].
  cbn [bind]. apply IH. intros j s2 Hj. apply H. lia.
Qed.

(** ** Label expansion in [Eval] *)

(** Labels below the number of classes pass the assertion of [Eval]. *)
Lemma expand_label_total (C : Z) (label : list Z) :
  (forall x, In x label -> x < C) -> expand_label C label = Ok (expand label).
Proof.
  intros Hvalid. destruct (expand_label C label) as [e|f] eqn:E.
  - apply expand_label_Ok in E as [_ ->]. reflexivity.
  - apply expand_label_Abort in E as (_ & x & Hx & Hge). specialize (Hvalid x Hx). lia.
Qed.

(** X1. With every label below the number of classes (nothing is asked of
    its sign), the expansion [Eval] builds has [2 * len_labels + 1] entries:
    label [k] at position [2k + 1] and the blank, class 0, at every even
    position. *)
Theorem expand_label_layout :
  forall (num_cols : Z) (label : list Z),
    (forall x, In x label -> x < num_cols) ->
    exists label_expand,
      expand_label num_cols label = Ok label_expand
      /\ length label_expand = (2 * length label + 1)%nat
      /\ (forall k : nat, label_expand !! (2 * k + 1)%nat = label !! k)
      /\ (forall k : nat, (k <= length label)%nat -> label_expand !! (2 * k)%nat = Some 0).
Proof.
  intros C label Hvalid. exists (expand label).
  split; [apply expand_label_total, Hvalid|]. split; [apply expand_length|].
  split; [apply expand_lookup_odd | apply expand_lookup_even].
Qed.

Lemma expand_label_layout_witness :
  exists label_expand,
    expand_label 10 [3; -1; 3] = Ok label_expand
    /\ length label_expand = (2 * length ([3; -1; 3]%Z : list Z) + 1)%nat
    /\ (forall k : nat, label_expand !! (2 * k + 1)%nat = ([3; -1; 3]%Z : list Z) !! k)
    /\ (forall k : nat, (k <= length ([3; -1; 3]%Z : list Z))%nat ->
          label_expand !! (2 * k)%nat = Some 0).
Proof.
  apply expand_label_layout. simpl. intros x [<-|[<-|[<-|[]]]]; lia.
Defined.

(** ** A batch without sequences *)

(** The label expansion of [EvalParallel] stops on a label that is not below
    the number of classes or on an index, never on a division. *)
Lemma expand_labels_parallel_abort_kind C n (labels : list (list Z)) f :
  expand_labels_parallel C n labels = Abort f ->
  f = IndexOutOfRange \/ f = ErrLabelGtOutdim.
Proof.
  unfold expand_labels_parallel. intros H.
  destruct (max_label_len_of n labels) as [m|f1] eqn:Emax; cbn [bind] in H.
  - destruct (for_loop n 0 _ _) as [[ll e]|f1] eqn:Eloop; cbn [bind] in H; [discriminate|].
    injection H as <-. revert Eloop.
    apply (for_loop_abort (fun f => f = IndexOutOfRange \/ f = ErrLabelGtOutdim)).
    intros j st f2. unfold expand_sequence.
    destruct (at_index labels j) as [l|f3] eqn:El; cbn [bind];
      [|intros [= <-]; left; eapply at_index_abort, El].
    destruct (expand_sequence_inner _ _ _ _ _) as [e1|f3] eqn:Einner; cbn [bind];
      [discriminate|].
    intros [= <-]. revert Einner. unfold expand_sequence_inner.
    apply (for_loop_abort (fun f => f = IndexOutOfRange \/ f = ErrLabelGtOutdim)).
    intros i e2 f4.
    destruct (at_index l i) as [x|f5] eqn:Ex; cbn [bind];
      [|intros [= <-]; left; eapply at_index_abort, Ex].
    destruct (C <=? x); [intros [= <-]; right; reflexivity | discriminate].
  - injection H as <-. left. revert Emax. unfold max_label_len_of.
    apply (for_loop_abort (fun f => f = IndexOutOfRange)).
    intros j m f2.
    destruct (at_index labels j) as [l|f3] eqn:El; cbn [bind];
      [discriminate | intros [= <-]; eapply at_index_abort, El].
Qed.

Section DegenerateCalls.

Variable ApplyLog : Matrix -> Matrix.
Variable LogAPlusB : double -> double -> double.
Variable log_zero_ : BaseFloat.
Variable ComputeCtcAlphaMSeq : Matrix -> Matrix -> Z -> list Z -> list Z -> Matrix.
Variable ComputeCtcBetaMSeq : Matrix -> Matrix -> Z -> list Z -> list Z -> list Z -> Matrix.
Variable ComputeCtcErrorMSeq :
  Matrix -> Matrix -> Matrix -> Matrix -> list Z -> list Z -> list BaseFloat -> Matrix.
Variable CTC_GRAD_CHECK : GradCheck.

Local Abbreviation EvalParallel_ :=
  (EvalParallel ApplyLog LogAPlusB log_zero_ ComputeCtcAlphaMSeq ComputeCtcBetaMSeq
     ComputeCtcErrorMSeq CTC_GRAD_CHECK).

Lemma read_pzx_abort N fnu labels alpha s pzx f :
  read_pzx LogAPlusB N fnu labels alpha s pzx = Abort f -> f = IndexOutOfRange.
Proof.
  unfold read_pzx. intros H.
  destruct (at_index labels s) as [l|f1] eqn:E1; cbn [bind] in H;
    [|injection H as <-; eapply at_index_abort, E1].
  destruct (at_index fnu s) as [fn|f1] eqn:E2; cbn [bind] in H;
    [|injection H as <-; eapply at_index_abort, E2].
  destruct (entry alpha _ (2 * Z.of_nat (length l) + 1 - 1)) as [t1|f1] eqn:E3;
    cbn [bind] in H; [|injection H as <-; eapply entry_abort, E3].
  destruct (entry alpha _ (2 * Z.of_nat (length l) + 1 - 2)) as [t2|f1] eqn:E4;
    cbn [bind] in H; [discriminate | injection H as <-; eapply entry_abort, E4].
Qed.

(** X3. [EvalParallel] takes the remainder of the number of frames by the
    number of sequences before it looks at anything else. With an empty
    batch that is a remainder by zero, whatever the posteriors, the names
    and the labels are, and before anything is written to the registry; and
    the call comes to a division by zero in no other way. *)
Theorem EvalParallel_degenerate_batch :
  forall (c : CtcState) (utt : list string) (frame_num_utt : list Z) (net_out : Matrix)
         (label : list (list Z)),
    EvalParallel_ c utt frame_num_utt net_out label = Abort IntDivByZero
    <-> frame_num_utt = [].
Proof.
  intros c utt fnu net_out labels. split; [|intros ->; reflexivity].
  intros Hrun. destruct fnu as [|fn fnu]; [reflexivity|]. exfalso.
  unfold EvalParallel in Hrun.
  destruct (Z.eqb_spec (Z.of_nat (length (fn :: fnu))) 0) as [E|_];
    [cbn [length] in E; lia|].
  destruct (Z.rem (NumRows net_out) (Z.of_nat (length (fn :: fnu))) =? 0);
    cbn [bind] in Hrun; [|discriminate].
  destruct (expand_labels_parallel _ _ _) as [[[el lens] buf]|f] eqn:Eexp;
    cbn [bind] in Hrun.
  - cbv zeta in Hrun.
    destruct (for_loop _ 0 (read_pzx _ _ _ _ _) _) as [pzx|f] eqn:Epzx; cbn [bind] in Hrun.
    + unfold EvalParallel_tail in Hrun.
      destruct (stats_policy _ _ _ _ _) as [[c1 d1]|f] eqn:Epol; cbn [bind] in Hrun;
        [discriminate|].
      injection Hrun as ->. apply stats_policy_abort in Epol. discriminate.
    + injection Hrun as ->.
      apply (for_loop_abort (fun f => f <> IntDivByZero)) in Epzx; [congruence|].
      intros j p f Hf. apply read_pzx_abort in Hf as ->. discriminate.
  - injection Hrun as ->.
    apply expand_labels_parallel_abort_kind in Eexp as [E|E]; discriminate.
Qed.

End DegenerateCalls.

Lemma EvalParallel_degenerate_batch_witness :
  EvalParallel (fun m => m) (fun x _ => x) zero (fun m _ _ _ _ => m)
    (fun m _ _ _ _ _ => m) (fun m _ _ _ _ _ _ => m) AVG_LOSS_CHECK
    (fresh_state 100 100) ["a"%string] []
    (mkMatrix 3 [[zero; zero; zero]; [zero; zero; zero]]) [[7]; []]
  = Abort IntDivByZero.
Proof.
  apply (proj2 (EvalParallel_degenerate_batch (fun m => m) (fun x _ => x) zero
                  (fun m _ _ _ _ => m) (fun m _ _ _ _ _ => m) (fun m _ _ _ _ _ _ => m)
                  AVG_LOSS_CHECK (fresh_state 100 100) ["a"%string] []
                  (mkMatrix 3 [[zero; zero; zero]; [zero; zero; zero]]) [[7]; []])).
  reflexivity.
Defined.

(** ** The padded label layout of [EvalParallel] *)

(** The slot of [exp_len_labels] entries that starts at [base] holds the
    expansion of [label_s]: the labels at the odd offsets, the blank at the
    even offsets up to [2 * size], and the padding value -1 behind. *)
Definition slot_holds (label_expand : list Z) (base exp_len_labels : Z) (label_s : list Z)
    : Prop :=
  (forall k : nat, (k < length label_s)%nat ->
     label_expand !! Z.to_nat (base + 2 * Z.of_nat k + 1) = label_s !! k)
  /\ (forall k : nat, (k <= length label_s)%nat ->
        label_expand !! Z.to_nat (base + 2 * Z.of_nat k) = Some 0)
  /\ (forall i : Z, 2 * Z.of_nat (length label_s) + 1 <= i < exp_len_labels ->
        label_expand !! Z.to_nat (base + i) = Some (-1)).

Lemma slot_holds_preserved (e e' : list Z) (base E bound : Z) (l : list Z) :
  0 <= base -> base + E <= bound -> 2 * Z.of_nat (length l) + 1 <= E ->
  (forall i : nat, Z.of_nat i < bound -> e' !! i = e !! i) ->
  slot_holds e base E l -> slot_holds e' base E l.
Proof.
  intros Hb Hbound HE Hsame (Hodd & Heven & Hpad). repeat split.
  - intros k Hk. rewrite Hsame by lia. auto.
  - intros k Hk. rewrite Hsame by lia. auto.
  - intros i Hi. rewrite Hsame by lia. auto.
Qed.

(** The longest label sequence bounds every sequence of the batch and is
    the length of one of them, or 0. *)
Lemma max_label_len_of_value (labels : list (list Z)) :
  exists m, max_label_len_of (length labels) labels = Ok m
    /\ (forall l, In l labels -> Z.of_nat (length l) <= m)
    /\ (m = 0 \/ exists l, In l labels /\ m = Z.of_nat (length l)).
Proof.
  destruct (max_label_len_of_total labels) as [m Hm]. exists m. split; [exact Hm|].
  unfold max_label_len_of in Hm.
  set (P := fun (j : Z) (m : Z) =>
    (forall (s : nat) l, Z.of_nat s < j -> labels !! s = Some l -> Z.of_nat (length l) <= m)
    /\ (m = 0 \/ exists l, In l labels /\ m = Z.of_nat (length l))).
  apply (for_loop_invariant P) in Hm.
  - destruct Hm as [Hmax Hwit]. split; [|exact Hwit].
    intros l Hl. apply list_elem_of_In, list_elem_of_lookup in Hl as [s Hs].
    apply (Hmax s l); [|exact Hs]. apply lookup_lt_Some in Hs. lia.
  - split; [intros; lia | left; reflexivity].
  - intros j m1 m2 Hj [Hmax Hwit] Hbody.
    apply bind_Ok in Hbody as (l & Hl & Hbody). apply at_index_Ok in Hl as [_ Hl].
    injection Hbody as <-. split.
    + intros s l' Hs Hl'. destruct (decide (s = Z.to_nat j)) as [->|Hne].
      * rewrite Hl in Hl'. injection Hl' as <-.
        destruct (Z.ltb_spec m1 (Z.of_nat (length l))); lia.
      * specialize (Hmax s l' ltac:(lia) Hl').
        destruct (Z.ltb_spec m1 (Z.of_nat (length l))); lia.
    + destruct (Z.ltb_spec m1 (Z.of_nat (length l))); [|exact Hwit].
      right. exists l. split; [|reflexivity].
      apply list_elem_of_In, list_elem_of_lookup. eauto.
Qed.

(** The loop over the labels of sequence [s] writes the first
    [2 * size] entries of the slot of [s] and nothing else. *)
Lemma expand_sequence_inner_slot C E s (l e0 e : list Z) :
  0 <= s * E ->
  s * E + 2 * Z.of_nat (length l) <= Z.of_nat (length e0) ->
  expand_sequence_inner C E s l e0 = Ok e ->
  length e = length e0
  /\ (forall k : nat, (k < length l)%nat ->
        e !! Z.to_nat (s * E + 2 * Z.of_nat k + 1) = l !! k)
  /\ (forall k : nat, (k < length l)%nat ->
        e !! Z.to_nat (s * E + 2 * Z.of_nat k) = Some 0)
  /\ (forall i : nat,
        Z.of_nat i < s * E \/ s * E + 2 * Z.of_nat (length l) <= Z.of_nat i ->
        e !! i = e0 !! i).
Proof.
  unfold expand_sequence_inner. intros Hbase Hroom Hrun.
  set (P := fun (j : Z) (e : list Z) =>
    length e = length e0
    /\ (forall k : nat, Z.of_nat k < j ->
          e !! Z.to_nat (s * E + 2 * Z.of_nat k + 1) = l !! k)
    /\ (forall k : nat, Z.of_nat k < j ->
          e !! Z.to_nat (s * E + 2 * Z.of_nat k) = Some 0)
    /\ (forall i : nat, Z.of_nat i < s * E \/ s * E + 2 * j <= Z.of_nat i ->
          e !! i = e0 !! i)).
  apply (for_loop_invariant P) in Hrun.
  - destruct Hrun as (Hlen & Hodd & Heven & Hrest). split; [exact Hlen|].
    split; [intros k Hk; apply Hodd; lia|]. split; [intros k Hk; apply Heven; lia|].
    intros i Hi. apply Hrest. lia.
  - unfold P. repeat split; intros; lia.
  - intros j e1 e2 Hj (Hlen & Hodd & Heven & Hrest) Hbody.
    apply bind_Ok in Hbody as (x & Hx & Hbody). apply at_index_Ok in Hx as [_ Hx].
    destruct (C <=? x); [discriminate|]. injection Hbody as <-.
    unfold P. split; [now rewrite !length_insert|].
    split; [|split].
    + intros k Hk. destruct (decide (k = Z.to_nat j)) as [->|Hne].
      * rewrite Z2Nat.id by lia.
        rewrite list_lookup_insert_eq by (rewrite length_insert; lia).
        now rewrite Hx.
      * rewrite !list_lookup_insert_ne by lia. apply Hodd. lia.
    + intros k Hk. destruct (decide (k = Z.to_nat j)) as [->|Hne].
      * rewrite Z2Nat.id by lia.
        rewrite list_lookup_insert_ne by lia.
        rewrite list_lookup_insert_eq by lia. reflexivity.
      * rewrite !list_lookup_insert_ne by lia. apply Heven. lia.
    + intros i Hi. rewrite !list_lookup_insert_ne by lia. apply Hrest. lia.
Qed.

(** X4. The label expansion of a batch whose labels are all below the number
    of classes: [exp_len_labels] is [2 * max_label_len + 1], at least the
    expanded length of every sequence and exactly that of a longest one;
    [label_lengths_utt[s]] is [2 * size + 1]; [label_expand_] has one slot of
    [exp_len_labels] entries per sequence, and the slot of [s] holds the
    labels of [s] at its odd offsets, the blank at the even offsets up to
    [2 * size] and -1 behind. Every write of the loops lands inside the slot
    of its sequence. *)
Theorem expand_labels_parallel_layout :
  forall (num_cols : Z) (label : list (list Z)),
    ~ some_label_out_of_range num_cols label ->
    exists exp_len_labels label_lengths_utt label_expand,
      expand_labels_parallel num_cols (length label) label
        = Ok (exp_len_labels, label_lengths_utt, label_expand)
      /\ (forall l, In l label -> 2 * Z.of_nat (length l) + 1 <= exp_len_labels)
      /\ (exp_len_labels = 1
          \/ exists l, In l label /\ exp_len_labels = 2 * Z.of_nat (length l) + 1)
      /\ length label_lengths_utt = length label
      /\ Z.of_nat (length label_expand) = Z.of_nat (length label) * exp_len_labels
      /\ forall (s : nat) l, label !! s = Some l ->
           label_lengths_utt !! s = Some (2 * Z.of_nat (length l) + 1)
           /\ slot_holds label_expand (Z.of_nat s * exp_len_labels) exp_len_labels l.
Proof.
  intros C labels Hvalid.
  destruct (expand_labels_parallel_result C labels)
    as [[Hbad _]|[_ [[[E lens] buf] Hexp]]]; [contradiction|].
  exists E, lens, buf. split; [exact Hexp|].
  unfold expand_labels_parallel in Hexp.
  destruct (max_label_len_of_value labels) as (m & Hm & Hmax & Hwit).
  rewrite Hm in Hexp. cbn [bind] in Hexp.
  apply bind_Ok in Hexp as ([lens1 buf1] & Hloop & Hexp).
  injection Hexp as <- <- <-.
  set (E := 2 * m + 1) in *. set (N := Z.of_nat (length labels)).
  assert (Hm0 : 0 <= m) by (destruct Hwit as [->|(l & _ & ->)]; lia).
  assert (HE : forall l, In l labels -> 2 * Z.of_nat (length l) + 1 <= E)
    by (intros l Hl; specialize (Hmax l Hl); unfold E; lia).
  split; [exact HE|].
  split; [destruct Hwit as [->|(l & Hl & ->)]; [left; reflexivity | right; eauto]|].
  set (P := fun (j : Z) (st : list Z * list Z) =>
    length (fst st) = length labels
    /\ Z.of_nat (length (snd st)) = N * E
    /\ (forall (s : nat) l, Z.of_nat s < j -> labels !! s = Some l ->
          fst st !! s = Some (2 * Z.of_nat (length l) + 1)
          /\ slot_holds (snd st) (Z.of_nat s * E) E l)
    /\ (forall i : nat, j * E <= Z.of_nat i < N * E -> snd st !! i = Some (-1))).
  apply (for_loop_invariant P) in Hloop.
  - destruct Hloop as (Hl1 & Hl2 & Hslots & _). cbn [fst snd] in *.
    split; [exact Hl1|]. split; [exact Hl2|].
    intros s l Hs. apply Hslots; [|exact Hs]. apply lookup_lt_Some in Hs. lia.
  - unfold P. cbn [fst snd]. rewrite !repeat_length.
    split; [reflexivity|]. split; [fold N; nia|].
    split; [intros; lia|].
    intros i Hi. apply repeat_lookup. fold N. nia.
  - intros j [lens0 buf0] [lens2 buf2] Hj (Hl1 & Hl2 & Hslots & Hfresh) Hbody.
    cbn [fst snd] in *. unfold expand_sequence in Hbody.
    apply bind_Ok in Hbody as (l & Hl & Hbody). apply at_index_Ok in Hl as [_ Hl].
    apply bind_Ok in Hbody as (e & Hinner & Hbody). cbn [fst snd] in *.
    injection Hbody as <- <-.
    assert (HlE : 2 * Z.of_nat (length l) + 1 <= E)
      by (apply HE, list_elem_of_In, list_elem_of_lookup; eauto).
    assert (HjE : 0 <= j * E) by nia.
    assert (Hnext : (j + 1) * E = j * E + E) by ring.
    assert (Hroom : (j + 1) * E <= N * E) by (unfold N; nia).
    apply expand_sequence_inner_slot in Hinner as (Hlen & Hodd & Heven & Hrest);
      [|exact HjE|lia].
    unfold P. cbn [fst snd]. rewrite !length_insert.
    split; [exact Hl1|]. split; [congruence|]. split.
    + intros s l' Hs Hl'. destruct (decide (s = Z.to_nat j)) as [->|Hne].
      * rewrite Hl in Hl'. injection Hl' as <-. rewrite Z2Nat.id by lia.
        split; [apply list_lookup_insert_eq; lia|].
        repeat split.
        -- intros k Hk. rewrite list_lookup_insert_ne by lia. apply Hodd, Hk.
        -- intros k Hk. destruct (decide (k = length l)) as [->|Hkl].
           ++ apply list_lookup_insert_eq. lia.
           ++ rewrite list_lookup_insert_ne by lia. apply Heven. lia.
        -- intros i Hi. rewrite list_lookup_insert_ne by lia.
           rewrite Hrest by lia. apply Hfresh. lia.
      * destruct (Hslots s l' ltac:(lia) Hl') as [Hlen' Hslot].
        split; [rewrite list_lookup_insert_ne by lia; exact Hlen'|].
        assert (Z.of_nat s * E + E <= j * E) by nia.
        apply (slot_holds_preserved buf0 _ _ _ (j * E)); try assumption; try nia.
        -- apply HE, list_elem_of_In, list_elem_of_lookup; eauto.
        -- intros i Hi. rewrite list_lookup_insert_ne by lia. apply Hrest. lia.
    + intros i Hi. rewrite list_lookup_insert_ne by lia.
      rewrite Hrest by lia. apply Hfresh. lia.
Qed.

Lemma expand_labels_parallel_layout_witness :
  exists exp_len_labels label_lengths_utt label_expand,
    expand_labels_parallel 10 2 [[3; 4]; [5]]
      = Ok (exp_len_labels, label_lengths_utt, label_expand)
    /\ label_expand = [0; 3; 0; 4; 0; 0; 5; 0; -1; -1]
    /\ length label_lengths_utt = length ([[3; 4]; [5]] : list (list Z)).
Proof.
  destruct (expand_labels_parallel_layout 10 [[3; 4]; [5]]) as (E & lens & buf & H).
  - intros (l & x & Hl & Hx & Hge). simpl in Hl.
    destruct Hl as [<-|[<-|[]]]; simpl in Hx.
    + destruct Hx as [<-|[<-|[]]]; lia.
    + destruct Hx as [<-|[]]; lia.
  - exists E, lens, buf. destruct H as (Hrun & _ & _ & Hlen & _).
    split; [exact Hrun|]. split; [|exact Hlen].
    vm_compute in Hrun. injection Hrun as _ _ <-. reflexivity.
Defined.

(** ** The objective clamp of [Eval] *)

(** X5. [Eval] clamps the log-likelihood before it is subtracted from the
    objective: a log-likelihood that is a number, the two infinities
    included, is brought into [-10000, 10000], so that one call moves the
    objective by a bounded amount; a NaN passes both comparisons unchanged
    and makes the objective a NaN. The clamp is
    idempotent, and what is added to [obj_] is the opposite of the clamped
    value, widened to [double]. *)
Theorem clamp_pzx_bounds :
  forall pzx : BaseFloat,
    (is_nan pzx = false ->
       le (float_of_int (-10000)) (clamp_pzx pzx) = true
       /\ le (clamp_pzx pzx) (float_of_int 10000) = true)
    /\ (is_nan pzx = true -> clamp_pzx pzx = pzx)
    /\ clamp_pzx (clamp_pzx pzx) = clamp_pzx pzx
    /\ (forall (c : CtcState) (net_out ctc_err : Matrix),
          obj_ (fst (Eval_tail c net_out ctc_err pzx))
          = dadd (obj_ c) (to_double (SFopp (clamp_pzx pzx))))
    /\ (is_nan pzx = true ->
        forall (c : CtcState) (net_out ctc_err : Matrix),
          is_nan (obj_ (fst (Eval_tail c net_out ctc_err pzx))) = true).
Proof.
  intros pzx.
  assert (Hobj : forall (c : CtcState) (net_out ctc_err : Matrix),
            obj_ (fst (Eval_tail c net_out ctc_err pzx))
            = dadd (obj_ c) (to_double (SFopp (clamp_pzx pzx)))).
  { intros c net_out ctc_err. unfold Eval_tail, progressive_report. cbn [fst].
    destruct (_ <=? _); reflexivity. }
  assert (Hb : is_nan pzx = false ->
               le (float_of_int (-10000)) (clamp_pzx pzx) = true
               /\ le (clamp_pzx pzx) (float_of_int 10000) = true).
  { intros Hn. unfold clamp_pzx.
    destruct (lt pzx (float_of_int (-10000))) eqn:Hlow.
    - vm_compute. auto.
    - destruct (lt (float_of_int 10000) pzx) eqn:Hhigh.
      + vm_compute. auto.
      + split; apply not_lt_le; try assumption; reflexivity. }
  split; [exact Hb|]. split; [|split; [|split; [exact Hobj|]]].
  - intros Hn. destruct pzx; try discriminate. reflexivity.
  - assert (E : clamp_pzx pzx = pzx \/ clamp_pzx pzx = float_of_int (-10000)
                \/ clamp_pzx pzx = float_of_int 10000).
    { unfold clamp_pzx. destruct (lt pzx (float_of_int (-10000))); [right; left; reflexivity|].
      destruct (lt (float_of_int 10000) pzx); auto. }
    destruct E as [E|[E|E]]; rewrite E; [exact E | reflexivity | reflexivity].
  - intros Hn c net_out ctc_err. rewrite Hobj.
    destruct pzx; try discriminate. destruct (obj_ c); reflexivity.
Qed.

Lemma clamp_pzx_bounds_witness :
  le (float_of_int (-10000)) (clamp_pzx (S754_infinity true)) = true
  /\ le (clamp_pzx (S754_infinity true)) (float_of_int 10000) = true.
Proof.
  apply (proj1 (clamp_pzx_bounds (S754_infinity true))). reflexivity.
Defined.

(** ** The progress report over a run of calls *)

(** A run of [Eval] calls, each given what its kernels produced. *)
Definition Eval_tail_run (c : CtcState) (calls : list (Matrix * Matrix * BaseFloat))
    : CtcState :=
  fold_left (fun c call => fst (Eval_tail c (fst (fst call)) (snd (fst call)) (snd call)))
    calls c.

(** The progress reports a trace holds. *)
Fixpoint progress_reports (tr : list Event) : Z :=
  match tr with
  | [] => 0
  | LogProgress _ :: tr' => 1 + progress_reports tr'
  | _ :: tr' => progress_reports tr'
  end.

(** Sums of [int32] counters. *)
Lemma int32_small (z : Z) : -2147483648 <= z <= 2147483647 -> int32 z = z.
Proof.
  intros Hz. unfold int32. rewrite Z.mod_small by lia. lia.
Qed.

Lemma int32_add_l (a b : Z) : int32 (int32 a + b) = int32 (a + b).
Proof.
  unfold int32.
  replace ((a + 2147483648) mod 4294967296 - 2147483648 + b + 2147483648)
    with ((a + 2147483648) mod 4294967296 + b) by lia.
  rewrite Zplus_mod_idemp_l. f_equal. f_equal. lia.
Qed.

Lemma Eval_tail_progress (c : CtcState) (net_out ctc_err : Matrix) (pzx : BaseFloat) :
  0 <= sequences_progress_ c < report_step_ c ->
  report_step_ c <= 2147483647 ->
  let c' := fst (Eval_tail c net_out ctc_err pzx) in
  report_step_ c' = report_step_ c
  /\ sequences_num_ c' = int32 (sequences_num_ c + 1)
  /\ ((sequences_progress_ c + 1 < report_step_ c
       /\ sequences_progress_ c' = sequences_progress_ c + 1
       /\ progress_reports (trace_ c') = progress_reports (trace_ c))
      \/ (report_step_ c <= sequences_progress_ c + 1
          /\ sequences_progress_ c' = 0
          /\ progress_reports (trace_ c') = progress_reports (trace_ c) + 1)).
Proof.
  intros Hsp Hrs. unfold Eval_tail, progressive_report. cbn [fst].
  set (c1 := add_frames _ (add_sequences 1 (add_objective _ c))).
  assert (Hr : report_step_ c1 = report_step_ c) by reflexivity.
  assert (Hn : sequences_num_ c1 = int32 (sequences_num_ c + 1)) by reflexivity.
  assert (Hp : sequences_progress_ c1 = sequences_progress_ c + 1)
    by (cbn; apply int32_small; lia).
  assert (Ht : trace_ c1 = trace_ c) by reflexivity.
  clearbody c1. rewrite Hr, Hp.
  destruct (Z.leb_spec (report_step_ c) (sequences_progress_ c + 1)) as [Hle|Hlt].
  - split; [exact Hr|]. split; [exact Hn|]. right.
    split; [exact Hle|]. split; [reflexivity|].
    cbn [trace_ reset_progress emit progress_reports]. rewrite Ht. lia.
  - split; [exact Hr|]. split; [exact Hn|]. left.
    split; [exact Hlt|]. split; [exact Hp | now rewrite Ht].
Qed.

(** X6. [Eval] reports every [report_step_] sequences: after [n] calls on a
    registry whose [int32] fields are in range and whose progress count is
    below a report step of at least 1, the progress count is
    [(sequences_progress_ + n) mod report_step_], the number of reports
    logged has grown by [(sequences_progress_ + n) / report_step_], and
    [sequences_num_], which a report does not reset, has grown by [n] in
    [int32] arithmetic: it wraps around where the sum leaves the range. *)
Theorem Eval_report_period :
  forall (calls : list (Matrix * Matrix * BaseFloat)) (c : CtcState),
    1 <= report_step_ c <= 2147483647 ->
    0 <= sequences_progress_ c < report_step_ c ->
    -2147483648 <= sequences_num_ c <= 2147483647 ->
    let n := Z.of_nat (length calls) in
    let c' := Eval_tail_run c calls in
    report_step_ c' = report_step_ c
    /\ sequences_num_ c' = int32 (sequences_num_ c + n)
    /\ sequences_progress_ c' = (sequences_progress_ c + n) mod report_step_ c
    /\ progress_reports (trace_ c')
       = progress_reports (trace_ c) + (sequences_progress_ c + n) / report_step_ c.
Proof.
  induction calls as [|[[net_out ctc_err] pzx] calls IH]; intros c Hk Hsp Hsn; cbv zeta.
  - cbn [Eval_tail_run fold_left length]. rewrite Z.add_0_r.
    rewrite Z.mod_small, Z.div_small, int32_small by lia. repeat split; lia.
  - cbn [Eval_tail_run fold_left fst snd].
    fold (Eval_tail_run (fst (Eval_tail c net_out ctc_err pzx)) calls).
    destruct (Eval_tail_progress c net_out ctc_err pzx) as (Hk1 & Hn1 & Hcase); [lia | lia |].
    cbv zeta in Hk1, Hn1, Hcase.
    set (c1 := fst (Eval_tail c net_out ctc_err pzx)) in *. clearbody c1.
    replace (Z.of_nat (length ((net_out, ctc_err, pzx) :: calls)))
      with (1 + Z.of_nat (length calls)) by (cbn [length]; lia).
    assert (Hsn1 : -2147483648 <= sequences_num_ c1 <= 2147483647).
    { rewrite Hn1. unfold int32.
      pose proof (Z.mod_pos_bound (sequences_num_ c + 1 + 2147483648) 4294967296). lia. }
    assert (Hnum : int32 (sequences_num_ c1 + Z.of_nat (length calls))
                   = int32 (sequences_num_ c + (1 + Z.of_nat (length calls)))).
    { rewrite Hn1, int32_add_l. f_equal. lia. }
    destruct Hcase as [(Hlt & Hs1 & Hr1)|(Hge & Hs1 & Hr1)].
    + destruct (IH c1) as (E1 & E2 & E3 & E4); [lia | lia | lia |].
      cbv zeta in E1, E2, E3, E4. rewrite E1, E2, E3, E4, Hk1, Hnum, Hs1, Hr1.
      replace (sequences_progress_ c + (1 + Z.of_nat (length calls)))
        with (sequences_progress_ c + 1 + Z.of_nat (length calls)) by lia.
      repeat split; lia.
    + assert (Hk' : sequences_progress_ c + 1 = report_step_ c) by lia.
      destruct (IH c1) as (E1 & E2 & E3 & E4); [lia | lia | lia |].
      cbv zeta in E1, E2, E3, E4. rewrite E1, E2, E3, E4, Hk1, Hnum, Hs1, Hr1.
      replace (sequences_progress_ c + (1 + Z.of_nat (length calls)))
        with (1 * report_step_ c + Z.of_nat (length calls)) by lia.
      rewrite Z.div_add_l by lia.
      rewrite (Z.add_comm (1 * report_step_ c)), Z_mod_plus_full.
      rewrite !Z.add_0_l. repeat split; lia.
Qed.

(** A registry that has seen 2147483647 sequences, one short of its next
    report. *)
Definition late_state : CtcState :=
  mkCtc zero zero 0 0 2147483647 1 0 0 2 0 100 zero zero zero zero [].

Lemma Eval_report_period_witness :
  sequences_num_
    (Eval_tail_run late_state
       (repeat (mkMatrix 1 [[float_of_int 1]], mkMatrix 1 [[zero]], float_of_int (-7)) 5))
  = int32 (sequences_num_ late_state + 5)
  /\ sequences_progress_
       (Eval_tail_run late_state
          (repeat (mkMatrix 1 [[float_of_int 1]], mkMatrix 1 [[zero]], float_of_int (-7)) 5))
     = (sequences_progress_ late_state + 5) mod report_step_ late_state.
Proof.
  refine ((fun H => conj (proj1 (proj2 H)) (proj1 (proj2 (proj2 H))))
            (Eval_report_period
               (repeat (mkMatrix 1 [[float_of_int 1]], mkMatrix 1 [[zero]], float_of_int (-7)) 5)
               late_state _ _ _)).
  - simpl. lia.
  - simpl. lia.
  - simpl. lia.
Defined.

(** ** What the calls count *)

(** The frames of a batch, as [frames_ += frame_num_utt[s]] adds them. *)
Definition total_frames (frame_num_utt : list Z) : Z := fold_right Z.add 0 frame_num_utt.

Lemma total_frames_app l1 l2 : total_frames (l1 ++ l2) = total_frames l1 + total_frames l2.
Proof. unfold total_frames. induction l1; simpl; lia. Qed.

Lemma total_frames_take_S (l : list Z) (j : nat) (x : Z) :
  l !! j = Some x -> total_frames (take (S j) l) = total_frames (take j l) + x.
Proof.
  intros H. rewrite (take_S_r _ _ _ H), total_frames_app. simpl. lia.
Qed.

Definition same_counters_but_frames (fn : Z) (c c' : CtcState) : Prop :=
  frames_ c' = int32 (frames_ c + fn) /\ frames_progress_ c' = int32 (frames_progress_ c + fn)
  /\ sequences_num_ c' = sequences_num_ c /\ sequences_progress_ c' = sequences_progress_ c
  /\ report_step_ c' = report_step_ c /\ stat_period_ c' = stat_period_ c.

Lemma avg_utt_counts utt fnu pzx s st st' :
  avg_utt utt fnu pzx s st = Ok st' ->
  exists fn, at_index fnu s = Ok fn /\ same_counters_but_frames fn (fst st) (fst st').
Proof.
  intros H. unfold avg_utt in H.
  apply bind_Ok in H as (x & _ & H).
  apply bind_Ok in H as (fn & Hfn & H).
  apply bind_Ok in H as ([c1 d1] & Hdec & H). injection H as <-.
  exists fn. split; [exact Hfn|]. unfold avg_decide in Hdec.
  destruct (normal_num_ (fst st) <? stat_period_ (fst st) ÷ 2).
  - destruct (KALDI_ISFINITE x && lt zero x && lt x (float_of_int 3000));
      injection Hdec as <- <-; repeat split.
  - destruct (KALDI_ISFINITE x && within_six_sigma _ _ && _).
    + injection Hdec as <- <-.
      cbn [normal_num_ set_normal_num add_loss add_objective emit stat_period_].
      destruct (_ =? _); repeat split.
    + apply bind_Ok in Hdec as (name & _ & Hdec).
      apply bind_Ok in Hdec as (d2 & _ & Hdec). injection Hdec as <- <-. repeat split.
Qed.

Lemma sum_utt_counts utt fnu pzx s st st' :
  sum_utt utt fnu pzx s st = Ok st' ->
  exists fn, at_index fnu s = Ok fn /\ same_counters_but_frames fn (fst st) (fst st').
Proof.
  intros H. unfold sum_utt in H.
  apply bind_Ok in H as (x & _ & H).
  apply bind_Ok in H as (fn & Hfn & H).
  apply bind_Ok in H as ([c1 d1] & Hdec & H). injection H as <-.
  exists fn. split; [exact Hfn|].
  destruct (lt (float_of_int 3000) x || lt x zero).
  - apply bind_Ok in Hdec as (name & _ & Hdec).
    apply bind_Ok in Hdec as (d2 & _ & Hdec). injection Hdec as <- <-. repeat split.
  - injection Hdec as <- <-. repeat split.
Qed.

Lemma only_utt_counts fnu pzx s st st' :
  only_utt fnu pzx s st = Ok st' ->
  exists fn, at_index fnu s = Ok fn /\ same_counters_but_frames fn (fst st) (fst st').
Proof.
  intros H. unfold only_utt in H.
  apply bind_Ok in H as (x & _ & H).
  apply bind_Ok in H as (fn & Hfn & H). injection H as <-.
  exists fn. split; [exact Hfn|]. repeat split.
Qed.

(** A loop over the utterances, at least one, whose body counts the frames
    of utterance [s] and nothing else has counted the frames of all of
    them. *)
Lemma utterance_loop_counts (fnu : list Z)
    (body : Z -> CtcState * Matrix -> Result (CtcState * Matrix)) st st' :
  (forall s st st', body s st = Ok st' ->
     exists fn, at_index fnu s = Ok fn /\ same_counters_but_frames fn (fst st) (fst st')) ->
  fnu <> [] ->
  for_loop (length fnu) 0 body st = Ok st' ->
  same_counters_but_frames (total_frames fnu) (fst st) (fst st').
Proof.
  intros Hbody Hne Hloop.
  set (P := fun (j : Z) (s : CtcState * Matrix) =>
    (j = 0 /\ s = st)
    \/ (0 < j /\ same_counters_but_frames (total_frames (take (Z.to_nat j) fnu))
                   (fst st) (fst s))).
  assert (HP : P (0 + Z.of_nat (length fnu)) st').
  { apply (for_loop_invariant P body (length fnu) 0 st); [| |exact Hloop].
    - left. split; reflexivity.
    - intros j s s' Hj HPj Hstep. right. split; [lia|].
      destruct (Hbody _ _ _ Hstep) as (fn & Hfn & Hc).
      apply at_index_Ok in Hfn as [Hj0 Hfn].
      replace (Z.to_nat (j + 1)) with (S (Z.to_nat j)) by lia.
      rewrite (total_frames_take_S _ _ _ Hfn).
      destruct HPj as [[-> ->]|[Hpos HPj]].
      + rewrite take_0. exact Hc.
      + unfold same_counters_but_frames in *.
        destruct Hc as (F1 & F2 & R), HPj as (G1 & G2 & G).
        rewrite F1, F2, G1, G2, !int32_add_l, !Z.add_assoc.
        split; [reflexivity|]. split; [reflexivity|].
        repeat split; lia. }
  destruct HP as [[H0 _]|[_ HP]]; [destruct fnu; [congruence | simpl in H0; lia]|].
  replace (Z.to_nat (0 + Z.of_nat (length fnu))) with (length fnu) in HP by lia.
  now rewrite firstn_all in HP.
Qed.

(** The three policies count alike: the frame count of every utterance,
    the number of sequences, and nothing written to the report step or the
    window length. *)
Lemma stats_policy_counts :
  forall (check : GradCheck) (utt : list string) (frame_num_utt : list Z)
         (pzx_host : list BaseFloat) (c c' : CtcState) (diff diff' : Matrix),
    frame_num_utt <> [] ->
    stats_policy check utt frame_num_utt pzx_host (c, diff) = Ok (c', diff') ->
    frames_ c' = int32 (frames_ c + total_frames frame_num_utt)
    /\ frames_progress_ c' = int32 (frames_progress_ c + total_frames frame_num_utt)
    /\ sequences_num_ c' = int32 (sequences_num_ c + Z.of_nat (length frame_num_utt))
    /\ sequences_progress_ c'
       = int32 (sequences_progress_ c + Z.of_nat (length frame_num_utt))
    /\ report_step_ c' = report_step_ c
    /\ stat_period_ c' = stat_period_ c.
Proof.
  intros check utt fnu pzx c c' diff diff' Hne Hrun.
  assert (H : exists st1 : CtcState * Matrix, same_counters_but_frames (total_frames fnu) c (fst st1)
                          /\ c' = add_sequences (Z.of_nat (length fnu)) (fst st1)).
  { destruct check; cbn [stats_policy] in Hrun.
    - unfold StatAndLossCheck in Hrun.
      apply bind_Ok in Hrun as (st1 & Hloop & Hrun). injection Hrun as <- _.
      exists st1. split; [|reflexivity].
      apply (utterance_loop_counts fnu _ (c, diff) st1 (sum_utt_counts utt fnu pzx) Hne Hloop).
    - unfold StatAndAverageLossCheck in Hrun.
      apply bind_Ok in Hrun as (st1 & Hloop & Hrun). injection Hrun as <- _.
      exists (finite_guard st1). split; [|reflexivity].
      pose proof (utterance_loop_counts fnu _ (c, diff) st1 (avg_utt_counts utt fnu pzx)
                    Hne Hloop) as Hc.
      unfold finite_guard. destruct (negb _); [|exact Hc]. exact Hc.
    - unfold StatOnly in Hrun.
      apply bind_Ok in Hrun as (st1 & Hloop & Hrun). injection Hrun as <- _.
      exists st1. split; [|reflexivity].
      apply (utterance_loop_counts fnu _ (c, diff) st1 (only_utt_counts fnu pzx) Hne Hloop). }
  destruct H as (st1 & Hc & ->). unfold same_counters_but_frames in Hc.
  destruct Hc as (F1 & F2 & S1 & S2 & R1 & R2). cbn.
  rewrite F1, F2, S1, S2, R1, R2. repeat split.
Qed.

Lemma progressive_report_counts (c : CtcState) :
  sequences_num_ (progressive_report c) = sequences_num_ c
  /\ frames_ (progressive_report c) = frames_ c
  /\ obj_ (progressive_report c) = obj_ c.
Proof. unfold progressive_report. destruct (_ <=? _); repeat split. Qed.

Section CountedCalls.

Variable ApplyLog : Matrix -> Matrix.
Variable ExpA : BaseFloat -> BaseFloat.
Variable log_ : BaseFloat -> BaseFloat.
Variable LogAPlusB : double -> double -> double.
Variable log_zero_ : BaseFloat.
Variable ComputeCtcAlpha : Matrix -> Matrix -> Z -> list Z -> bool -> Matrix.
Variable ComputeCtcBeta : Matrix -> Matrix -> Z -> list Z -> bool -> Matrix.
Variable ComputeCtcError :
  Matrix -> Matrix -> Matrix -> Matrix -> list Z -> BaseFloat -> Matrix.
Variable ComputeCtcAlphaMSeq : Matrix -> Matrix -> Z -> list Z -> list Z -> Matrix.
Variable ComputeCtcBetaMSeq : Matrix -> Matrix -> Z -> list Z -> list Z -> list Z -> Matrix.
Variable ComputeCtcErrorMSeq :
  Matrix -> Matrix -> Matrix -> Matrix -> list Z -> list Z -> list BaseFloat -> Matrix.
Variable CTC_GRAD_CHECK : GradCheck.

Local Abbreviation Eval_ :=
  (Eval ApplyLog ExpA log_ ComputeCtcAlpha ComputeCtcBeta ComputeCtcError).
Local Abbreviation EvalParallel_ :=
  (EvalParallel ApplyLog LogAPlusB log_zero_ ComputeCtcAlphaMSeq ComputeCtcBetaMSeq
     ComputeCtcErrorMSeq CTC_GRAD_CHECK).

(** X7. What a call that returns has counted. [Eval] counts one sequence and
    every row of [net_out] as a frame. [EvalParallel] counts the sequences
    of the batch and, as frames, the frame counts [frame_num_utt] of the
    utterances, not the rows of the padded [net_out]; it does so under each
    of the three policies and whether or not the policy has kept the loss
    and the gradient of an utterance. The counts are [int32] sums, which
    wrap around where they leave the range. The progress report resets
    neither count. *)
Theorem calls_count_sequences_and_frames :
  forall (c c' : CtcState) (diff : Matrix),
    (forall (net_out : Matrix) (label : list Z),
       Eval_ c net_out label = Ok (c', diff) ->
       sequences_num_ c' = int32 (sequences_num_ c + 1)
       /\ frames_ c' = int32 (frames_ c + NumRows net_out))
    /\ (forall (utt : list string) (frame_num_utt : list Z) (net_out : Matrix)
               (label : list (list Z)),
          EvalParallel_ c utt frame_num_utt net_out label = Ok (c', diff) ->
          sequences_num_ c' = int32 (sequences_num_ c + Z.of_nat (length frame_num_utt))
          /\ frames_ c' = int32 (frames_ c + total_frames frame_num_utt)).
Proof.
  intros c c' diff. split.
  - intros net_out label Hrun. unfold Eval in Hrun.
    apply bind_Ok in Hrun as (e & _ & Hrun).
    apply bind_Ok in Hrun as (tmp1 & _ & Hrun).
    apply bind_Ok in Hrun as (tmp2 & _ & Hrun).
    injection Hrun as <- _.
    destruct (progressive_report_counts
                (add_frames (NumRows net_out)
                   (add_sequences 1
                      (add_objective
                         (to_double (SFopp (clamp_pzx
                            (fadd tmp1 (log_ (fadd (float_of_int 1)
                                                (ExpA (fsub tmp2 tmp1)))))))) c))))
      as (H1 & H2 & _).
    split; [exact H1 | exact H2].
  - intros utt fnu net_out labels Hrun. unfold EvalParallel in Hrun.
    apply bind_Ok in Hrun as (u & Hu & Hrun).
    assert (Hne : fnu <> []) by (intros ->; discriminate).
    apply bind_Ok in Hrun as ([[el lens] buf] & _ & Hrun).
    apply bind_Ok in Hrun as (pzx & _ & Hrun).
    unfold EvalParallel_tail in Hrun.
    apply bind_Ok in Hrun as ([c1 d1] & Hpol & Hrun). injection Hrun as <- _.
    apply stats_policy_counts in Hpol as (F1 & _ & S1 & _); [|exact Hne].
    destruct (progressive_report_counts c1) as (H1 & H2 & _).
    rewrite H1, H2. split; [exact S1 | exact F1].
Qed.

End CountedCalls.

(** A registry that has counted 2147483647 frames. *)
Definition full_state : CtcState :=
  mkCtc zero zero 2147483647 0 0 0 0 0 100 0 100 zero zero zero zero [].

Lemma calls_count_sequences_and_frames_witness :
  exists c' diff,
    EvalParallel (fun m => m) (fun x _ => x) zero (fun m _ _ _ _ => m)
      (fun m _ _ _ _ _ => m) (fun m _ _ _ _ _ _ => m) SUM_LOSS_CHECK
      full_state ["a"%string; "b"%string] [1; 1]
      (mkMatrix 2 [[float_of_int 1; zero]; [zero; float_of_int 1]]) [[1]; [0]]
    = Ok (c', diff)
    /\ sequences_num_ c' = int32 (sequences_num_ full_state + 2)
    /\ frames_ c' = int32 (frames_ full_state + total_frames [1; 1])
    /\ frames_ c' = -2147483647.
Proof.
  eexists. eexists. split; [vm_compute; reflexivity|].
  split; [|split; [|reflexivity]].
  - refine (proj1 (proj2 (calls_count_sequences_and_frames (fun m => m) (fun x => x)
                   (fun x => x)
                   (fun x _ => x) zero idle_row_kernel idle_row_kernel idle_error_kernel
                   (fun m _ _ _ _ => m) (fun m _ _ _ _ _ => m) (fun m _ _ _ _ _ _ => m)
                   SUM_LOSS_CHECK full_state _ _)
            ["a"%string; "b"%string] [1; 1]
            (mkMatrix 2 [[float_of_int 1; zero]; [zero; float_of_int 1]]) [[1]; [0]] _)).
    vm_compute. reflexivity.
  - refine (proj2 (proj2 (calls_count_sequences_and_frames (fun m => m) (fun x => x)
                   (fun x => x)
                   (fun x _ => x) zero idle_row_kernel idle_row_kernel idle_error_kernel
                   (fun m _ _ _ _ => m) (fun m _ _ _ _ _ => m) (fun m _ _ _ _ _ _ => m)
                   SUM_LOSS_CHECK full_state _ _)
            ["a"%string; "b"%string] [1; 1]
            (mkMatrix 2 [[float_of_int 1; zero]; [zero; float_of_int 1]]) [[1]; [0]] _)).
    vm_compute. reflexivity.
Defined.

(** ** Signs of rounded results *)

(** [x] is a number whose sign bit is [s]. *)
Definition has_sign (s : bool) (x : spec_float) : Prop :=
  match x with
  | S754_zero s' | S754_infinity s' | S754_finite s' _ _ => s' = s
  | S754_nan => False
  end.

Lemma shr_1_nonneg (mrs : shr_record) : 0 <= shr_m mrs -> 0 <= shr_m (shr_1 mrs).
Proof.
  destruct mrs as [m r s]. simpl. destruct m as [|[p|p|]|[p|p|]]; simpl; lia.
Qed.

Lemma iter_shr_1_nonneg (p : positive) (mrs : shr_record) :
  0 <= shr_m mrs -> 0 <= shr_m (SpecFloat.iter_pos shr_1 p mrs).
Proof.
  revert mrs. induction p as [p IH|p IH|]; intros mrs H; simpl.
  - apply IH, IH, shr_1_nonneg, H.
  - apply IH, IH, H.
  - apply shr_1_nonneg, H.
Qed.

Lemma shr_fexp_nonneg prec emax (m e : Z) (l : location) :
  0 <= m -> 0 <= shr_m (fst (shr_fexp prec emax m e l)).
Proof.
  intros H. unfold shr_fexp, shr.
  assert (H0 : 0 <= shr_m (shr_record_of_loc m l)) by (destruct l as [|[]]; exact H).
  destruct (fexp prec emax (Zdigits2 m + e) - e); simpl; [exact H0| |exact H0].
  apply iter_shr_1_nonneg, H0.
Qed.

Lemma round_nearest_even_nonneg (m : Z) (l : location) :
  0 <= m -> 0 <= round_nearest_even m l.
Proof.
  intros H. destruct l as [|[]]; simpl; try lia. destruct (Z.even m); lia.
Qed.

(** A non-negative mantissa rounds to a number of the requested sign. *)
Lemma binary_round_aux_sign prec emax (sx : bool) (mx ex : Z) (lx : location) :
  0 <= mx -> has_sign sx (binary_round_aux prec emax sx mx ex lx).
Proof.
  intros H. unfold binary_round_aux.
  pose proof (shr_fexp_nonneg prec emax mx ex lx H) as H1.
  destruct (shr_fexp prec emax mx ex lx) as [mrs1 e1]. simpl in H1.
  pose proof (shr_fexp_nonneg prec emax
                (round_nearest_even (shr_m mrs1) (loc_of_shr_record mrs1)) e1 loc_Exact
                (round_nearest_even_nonneg _ _ H1)) as H2.
  destruct (shr_fexp prec emax _ e1 loc_Exact) as [mrs2 e2]. simpl in H2.
  destruct (shr_m mrs2); [reflexivity| |lia].
  destruct (e2 <=? emax - prec); reflexivity.
Qed.

Lemma binary_round_sign prec emax (sx : bool) (mx : positive) (ex : Z) :
  has_sign sx (binary_round prec emax sx mx ex).
Proof.
  unfold binary_round. destruct (shl_align _ _ _) as [mz ez].
  apply binary_round_aux_sign. lia.
Qed.

(** The sum of two numbers that are not negative is not negative, and is
    a number: an infinity can only meet an infinity of its own sign. *)
Lemma SFadd_sign prec emax (x y : spec_float) :
  has_sign false x -> has_sign false y -> has_sign false (SFadd prec emax x y).
Proof.
  destruct x as [sx|sx| |sx mx ex], y as [sy|sy| |sy my ey]; simpl;
    try tauto; intros -> ->; try reflexivity.
  apply binary_round_sign.
Qed.

(** The widening of a [float] to [double] keeps the sign. *)
Lemma to_double_sign (s : bool) (x : BaseFloat) : has_sign s x -> has_sign s (to_double x).
Proof.
  destruct x as [sx|sx| |sx mx ex]; simpl; try tauto.
  intros ->. apply binary_round_sign.
Qed.

Lemma has_sign_not_nan s x : has_sign s x -> is_nan x = false.
Proof. destruct x; simpl; tauto. Qed.

(** A loss above zero is a positive number or the positive infinity. *)
Lemma lt_zero_sign (x : spec_float) : lt zero x = true -> has_sign false x.
Proof.
  destruct x as [sx|[]| |[] mx ex]; simpl; try discriminate; reflexivity.
Qed.

(** A loss that is not below zero is a NaN or is not negative, the
    negative zero apart. *)
Lemma not_lt_zero_sign (x : spec_float) :
  lt x zero = false -> is_nan x = false ->
  has_sign false x \/ x = S754_zero true.
Proof.
  destruct x as [[]|[]| |[] mx ex]; simpl; try discriminate; auto.
Qed.

Lemma SFadd_nan_r prec emax (x : spec_float) : SFadd prec emax x S754_nan = S754_nan.
Proof. destruct x; reflexivity. Qed.

Lemma SFadd_neg_zero prec emax (x : spec_float) :
  has_sign false x -> has_sign false (SFadd prec emax x (S754_zero true)).
Proof. destruct x as [[]|[]| |[] mx ex]; simpl; try discriminate; tauto. Qed.

(** ** The objective under the three policies *)

(** What one utterance of the windowed policy does to the objective: it
    leaves [obj_] and [obj_progress_] alone, or adds a loss above zero to
    both. *)
Lemma avg_utt_objective utt fnu pzx s st st' :
  avg_utt utt fnu pzx s st = Ok st' ->
  (obj_ (fst st') = obj_ (fst st) /\ obj_progress_ (fst st') = obj_progress_ (fst st))
  \/ exists x, lt zero x = true
       /\ obj_ (fst st') = dadd (obj_ (fst st)) (to_double x)
       /\ obj_progress_ (fst st') = dadd (obj_progress_ (fst st)) (to_double x).
Proof.
  intros H. unfold avg_utt in H.
  apply bind_Ok in H as (x & _ & H).
  apply bind_Ok in H as (fn & _ & H).
  apply bind_Ok in H as ([c1 d1] & Hdec & H). injection H as <-.
  unfold avg_decide in Hdec.
  destruct (normal_num_ (fst st) <? stat_period_ (fst st) ÷ 2).
  - destruct (KALDI_ISFINITE x && lt zero x && lt x (float_of_int 3000)) eqn:G;
      injection Hdec as <- <-; [|left; split; reflexivity].
    apply andb_prop in G as [G _]. apply andb_prop in G as [_ G].
    right. exists x. repeat split. exact G.
  - destruct (KALDI_ISFINITE x && within_six_sigma _ _ && (lt zero x && _)) eqn:G.
    + injection Hdec as <- <-.
      apply andb_prop in G as [_ G]. apply andb_prop in G as [G _].
      right. exists x. split; [exact G|].
      cbn [normal_num_ set_normal_num add_loss add_objective emit stat_period_].
      destruct (_ =? _); split; reflexivity.
    + apply bind_Ok in Hdec as (name & _ & Hdec).
      apply bind_Ok in Hdec as (d2 & _ & Hdec). injection Hdec as <- <-.
      left. split; reflexivity.
Qed.

(** X8. The windowed average-loss policy only ever adds losses above zero to
    the objective: an objective that is not negative (zero, a positive
    number or the positive infinity) is not negative after the call, and in
    particular is never a NaN, whatever the losses of the batch are. The same
    holds of the progress objective. *)
Theorem StatAndAverageLossCheck_objective_sign :
  forall (utt : list string) (frame_num_utt : list Z) (pzx_host : list BaseFloat)
         (c c' : CtcState) (diff diff' : Matrix),
    has_sign false (obj_ c) -> has_sign false (obj_progress_ c) ->
    StatAndAverageLossCheck utt frame_num_utt pzx_host (c, diff) = Ok (c', diff') ->
    has_sign false (obj_ c') /\ has_sign false (obj_progress_ c')
    /\ is_nan (obj_ c') = false.
Proof.
  intros utt fnu pzx c c' diff diff' Ho Hp Hrun.
  unfold StatAndAverageLossCheck in Hrun.
  apply bind_Ok in Hrun as (st1 & Hloop & Hrun). injection Hrun as <- _.
  set (P := fun (_ : Z) (st : CtcState * Matrix) =>
    has_sign false (obj_ (fst st)) /\ has_sign false (obj_progress_ (fst st))).
  assert (HP : P (0 + Z.of_nat (length fnu)) st1).
  { apply (for_loop_invariant P (avg_utt utt fnu pzx) (length fnu) 0 (c, diff));
      [split; assumption | | exact Hloop].
    intros j st st' _ [H1 H2] Hstep.
    unfold P.
    apply avg_utt_objective in Hstep as [[-> ->]|(x & Hx & -> & ->)]; [split; assumption|].
    apply lt_zero_sign, to_double_sign in Hx.
    split; apply SFadd_sign; assumption. }
  destruct HP as [H1 H2].
  assert (H : has_sign false (obj_ (fst (finite_guard st1)))
              /\ has_sign false (obj_progress_ (fst (finite_guard st1)))).
  { unfold finite_guard. destruct (negb _); split; assumption. }
  destruct H as [H3 H4]. simpl. repeat split; try assumption.
  eapply has_sign_not_nan, H3.
Qed.

Lemma StatAndAverageLossCheck_objective_sign_witness :
  exists c' diff',
    StatAndAverageLossCheck ["u0"%string; "u1"%string; "u2"%string] [1; 1; 1]
      [float_of_int 20; S754_nan; float_of_int 9000]
      (fresh_state 2 100, mkMatrix 1 (repeat [float_of_int 1] 3)) = Ok (c', diff')
    /\ has_sign false (obj_ c') /\ has_sign false (obj_progress_ c')
    /\ is_nan (obj_ c') = false.
Proof.
  eexists. eexists. split; [vm_compute; reflexivity|].
  refine (StatAndAverageLossCheck_objective_sign
            ["u0"%string; "u1"%string; "u2"%string] [1; 1; 1]
            [float_of_int 20; S754_nan; float_of_int 9000]
            (fresh_state 2 100) _ (mkMatrix 1 (repeat [float_of_int 1] 3)) _ _ _ _).
  - reflexivity.
  - reflexivity.
  - vm_compute. reflexivity.
Defined.

Lemma lt_not_nan_l (x y : spec_float) : lt x y = true -> is_nan x = false.
Proof. destruct x; simpl; try reflexivity. discriminate. Qed.

Lemma lt_not_nan_r (x y : spec_float) : lt x y = true -> is_nan y = false.
Proof. destruct x, y; simpl; try reflexivity; discriminate. Qed.

Lemma to_double_nan (x : BaseFloat) : is_nan x = true -> to_double x = S754_nan.
Proof. destruct x; simpl; try discriminate. reflexivity. Qed.

(** One of the losses is a NaN. *)
Definition has_nan (losses : list BaseFloat) : bool := existsb is_nan losses.

Lemma has_nan_snoc (l : list BaseFloat) (x : BaseFloat) :
  has_nan (l ++ [x]) = has_nan l || is_nan x.
Proof. unfold has_nan. rewrite existsb_app. simpl. now rewrite orb_false_r. Qed.

(** What one utterance of the sum-threshold policy does to the objective:
    a rejected loss is a number and is left out, any other loss is added. *)
Lemma sum_utt_objective utt fnu pzx s st st' :
  sum_utt utt fnu pzx s st = Ok st' ->
  exists x, at_index pzx s = Ok x
    /\ ((is_nan x = false /\ obj_ (fst st') = obj_ (fst st))
        \/ (lt x zero = false /\ obj_ (fst st') = dadd (obj_ (fst st)) (to_double x))).
Proof.
  intros H. unfold sum_utt in H.
  apply bind_Ok in H as (x & Hx & H).
  apply bind_Ok in H as (fn & _ & H).
  apply bind_Ok in H as ([c1 d1] & Hdec & H). injection H as <-.
  exists x. split; [exact Hx|].
  destruct (lt (float_of_int 3000) x || lt x zero) eqn:G.
  - apply bind_Ok in Hdec as (name & _ & Hdec).
    apply bind_Ok in Hdec as (d2 & _ & Hdec). injection Hdec as <- <-.
    left. split; [|reflexivity].
    apply orb_prop in G as [G|G]; [eapply lt_not_nan_r, G | eapply lt_not_nan_l, G].
  - injection Hdec as <- <-. apply orb_false_elim in G as [_ G].
    right. split; [exact G | reflexivity].
Qed.

(** X9. The sum-threshold policy tests [pzx > 3000 || pzx < 0], which a NaN
    passes: starting from an objective that is not negative, the objective
    after the call is a NaN if one of the losses of the batch is a NaN, and
    is not negative otherwise. *)
Theorem StatAndLossCheck_objective_nan :
  forall (utt : list string) (frame_num_utt : list Z) (pzx_host : list BaseFloat)
         (c c' : CtcState) (diff diff' : Matrix),
    has_sign false (obj_ c) ->
    StatAndLossCheck utt frame_num_utt pzx_host (c, diff) = Ok (c', diff') ->
    if has_nan (take (length frame_num_utt) pzx_host)
    then is_nan (obj_ c') = true
    else has_sign false (obj_ c').
Proof.
  intros utt fnu pzx c c' diff diff' Ho Hrun.
  unfold StatAndLossCheck in Hrun.
  apply bind_Ok in Hrun as (st1 & Hloop & Hrun). injection Hrun as <- _.
  set (P := fun (j : Z) (st : CtcState * Matrix) =>
    if has_nan (take (Z.to_nat j) pzx)
    then is_nan (obj_ (fst st)) = true else has_sign false (obj_ (fst st))).
  assert (HP : P (0 + Z.of_nat (length fnu)) st1).
  { apply (for_loop_invariant P (sum_utt utt fnu pzx) (length fnu) 0 (c, diff));
      [exact Ho | | exact Hloop].
    intros j st st' Hj HPj Hstep. unfold P in *.
    apply sum_utt_objective in Hstep as (x & Hx & Hcase).
    apply at_index_Ok in Hx as [_ Hx].
    replace (Z.to_nat (j + 1)) with (S (Z.to_nat j)) by lia.
    rewrite (take_S_r _ _ _ Hx), has_nan_snoc.
    destruct Hcase as [[Hn ->]|[Hge ->]].
    - rewrite Hn, orb_false_r. exact HPj.
    - destruct (has_nan (take (Z.to_nat j) pzx)); cbn [orb]; cbv iota in *.
      + destruct (obj_ (fst st)); try discriminate HPj. reflexivity.
      + destruct (is_nan x) eqn:Hn; cbv iota.
        * rewrite (to_double_nan _ Hn). unfold dadd. now rewrite SFadd_nan_r.
        * destruct (not_lt_zero_sign x Hge Hn) as [Hs| ->].
          -- apply SFadd_sign; [exact HPj | apply to_double_sign, Hs].
          -- apply SFadd_neg_zero, HPj. }
  unfold P in HP. replace (Z.to_nat (0 + Z.of_nat (length fnu))) with (length fnu) in HP by lia.
  exact HP.
Qed.

Lemma StatAndLossCheck_objective_nan_witness :
  exists c' diff',
    StatAndLossCheck ["u0"%string; "u1"%string] [1; 1] [float_of_int 20; S754_nan]
      (fresh_state 2 100, mkMatrix 1 (repeat [float_of_int 1] 2)) = Ok (c', diff')
    /\ is_nan (obj_ c') = true.
Proof.
  eexists. eexists. split; [vm_compute; reflexivity|].
  exact (StatAndLossCheck_objective_nan ["u0"%string; "u1"%string] [1; 1]
           [float_of_int 20; S754_nan] (fresh_state 2 100) _
           (mkMatrix 1 (repeat [float_of_int 1] 2)) _
           (eq_refl : has_sign false (obj_ (fresh_state 2 100)))
           ltac:(vm_compute; reflexivity)).
Defined.

(** *** [Ctc::StatOnly] *)

(** The losses added one after the other, as [obj_ += pzx_host(s)] does. *)
Definition add_losses (obj : double) (losses : list BaseFloat) : double :=
  fold_left (fun acc x => dadd acc (to_double x)) losses obj.

Lemma add_losses_snoc obj l x : add_losses obj (l ++ [x]) = dadd (add_losses obj l) (to_double x).
Proof. unfold add_losses. now rewrite fold_left_app. Qed.

Lemma add_losses_nan (l : list BaseFloat) (obj : double) :
  is_nan obj = true \/ has_nan l = true -> is_nan (add_losses obj l) = true.
Proof.
  revert obj. induction l as [|x l IH]; intros obj H.
  - destruct H as [H|H]; [exact H | discriminate].
  - cbn [add_losses fold_left]. apply IH. unfold has_nan in *. cbn [existsb] in H.
    destruct (is_nan x) eqn:Hx.
    + left. rewrite (to_double_nan _ Hx). unfold dadd. now rewrite SFadd_nan_r.
    + destruct H as [H|H]; [|right; exact H].
      left. destruct obj; try discriminate H. reflexivity.
Qed.

(** X10. [StatOnly] takes every loss as it comes: after the call the objective
    is the old objective with the losses of the batch added one by one in
    [double], and the progress objective likewise; so one NaN among the
    losses, or a NaN objective before the call, leaves the objective a NaN. *)
Theorem StatOnly_adds_every_loss :
  forall (utt : list string) (frame_num_utt : list Z) (pzx_host : list BaseFloat)
         (c c' : CtcState) (diff diff' : Matrix),
    StatOnly utt frame_num_utt pzx_host (c, diff) = Ok (c', diff') ->
    obj_ c' = add_losses (obj_ c) (take (length frame_num_utt) pzx_host)
    /\ obj_progress_ c' = add_losses (obj_progress_ c) (take (length frame_num_utt) pzx_host)
    /\ (is_nan (obj_ c) = true
        \/ has_nan (take (length frame_num_utt) pzx_host) = true ->
        is_nan (obj_ c') = true).
Proof.
  intros utt fnu pzx c c' diff diff' Hrun.
  unfold StatOnly in Hrun.
  apply bind_Ok in Hrun as (st1 & Hloop & Hrun). injection Hrun as <- _.
  set (P := fun (j : Z) (st : CtcState * Matrix) =>
    obj_ (fst st) = add_losses (obj_ c) (take (Z.to_nat j) pzx)
    /\ obj_progress_ (fst st) = add_losses (obj_progress_ c) (take (Z.to_nat j) pzx)).
  assert (HP : P (0 + Z.of_nat (length fnu)) st1).
  { apply (for_loop_invariant P (only_utt fnu pzx) (length fnu) 0 (c, diff));
      [split; reflexivity | | exact Hloop].
    intros j st st' Hj [H1 H2] Hstep. unfold P. unfold only_utt in Hstep.
    apply bind_Ok in Hstep as (x & Hx & Hstep).
    apply bind_Ok in Hstep as (fn & _ & Hstep). injection Hstep as <-.
    apply at_index_Ok in Hx as [_ Hx].
    replace (Z.to_nat (j + 1)) with (S (Z.to_nat j)) by lia.
    rewrite (take_S_r _ _ _ Hx), !add_losses_snoc, <- H1, <- H2. split; reflexivity. }
  unfold P in HP. replace (Z.to_nat (0 + Z.of_nat (length fnu))) with (length fnu) in HP by lia.
  destruct HP as [H1 H2]. cbn [fst add_sequences obj_ obj_progress_].
  split; [exact H1|]. split; [exact H2|].
  rewrite H1. apply add_losses_nan.
Qed.

Lemma StatOnly_adds_every_loss_witness :
  exists c' diff',
    StatOnly ["u0"%string; "u1"%string] [1; 1] [float_of_int 20; S754_nan]
      (fresh_state 2 100, mkMatrix 1 (repeat [float_of_int 1] 2)) = Ok (c', diff')
    /\ is_nan (obj_ c') = true.
Proof.
  eexists. eexists. split; [vm_compute; reflexivity|].
  refine (proj2 (proj2 (StatOnly_adds_every_loss ["u0"%string; "u1"%string] [1; 1]
           [float_of_int 20; S754_nan] (fresh_state 2 100) _
           (mkMatrix 1 (repeat [float_of_int 1] 2)) _ _)) _).
  - vm_compute. reflexivity.
  - right. reflexivity.
Defined.

(** ** The window of the average-loss policy *)

Lemma half_window (p : Z) : 1 <= p -> 0 <= p ÷ 2 < p.
Proof.
  intros H. rewrite Z.quot_div_nonneg by lia.
  split; [apply Z.div_pos; lia | apply Z.div_lt; lia].
Qed.

(** One utterance moves [normal_num_] by at most one step, and the step
    that would reach [stat_period_] sets it back to the half window. *)
Lemma avg_utt_window utt fnu pzx s c diff c' diff' :
  avg_utt utt fnu pzx s (c, diff) = Ok (c', diff') ->
  stat_period_ c' = stat_period_ c
  /\ (normal_num_ c' = normal_num_ c
      \/ (normal_num_ c' = normal_num_ c + 1
          /\ (normal_num_ c < stat_period_ c ÷ 2 \/ normal_num_ c + 1 <> stat_period_ c))
      \/ (stat_period_ c ÷ 2 <= normal_num_ c /\ normal_num_ c + 1 = stat_period_ c
          /\ normal_num_ c' = stat_period_ c ÷ 2)).
Proof.
  intros H. unfold avg_utt in H.
  apply bind_Ok in H as (x & _ & H).
  apply bind_Ok in H as (fn & _ & H).
  apply bind_Ok in H as ([c1 d1] & Hdec & H). injection H as <- <-.
  cbn [fst snd] in Hdec. unfold avg_decide in Hdec.
  destruct (Z.ltb_spec (normal_num_ c) (stat_period_ c ÷ 2)) as [Hlt|Hge].
  - destruct (KALDI_ISFINITE x && lt zero x && lt x (float_of_int 3000));
      injection Hdec as <- <-; simpl; split; auto.
  - destruct (KALDI_ISFINITE x && within_six_sigma _ _ && _).
    + injection Hdec as <- <-.
      cbn [normal_num_ set_normal_num add_loss add_objective emit stat_period_].
      destruct (Z.eqb_spec (normal_num_ c + 1) (stat_period_ c)) as [E|E]; simpl;
        split; auto.
    + apply bind_Ok in Hdec as (name & _ & Hdec).
      apply bind_Ok in Hdec as (d2 & _ & Hdec). injection Hdec as <- <-. simpl. auto.
Qed.

(** X11. With a window of at least one sample, the count of accepted samples
    stays inside the window over a whole call: it starts at 0, never
    reaches [stat_period_] (the reset sets it back to the half window first),
    and once it has reached the half window the policy stays in its check
    phase. *)
Theorem StatAndAverageLossCheck_window :
  forall (utt : list string) (frame_num_utt : list Z) (pzx_host : list BaseFloat)
         (c c' : CtcState) (diff diff' : Matrix),
    1 <= stat_period_ c ->
    0 <= normal_num_ c < stat_period_ c ->
    StatAndAverageLossCheck utt frame_num_utt pzx_host (c, diff) = Ok (c', diff') ->
    stat_period_ c' = stat_period_ c
    /\ 0 <= normal_num_ c' < stat_period_ c'
    /\ (check_phase c -> check_phase c').
Proof.
  intros utt fnu pzx c c' diff diff' Hsp Hn Hrun.
  pose proof (half_window _ Hsp) as Hhalf.
  unfold StatAndAverageLossCheck in Hrun.
  apply bind_Ok in Hrun as (st1 & Hloop & Hrun). injection Hrun as <- _.
  set (P := fun (_ : Z) (st : CtcState * Matrix) =>
    stat_period_ (fst st) = stat_period_ c
    /\ 0 <= normal_num_ (fst st) < stat_period_ c
    /\ (check_phase c -> check_phase (fst st))).
  assert (HP : P (0 + Z.of_nat (length fnu)) st1).
  { apply (for_loop_invariant P (avg_utt utt fnu pzx) (length fnu) 0 (c, diff));
      [unfold P; simpl; tauto | | exact Hloop].
    intros j [c1 d1] [c2 d2] _ (E & Hr & Hc) Hstep. unfold P. cbn [fst] in *.
    apply avg_utt_window in Hstep as (E' & Hw).
    unfold check_phase in *. rewrite E', E in *.
    destruct Hw as [->|[[-> Hw]|(Hge & Hreset & ->)]]; repeat split; lia. }
  destruct HP as (E & Hr & Hc).
  assert (G : stat_period_ (fst (finite_guard st1)) = stat_period_ (fst st1)
              /\ normal_num_ (fst (finite_guard st1)) = normal_num_ (fst st1)).
  { unfold finite_guard. destruct (negb _); split; reflexivity. }
  destruct G as [G1 G2]. unfold check_phase in *.
  cbn [add_sequences stat_period_ normal_num_]. rewrite G1, G2. rewrite E in Hc |- *.
  repeat split; lia.
Qed.

Lemma StatAndAverageLossCheck_window_witness :
  exists c' diff',
    StatAndAverageLossCheck ["u0"%string; "u1"%string; "u2"%string] [1; 1; 1]
      [float_of_int 20; float_of_int 21; float_of_int 22]
      (fresh_state 2 100, mkMatrix 1 (repeat [float_of_int 1] 3)) = Ok (c', diff')
    /\ stat_period_ c' = stat_period_ (fresh_state 2 100)
    /\ 0 <= normal_num_ c' < stat_period_ c'
    /\ (check_phase (fresh_state 2 100) -> check_phase c').
Proof.
  eexists. eexists. split; [vm_compute; reflexivity|].
  refine (StatAndAverageLossCheck_window ["u0"%string; "u1"%string; "u2"%string] [1; 1; 1]
            [float_of_int 20; float_of_int 21; float_of_int 22]
            (fresh_state 2 100) _ (mkMatrix 1 (repeat [float_of_int 1] 3)) _ _ _ _).
  - simpl. lia.
  - simpl. lia.
  - vm_compute. reflexivity.
Defined.

(** *** A window without samples *)

Lemma le_nan_l (x : spec_float) : le S754_nan x = false.
Proof. reflexivity. Qed.

Lemma le_nan_r (x : spec_float) : le x S754_nan = false.
Proof. destruct x; reflexivity. Qed.

(** With [normal_num_ = 0] the mean and the sigma are quotients by zero:
    neither [mean - 6 sigma] nor [mean + 6 sigma] is a number that bounds
    the per-frame loss, so no loss is within the band. *)
Lemma within_six_sigma_no_samples (c : CtcState) (loss_per_frame : double) :
  normal_num_ c = 0 -> within_six_sigma c loss_per_frame = false.
Proof.
  intros H0. unfold within_six_sigma, rolling_mean, rolling_sigma. rewrite H0.
  change (double_of_int 0) with (S754_zero false).
  assert (E6 : exists m e, double_of_int 6 = S754_finite false m e)
    by (eexists _, _; vm_compute; reflexivity).
  destruct E6 as (m6 & e6 & ->).
  destruct (loss_sum_ c) as [s1|s1| |s1 m1 e1], (loss_square_sum_ c) as [[]|[]| |[] m2 e2];
    cbn [ddiv dsqrt dmul dsub dadd SFdiv SFsqrt SFmul SFsub SFadd xorb];
    rewrite ?le_nan_l, ?le_nan_r, ?andb_false_r; try reflexivity;
    destruct s1; cbn [SFsub SFadd xorb negb];
    rewrite ?le_nan_l, ?le_nan_r, ?andb_false_r; reflexivity.
Qed.

(** ** The rows a policy zeroes *)

Lemma zeroize_twice (o : option (list BaseFloat)) :
  zeroize <$> (zeroize <$> o) = zeroize <$> o.
Proof. destruct o as [row|]; simpl; [now rewrite zeroize_idem | reflexivity]. Qed.

Lemma rejected_by_sum_guard (x : BaseFloat) :
  lt (float_of_int 3000) x || lt x zero = true <-> rejected_by_sum x.
Proof. unfold rejected_by_sum. apply orb_true_iff. Qed.

(** Row [r] belongs to one of the first [j] sequences of the batch whose
    loss the sum-threshold policy rejects. *)
Definition row_rejected_by_sum (frame_num_utt : list Z) (pzx_host : list BaseFloat)
    (j : Z) (r : nat) : Prop :=
  exists s x fn,
    0 <= s < j /\ pzx_host !! Z.to_nat s = Some x /\ frame_num_utt !! Z.to_nat s = Some fn
    /\ rejected_by_sum x
    /\ row_of_sequence (Z.of_nat (length frame_num_utt)) s fn r.

(** X12. The whole effect of [StatAndLossCheck] on the gradient: a call that
    returns has kept the dimensions, has set to zero exactly the rows
    [t * num_sequence + s] of the sequences [s] whose loss is above 3000 or
    below 0, and has returned every other row, the padding rows and the rows
    of the accepted sequences, as it was. *)
Theorem StatAndLossCheck_gradient :
  forall (utt : list string) (frame_num_utt : list Z) (pzx_host : list BaseFloat)
         (c c' : CtcState) (diff diff' : Matrix),
    StatAndLossCheck utt frame_num_utt pzx_host (c, diff) = Ok (c', diff') ->
    NumCols diff' = NumCols diff
    /\ length (Rows diff') = length (Rows diff)
    /\ (forall r,
          row_rejected_by_sum frame_num_utt pzx_host (Z.of_nat (length frame_num_utt)) r ->
          Rows diff' !! r = zeroize <$> Rows diff !! r)
    /\ (forall r,
          ~ row_rejected_by_sum frame_num_utt pzx_host (Z.of_nat (length frame_num_utt)) r ->
          Rows diff' !! r = Rows diff !! r).
Proof.
  intros utt fnu pzx c c' diff diff' Hrun.
  unfold StatAndLossCheck in Hrun.
  apply bind_Ok in Hrun as (st1 & Hloop & Hrun). injection Hrun as _ <-.
  set (P := fun (j : Z) (st : CtcState * Matrix) =>
    NumCols (snd st) = NumCols diff
    /\ length (Rows (snd st)) = length (Rows diff)
    /\ (forall r : nat, Rows (snd st) !! r = Rows diff !! r
                        \/ Rows (snd st) !! r = zeroize <$> Rows diff !! r)
    /\ (forall r, row_rejected_by_sum fnu pzx j r ->
          Rows (snd st) !! r = zeroize <$> Rows diff !! r)
    /\ (forall r, ~ row_rejected_by_sum fnu pzx j r ->
          Rows (snd st) !! r = Rows diff !! r)).
  assert (HP : P (0 + Z.of_nat (length fnu)) st1).
  { apply (for_loop_invariant P (sum_utt utt fnu pzx) (length fnu) 0 (c, diff));
      [| |exact Hloop].
    - unfold P. cbn [snd]. repeat split; auto.
      intros r (s & x & fn & Hs & _). lia.
    - intros j [c1 d1] [c2 d2] Hj (Hcols & Hlen & Hany & Hin & Hout) Hstep.
      unfold P. cbn [snd] in *. unfold sum_utt in Hstep.
      apply bind_Ok in Hstep as (x & Hx & Hstep).
      apply bind_Ok in Hstep as (fn & Hfn & Hstep).
      apply bind_Ok in Hstep as ([c3 d3] & Hdec & Hstep). injection Hstep as _ <-.
      apply at_index_Ok in Hx as [_ Hx]. apply at_index_Ok in Hfn as [_ Hfn].
      cbn [fst snd] in Hdec.
      assert (Hsplit : forall r, row_rejected_by_sum fnu pzx (j + 1) r ->
                row_rejected_by_sum fnu pzx j r
                \/ (rejected_by_sum x /\ row_of_sequence (Z.of_nat (length fnu)) j fn r)).
      { intros r (s & x' & fn' & Hs & Hx' & Hfn' & Hrej & Hrow).
        destruct (Z.eq_dec s j) as [->|Hne].
        - right. rewrite Hx in Hx'. rewrite Hfn in Hfn'.
          injection Hx' as <-. injection Hfn' as <-. auto.
        - left. exists s, x', fn'. repeat split; try assumption; lia. }
      assert (Hmono : forall r, row_rejected_by_sum fnu pzx j r ->
                row_rejected_by_sum fnu pzx (j + 1) r).
      { intros r (s & x' & fn' & Hs & H). exists s, x', fn'. split; [lia | exact H]. }
      destruct (lt (float_of_int 3000) x || lt x zero) eqn:G.
      + apply rejected_by_sum_guard in G.
        apply bind_Ok in Hdec as (name & _ & Hdec).
        apply bind_Ok in Hdec as (d4 & Hzero & Hdec). injection Hdec as _ <-.
        apply zero_utt_rows_Ok in Hzero as (Hc4 & Hl4 & Hany4 & Hin4 & Hout4).
        split; [congruence|]. split; [congruence|]. split; [|split].
        * intros r. destruct (Hany4 r) as [->| ->]; [apply Hany|].
          right. destruct (Hany r) as [->| ->]; [reflexivity | apply zeroize_twice].
        * intros r Hr. apply Hsplit in Hr as [Hr|[_ Hr]].
          -- destruct (Hany4 r) as [->| ->]; rewrite (Hin r Hr);
               [reflexivity | apply zeroize_twice].
          -- rewrite (Hin4 r Hr).
             destruct (Hany r) as [->| ->]; [reflexivity | apply zeroize_twice].
        * intros r Hr. rewrite Hout4, Hout; [reflexivity | auto |].
          intros Hrow. apply Hr. exists j, x, fn. repeat split; try assumption; lia.
      + injection Hdec as _ <-.
        split; [exact Hcols|]. split; [exact Hlen|]. split; [exact Hany|]. split.
        * intros r Hr. apply Hsplit in Hr as [Hr|[Hrej _]]; [apply Hin, Hr|].
          apply rejected_by_sum_guard in Hrej. congruence.
        * intros r Hr. apply Hout. auto. }
  destruct HP as (Hcols & Hlen & _ & Hin & Hout).
  replace (0 + Z.of_nat (length fnu)) with (Z.of_nat (length fnu)) in * by lia.
  auto.
Qed.

Lemma StatAndLossCheck_gradient_witness :
  exists c' diff',
    StatAndLossCheck ["a"%string; "b"%string] [2; 1] [float_of_int 5000; float_of_int 20]
      (fresh_state 100 100, mkMatrix 1 (repeat [float_of_int 1] 4)) = Ok (c', diff')
    /\ Rows diff' = [[zero]; [float_of_int 1]; [zero]; [float_of_int 1]]
    /\ length (Rows diff') = length (Rows (mkMatrix 1 (repeat [float_of_int 1] 4))).
Proof.
  eexists. eexists. split; [vm_compute; reflexivity|]. split; [reflexivity|].
  refine (proj1 (proj2 (StatAndLossCheck_gradient ["a"%string; "b"%string] [2; 1]
            [float_of_int 5000; float_of_int 20] (fresh_state 100 100) _
            (mkMatrix 1 (repeat [float_of_int 1] 4)) _ _))).
  vm_compute. reflexivity.
Defined.

Lemma SetZero_lookup (m : Matrix) (r : nat) :
  Rows (SetZero m) !! r = zeroize <$> Rows m !! r.
Proof.
  unfold SetZero, Set_, map_entries. cbn [Rows].
  change (map (map (fun _ : BaseFloat => zero)) (Rows m)) with (zeroize <$> Rows m).
  apply list_lookup_fmap.
Qed.

(** X13. A window that has no sample when the check phase begins, which is what
    a window length of 0 or 1 gives from the start, never gets one: every
    utterance is rejected, whatever its loss. The call leaves the objective
    and the sample count as they were, so that the next call is in the same
    position, and it zeroes the gradient rows of every sequence of the
    batch. *)
Theorem StatAndAverageLossCheck_empty_window :
  forall (utt : list string) (frame_num_utt : list Z) (pzx_host : list BaseFloat)
         (c c' : CtcState) (diff diff' : Matrix),
    normal_num_ c = 0 ->
    stat_period_ c ÷ 2 <= 0 ->
    StatAndAverageLossCheck utt frame_num_utt pzx_host (c, diff) = Ok (c', diff') ->
    normal_num_ c' = 0 /\ stat_period_ c' = stat_period_ c
    /\ obj_ c' = obj_ c /\ obj_progress_ c' = obj_progress_ c
    /\ forall (s : nat) (fn : Z) (r : nat),
         frame_num_utt !! s = Some fn ->
         row_of_sequence (Z.of_nat (length frame_num_utt)) (Z.of_nat s) fn r ->
         Rows diff' !! r = zeroize <$> Rows diff !! r.
Proof.
  intros utt fnu pzx c c' diff diff' Hn Hsp Hrun.
  unfold StatAndAverageLossCheck in Hrun.
  apply bind_Ok in Hrun as (st1 & Hloop & Hrun). injection Hrun as <- <-.
  set (P := fun (j : Z) (st : CtcState * Matrix) =>
    (normal_num_ (fst st) = 0 /\ stat_period_ (fst st) = stat_period_ c
     /\ obj_ (fst st) = obj_ c /\ obj_progress_ (fst st) = obj_progress_ c)
    /\ (forall r : nat, Rows (snd st) !! r = Rows diff !! r
                        \/ Rows (snd st) !! r = zeroize <$> Rows diff !! r)
    /\ (forall s fn r, 0 <= s < j -> fnu !! Z.to_nat s = Some fn ->
          row_of_sequence (Z.of_nat (length fnu)) s fn r ->
          Rows (snd st) !! r = zeroize <$> Rows diff !! r)).
  assert (HP : P (0 + Z.of_nat (length fnu)) st1).
  { apply (for_loop_invariant P (avg_utt utt fnu pzx) (length fnu) 0 (c, diff));
      [| |exact Hloop].
    - unfold P. cbn [fst snd]. repeat split; auto. intros s fn r Hs. lia.
    - intros j [c1 d1] [c2 d2] Hj ((Hn1 & Hsp1 & Ho1 & Hp1) & Hany & Hin) Hstep.
      unfold P. cbn [fst snd] in *. unfold avg_utt in Hstep.
      apply bind_Ok in Hstep as (x & _ & Hstep).
      apply bind_Ok in Hstep as (fn & Hfn & Hstep).
      apply bind_Ok in Hstep as ([c3 d3] & Hdec & Hstep). injection Hstep as <- <-.
      apply at_index_Ok in Hfn as [_ Hfn]. cbn [fst snd] in Hdec.
      unfold avg_decide in Hdec.
      destruct (Z.ltb_spec (normal_num_ c1) (stat_period_ c1 ÷ 2)) as [Hlt|_];
        [rewrite Hsp1 in Hlt; lia|].
      rewrite within_six_sigma_no_samples, andb_false_r in Hdec by exact Hn1.
      cbn [andb] in Hdec.
      apply bind_Ok in Hdec as (name & _ & Hdec).
      apply bind_Ok in Hdec as (d4 & Hzero & Hdec). injection Hdec as <- <-.
      apply zero_utt_rows_Ok in Hzero as (_ & _ & Hany4 & Hin4 & _).
      split; [simpl; auto|]. split.
      + intros r. destruct (Hany4 r) as [->| ->]; [apply Hany|].
        right. destruct (Hany r) as [->| ->]; [reflexivity | apply zeroize_twice].
      + intros s fn' r Hs Hfn' Hrow.
        destruct (Z.eq_dec s j) as [->|Hne].
        * rewrite Hfn in Hfn'. injection Hfn' as <-. rewrite (Hin4 r Hrow).
          destruct (Hany r) as [->| ->]; [reflexivity | apply zeroize_twice].
        * assert (Hr : Rows d1 !! r = zeroize <$> Rows diff !! r)
            by (apply (Hin s fn'); [lia | assumption | assumption]).
          destruct (Hany4 r) as [->| ->]; rewrite Hr; [reflexivity | apply zeroize_twice]. }
  destruct HP as ((Hn1 & Hsp1 & Ho1 & Hp1) & Hany & Hin).
  assert (G : fst (finite_guard st1) = fst st1
              \/ fst (finite_guard st1) = emit WarnDiffNotFinite (fst st1)).
  { unfold finite_guard. destruct (negb _); auto. }
  split; [|split; [|split; [|split]]].
  - destruct G as [-> | ->]; exact Hn1.
  - destruct G as [-> | ->]; exact Hsp1.
  - destruct G as [-> | ->]; exact Ho1.
  - destruct G as [-> | ->]; exact Hp1.
  - intros s fn r Hfn Hrow.
    assert (Hr : Rows (snd st1) !! r = zeroize <$> Rows diff !! r).
    { apply (Hin (Z.of_nat s) fn).
      - apply lookup_lt_Some in Hfn. lia.
      - now rewrite Nat2Z.id.
      - exact Hrow. }
    unfold finite_guard. destruct (negb _); cbn [snd]; [|exact Hr].
    rewrite SetZero_lookup, Hr. apply zeroize_twice.
Qed.

Lemma StatAndAverageLossCheck_empty_window_witness :
  exists c' diff',
    StatAndAverageLossCheck ["u0"%string; "u1"%string] [1; 1]
      [float_of_int 20; float_of_int 21]
      (fresh_state 1 100, mkMatrix 1 (repeat [float_of_int 1] 2)) = Ok (c', diff')
    /\ Rows diff' = [[zero]; [zero]]
    /\ normal_num_ c' = 0 /\ stat_period_ c' = stat_period_ (fresh_state 1 100)
    /\ obj_ c' = obj_ (fresh_state 1 100).
Proof.
  eexists. eexists. split; [vm_compute; reflexivity|]. split; [reflexivity|].
  pose proof (StatAndAverageLossCheck_empty_window ["u0"%string; "u1"%string] [1; 1]
                [float_of_int 20; float_of_int 21] (fresh_state 1 100) _
                (mkMatrix 1 (repeat [float_of_int 1] 2)) _
                eq_refl ltac:(vm_compute; discriminate) ltac:(vm_compute; reflexivity)) as H.
  destruct H as (H1 & H2 & H3 & _). auto.
Defined.

(** ** Batches on which the policies return *)

(** A batch is well formed for a gradient buffer when it has a loss and a
    name for each of its sequences and every frame [t] of every sequence [s]
    has its row [t * num_sequence + s] inside the buffer. *)
Definition batch_fits (utt : list string) (frame_num_utt : list Z)
    (pzx_host : list BaseFloat) (diff : Matrix) : Prop :=
  (length frame_num_utt <= length pzx_host)%nat
  /\ (length frame_num_utt <= length utt)%nat
  /\ forall (s : nat) fn t,
       frame_num_utt !! s = Some fn -> 0 <= t < fn ->
       t * Z.of_nat (length frame_num_utt) + Z.of_nat s < NumRows diff.

Lemma batch_fits_rows utt fnu pzx diff d (s : nat) fn :
  batch_fits utt fnu pzx diff -> length (Rows d) = length (Rows diff) ->
  fnu !! s = Some fn ->
  rows_in_range (Z.of_nat (length fnu)) (Z.of_nat s) fn d.
Proof.
  intros (_ & _ & Hrows) Hlen Hfn. unfold rows_in_range, NumRows.
  split; [lia|]. split; [lia|]. intros t Ht. rewrite Hlen. apply (Hrows s fn t Hfn Ht).
Qed.

(** One utterance of each policy on a well-formed batch returns and keeps
    the number of rows of the buffer. *)
Lemma utterance_returns (check : GradCheck) utt fnu pzx diff j (st : CtcState * Matrix) :
  batch_fits utt fnu pzx diff ->
  0 <= j < Z.of_nat (length fnu) ->
  length (Rows (snd st)) = length (Rows diff) ->
  exists st',
    match check with
    | SUM_LOSS_CHECK => sum_utt utt fnu pzx j st
    | AVG_LOSS_CHECK => avg_utt utt fnu pzx j st
    | STAT_ONLY => only_utt fnu pzx j st
    end = Ok st'
    /\ length (Rows (snd st')) = length (Rows diff).
Proof.
  intros Hfits Hj Hlen. pose proof Hfits as (Hp & Hu & _).
  destruct (at_index_in_range pzx j) as [x Hx]; [lia|].
  destruct (at_index_in_range fnu j) as [fn Hfn]; [lia|].
  destruct (at_index_in_range utt j) as [name Hname]; [lia|].
  assert (Hrange : rows_in_range (Z.of_nat (length fnu)) j fn (snd st)).
  { pose proof Hfn as Hfn'. apply at_index_Ok in Hfn' as [_ Hfn'].
    rewrite <- (Z2Nat.id j) by lia. eapply batch_fits_rows; eassumption. }
  destruct (zero_utt_rows_spec _ _ _ _ Hrange) as (d' & Hzero & _ & Hlen' & _).
  destruct check.
  - unfold sum_utt. rewrite Hx, Hfn. cbn [bind].
    destruct (lt (float_of_int 3000) x || lt x zero).
    + rewrite Hname. cbn [bind]. rewrite Hzero. cbn [bind].
      eexists. split; [reflexivity|]. cbn [snd]. congruence.
    + cbn [bind]. eexists. split; [reflexivity|]. exact Hlen.
  - unfold avg_utt. rewrite Hx, Hfn. cbn [bind]. unfold avg_decide.
    destruct (normal_num_ (fst st) <? stat_period_ (fst st) ÷ 2).
    + destruct (KALDI_ISFINITE x && lt zero x && lt x (float_of_int 3000)); cbn [bind];
        (eexists; split; [reflexivity|]; exact Hlen).
    + destruct (KALDI_ISFINITE x && within_six_sigma _ _ && _); cbn [bind].
      * eexists. split; [reflexivity|]. exact Hlen.
      * rewrite Hname. cbn [bind]. rewrite Hzero. cbn [bind].
        eexists. split; [reflexivity|]. cbn [snd]. congruence.
  - unfold only_utt. rewrite Hx, Hfn. cbn [bind].
    eexists. split; [reflexivity|]. exact Hlen.
Qed.

(** X14. The three policies return on every well-formed batch, whatever the
    losses and the registry: the only way they stop is an index out of
    range, and a well-formed batch has none. *)
Theorem stats_policy_returns :
  forall (check : GradCheck) (utt : list string) (frame_num_utt : list Z)
         (pzx_host : list BaseFloat) (c : CtcState) (diff : Matrix),
    batch_fits utt frame_num_utt pzx_host diff ->
    exists c' diff',
      stats_policy check utt frame_num_utt pzx_host (c, diff) = Ok (c', diff')
      /\ length (Rows diff') = length (Rows diff).
Proof.
  intros check utt fnu pzx c diff Hfits.
  set (body := match check with
               | SUM_LOSS_CHECK => sum_utt utt fnu pzx
               | AVG_LOSS_CHECK => avg_utt utt fnu pzx
               | STAT_ONLY => only_utt fnu pzx
               end).
  destruct (for_loop_total
              (fun (_ : Z) (st : CtcState * Matrix) =>
                 length (Rows (snd st)) = length (Rows diff))
              body (length fnu) 0 (c, diff) eq_refl) as ([c1 d1] & Hloop & Hlen).
  { intros j st Hj Hst.
    destruct (utterance_returns check utt fnu pzx diff j st Hfits ltac:(lia) Hst)
      as (st' & Hrun & Hlen').
    exists st'. split; [|exact Hlen']. unfold body. destruct check; exact Hrun. }
  cbn [snd] in Hlen. unfold body in Hloop.
  destruct check; cbn [stats_policy].
  - unfold StatAndLossCheck. rewrite Hloop. cbn [bind fst snd]. eauto.
  - unfold StatAndAverageLossCheck. rewrite Hloop. cbn [bind].
    eexists _, _. split; [reflexivity|].
    unfold finite_guard. destruct (negb _); cbn [snd]; [|exact Hlen].
    unfold SetZero, Set_, map_entries. cbn [Rows]. now rewrite length_map.
  - unfold StatOnly. rewrite Hloop. cbn [bind fst snd]. eauto.
Qed.

Lemma stats_policy_returns_witness :
  exists c' diff',
    stats_policy AVG_LOSS_CHECK ["a"%string; "b"%string] [2; 1]
      [S754_nan; float_of_int 20] (fresh_state 1 100, mkMatrix 1 (repeat [pos_inf] 4))
    = Ok (c', diff')
    /\ length (Rows diff') = length (Rows (mkMatrix 1 (repeat [pos_inf] 4))).
Proof.
  apply stats_policy_returns. unfold batch_fits. simpl.
  split; [lia|]. split; [lia|].
  intros [|[|s]] fn t Hfn Ht; simpl in Hfn; try discriminate; injection Hfn as <-;
    unfold NumRows; simpl; lia.
Defined.

(** ** The objective under the sum-threshold policy *)

(** The losses the sum-threshold policy keeps. *)
Definition kept_by_sum (losses : list BaseFloat) : list BaseFloat :=
  List.filter (fun x => negb (lt (float_of_int 3000) x || lt x zero)) losses.

Lemma kept_by_sum_snoc (l : list BaseFloat) (x : BaseFloat) :
  kept_by_sum (l ++ [x])
  = kept_by_sum l ++ (if lt (float_of_int 3000) x || lt x zero then [] else [x]).
Proof.
  unfold kept_by_sum. rewrite List.filter_app. cbn [List.filter].
  destruct (lt (float_of_int 3000) x || lt x zero); reflexivity.
Qed.

(** The warnings of the sum-threshold policy in a trace. *)
Fixpoint sum_warnings (tr : list Event) : Z :=
  match tr with
  | [] => 0
  | WarnAbnormalSum _ _ :: tr' => 1 + sum_warnings tr'
  | _ :: tr' => sum_warnings tr'
  end.

(** X15. After [StatAndLossCheck] the objective is the old objective with the
    kept losses of the batch, those not above 3000 and not below 0, added one
    after the other in [double] in the order of the batch; the progress
    objective likewise; and one warning has been logged for each loss that
    was left out. *)
Theorem StatAndLossCheck_objective :
  forall (utt : list string) (frame_num_utt : list Z) (pzx_host : list BaseFloat)
         (c c' : CtcState) (diff diff' : Matrix),
    StatAndLossCheck utt frame_num_utt pzx_host (c, diff) = Ok (c', diff') ->
    let losses := take (length frame_num_utt) pzx_host in
    obj_ c' = add_losses (obj_ c) (kept_by_sum losses)
    /\ obj_progress_ c' = add_losses (obj_progress_ c) (kept_by_sum losses)
    /\ sum_warnings (trace_ c')
       = sum_warnings (trace_ c)
         + Z.of_nat (length losses) - Z.of_nat (length (kept_by_sum losses)).
Proof.
  intros utt fnu pzx c c' diff diff' Hrun. cbv zeta.
  unfold StatAndLossCheck in Hrun.
  apply bind_Ok in Hrun as (st1 & Hloop & Hrun). injection Hrun as <- _.
  set (P := fun (j : Z) (st : CtcState * Matrix) =>
    let losses := take (Z.to_nat j) pzx in
    obj_ (fst st) = add_losses (obj_ c) (kept_by_sum losses)
    /\ obj_progress_ (fst st) = add_losses (obj_progress_ c) (kept_by_sum losses)
    /\ sum_warnings (trace_ (fst st))
       = sum_warnings (trace_ c)
         + Z.of_nat (length losses) - Z.of_nat (length (kept_by_sum losses))).
  assert (HP : P (0 + Z.of_nat (length fnu)) st1).
  { apply (for_loop_invariant P (sum_utt utt fnu pzx) (length fnu) 0 (c, diff));
      [| |exact Hloop].
    - unfold P. change (Z.to_nat 0) with 0%nat. rewrite take_0.
      cbn [fst kept_by_sum List.filter add_losses fold_left length].
      repeat split. lia.
    - intros j st st' Hj (H1 & H2 & H3) Hstep. unfold P. cbv zeta in *.
      unfold sum_utt in Hstep.
      apply bind_Ok in Hstep as (x & Hx & Hstep).
      apply bind_Ok in Hstep as (fn & _ & Hstep).
      apply bind_Ok in Hstep as ([c3 d3] & Hdec & Hstep). injection Hstep as <-.
      apply at_index_Ok in Hx as [_ Hx].
      replace (Z.to_nat (j + 1)) with (S (Z.to_nat j)) by lia.
      rewrite (take_S_r _ _ _ Hx), kept_by_sum_snoc.
      destruct (lt (float_of_int 3000) x || lt x zero).
      + apply bind_Ok in Hdec as (name & _ & Hdec).
        apply bind_Ok in Hdec as (d4 & _ & Hdec). injection Hdec as <- _.
        rewrite !app_nil_r, length_app.
        cbn [fst obj_ obj_progress_ trace_ add_frames emit sum_warnings length].
        repeat split; try assumption. lia.
      + injection Hdec as <- _. rewrite !add_losses_snoc, !length_app.
        cbn [fst obj_ obj_progress_ trace_ add_frames add_objective length].
        rewrite H1, H2. repeat split. lia. }
  unfold P in HP. cbv zeta in HP.
  replace (Z.to_nat (0 + Z.of_nat (length fnu))) with (length fnu) in HP by lia.
  exact HP.
Qed.

Lemma StatAndLossCheck_objective_witness :
  exists c' diff',
    StatAndLossCheck ["a"%string; "b"%string] [2; 1] [float_of_int 5000; float_of_int 20]
      (fresh_state 100 100, mkMatrix 1 (repeat [float_of_int 1] 4)) = Ok (c', diff')
    /\ obj_ c' = add_losses (obj_ (fresh_state 100 100))
                   (kept_by_sum (take (length ([2; 1]%Z : list Z))
                                   [float_of_int 5000; float_of_int 20])).
Proof.
  eexists. eexists. split; [vm_compute; reflexivity|].
  refine (proj1 (StatAndLossCheck_objective ["a"%string; "b"%string] [2; 1]
            [float_of_int 5000; float_of_int 20] (fresh_state 100 100) _
            (mkMatrix 1 (repeat [float_of_int 1] 4)) _ _)).
  vm_compute. reflexivity.
Defined.

(** ** What the greedy decoder returns *)

Lemma collapse_from_In (p : Z) (l : list Z) (x : Z) : In x (collapse_from p l) -> In x l.
Proof.
  revert p. induction l as [|y l IH]; intros p; simpl; [tauto|].
  destruct (y =? p); simpl; intros H; [right; eapply IH, H|].
  destruct H as [H|H]; [left; exact H | right; eapply IH, H].
Qed.

Lemma collapse_from_length (p : Z) (l : list Z) :
  (length (collapse_from p l) <= length l)%nat.
Proof.
  revert p. induction l as [|y l IH]; intros p; simpl; [lia|].
  destruct (y =? p); simpl; [specialize (IH p) | specialize (IH y)]; lia.
Qed.

Lemma drop_blanks_In (l : list Z) (x : Z) : In x (drop_blanks l) <-> In x l /\ x <> 0.
Proof.
  induction l as [|y l IH]; simpl; [tauto|].
  destruct (Z.eqb_spec y 0) as [->|Hy]; simpl; rewrite IH; intuition congruence.
Qed.

Lemma drop_blanks_length (l : list Z) : (length (drop_blanks l) <= length l)%nat.
Proof.
  induction l as [|y l IH]; simpl; [lia|]. destruct (y =? 0); simpl; lia.
Qed.

(** Doubling a frame does not change what is left after the repeats are
    collapsed. *)
Lemma collapse_from_stutter (p : Z) (l1 l2 : list Z) (x : Z) :
  collapse_from p (l1 ++ x :: x :: l2) = collapse_from p (l1 ++ x :: l2).
Proof.
  revert p. induction l1 as [|y l1 IH]; intros p; cbn [app collapse_from].
  - destruct (x =? p) eqn:E; cbn [collapse_from]; rewrite ?E, ?Z.eqb_refl; reflexivity.
  - destruct (y =? p); now rewrite IH.
Qed.

(** X16. [ErrorRate] needs at least one frame: with none it reads [data[0]] of
    an empty vector. With at least one, the hypothesis it scores has no
    blank, is not longer than the number of frames and holds only classes
    that are the arg-max of some frame. *)
Theorem ErrorRate_hyp_bounds :
  forall data : list Z,
    (data = [] -> ErrorRate_hyp data = Abort IndexOutOfRange)
    /\ (data <> [] ->
          exists hyp, ErrorRate_hyp data = Ok hyp
            /\ ~ In 0 hyp
            /\ (length hyp <= length data)%nat
            /\ forall x, In x hyp -> In x data).
Proof.
  intros data. split; [intros ->; reflexivity|].
  intros Hne. rewrite (ErrorRate_hyp_spec data Hne).
  exists (greedy_decode data). split; [reflexivity|].
  unfold greedy_decode, collapse_repeats. destruct data as [|y l]; [congruence|].
  split; [|split].
  - intros H. apply drop_blanks_In in H. tauto.
  - etransitivity; [apply drop_blanks_length|]. simpl.
    pose proof (collapse_from_length y l). lia.
  - intros x H. apply drop_blanks_In in H as [H _]. destruct H as [H|H]; [left; exact H|].
    right. eapply collapse_from_In, H.
Qed.

Lemma ErrorRate_hyp_bounds_witness :
  exists hyp, ErrorRate_hyp [0; 4; 4; 0; 4] = Ok hyp
    /\ ~ In 0 hyp
    /\ (length hyp <= length [0; 4; 4; 0; 4])%nat
    /\ forall x, In x hyp -> In x [0; 4; 4; 0; 4].
Proof.
  apply (proj2 (ErrorRate_hyp_bounds [0; 4; 4; 0; 4])). discriminate.
Defined.

(** X17. The hypothesis does not change when a frame is doubled: the decoder
    sees runs of equal arg-max classes, not their lengths. *)
Theorem ErrorRate_hyp_stutter :
  forall (l1 l2 : list Z) (x : Z),
    ErrorRate_hyp (l1 ++ x :: x :: l2) = ErrorRate_hyp (l1 ++ x :: l2).
Proof.
  intros l1 l2 x.
  rewrite !ErrorRate_hyp_spec by (destruct l1; discriminate).
  f_equal. unfold greedy_decode. f_equal. unfold collapse_repeats.
  destruct l1 as [|y l1]; cbn [app collapse_from].
  - now rewrite Z.eqb_refl.
  - now rewrite collapse_from_stutter.
Qed.

(** ** The batched decoder *)


(** X18. [ErrorRateMSeq] reads, for sequence [s], the entries [f * num_seq + s]
    of the arg-max vector for the frames [f] below [frame_num_utt[s]] and no
    other: two arg-max vectors that agree there, whatever they hold on the
    padding frames, give the same hypotheses (or stop the same way). *)
Theorem ErrorRateMSeq_ignores_padding :
  forall (frame_num_utt data data' : list Z),
    (forall (s : nat) fn f, frame_num_utt !! s = Some fn -> 0 <= f < fn ->
       at_index data (f * Z.of_nat (length frame_num_utt) + Z.of_nat s)
       = at_index data' (f * Z.of_nat (length frame_num_utt) + Z.of_nat s)) ->
    ErrorRateMSeq_hyps frame_num_utt data = ErrorRateMSeq_hyps frame_num_utt data'.
Proof.
  intros fnu data data' Hagree. unfold ErrorRateMSeq_hyps.
  apply for_loop_ext. intros s hyps Hs.
  destruct (at_index fnu s) as [fn|f] eqn:Hfn; [|reflexivity]. cbn [bind].
  apply at_index_Ok in Hfn as [_ Hfn].
  unfold ErrorRateMSeq_hyp, raw_hyp_seq_of.
  rewrite (for_loop_ext _ (fun f raw =>
             let! d := at_index data' (f * Z.of_nat (length fnu) + s) in
             Ok (<[Z.to_nat f := d]> raw))); [reflexivity|].
  intros f raw Hf. rewrite <- (Z2Nat.id s) at 1 2 by lia.
  rewrite (Hagree _ _ f Hfn) by lia. reflexivity.
Qed.

Lemma ErrorRateMSeq_ignores_padding_witness :
  ErrorRateMSeq_hyps [2; 1] [5; 7; 5; 0] = ErrorRateMSeq_hyps [2; 1] [5; 7; 5; 9].
Proof.
  apply ErrorRateMSeq_ignores_padding.
  intros [|[|s]] fn f Hfn Hf; simpl in Hfn; try discriminate; injection Hfn as <-.
  - assert (f = 0 \/ f = 1) as [-> | ->] by lia; reflexivity.
  - assert (f = 0) as -> by lia. reflexivity.
Defined.


Lemma frames_of_single_sequence (data : list Z) (fn : Z) :
  fn <= Z.of_nat (length data) ->
  frames_of_sequence data 1 0 fn = take (Z.to_nat fn) data.
Proof.
  intros Hfn. apply list_eq. intros f.
  destruct (decide (f < Z.to_nat fn)%nat) as [Hlt|Hge].
  - rewrite frames_of_sequence_lookup by exact Hlt.
    rewrite lookup_take_lt by exact Hlt.
    replace (Z.to_nat (Z.of_nat f * 1 + 0)) with f by lia.
    destruct (lookup_lt_is_Some_2 data f) as [x Hx]; [lia|].
    rewrite Hx. f_equal. apply nth_lookup_Some with (d := 0) in Hx. exact Hx.
  - rewrite !lookup_ge_None_2; [reflexivity | |].
    + rewrite length_take. lia.
    + unfold frames_of_sequence. rewrite length_map, length_seq. lia.
Qed.

(** X19. A batch of one sequence is decoded as [ErrorRate] decodes the frames
    of that sequence: the rows past its frame count are not looked at. *)
Theorem ErrorRateMSeq_single_sequence :
  forall (data : list Z) (fn : Z),
    1 <= fn <= Z.of_nat (length data) ->
    ErrorRateMSeq_hyps [fn] data
    = let! hyp := ErrorRate_hyp (take (Z.to_nat fn) data) in Ok [hyp].
Proof.
  intros data fn Hfn. unfold ErrorRateMSeq_hyps. cbn [length for_loop].
  change (at_index [fn] 0) with (Ok fn : Result Z). cbn [bind].
  rewrite ErrorRateMSeq_hyp_spec; [|lia|].
  - rewrite ErrorRate_hyp_spec.
    + cbn [bind app]. now rewrite frames_of_single_sequence by lia.
    + intros E. apply (f_equal (@length Z)) in E. rewrite length_take in E. simpl in E. lia.
  - unfold frames_in_range. repeat split; lia.
Qed.

Lemma ErrorRateMSeq_single_sequence_witness :
  ErrorRateMSeq_hyps [3] [4; 4; 0; 9; 9]
  = let! hyp := ErrorRate_hyp (take (Z.to_nat 3) [4; 4; 0; 9; 9]) in Ok [hyp].
Proof.
  apply ErrorRateMSeq_single_sequence. simpl. lia.
Defined.

(** The decoder stops only on an index out of range. *)
Lemma remove_repetitions_abort (dim : Z) (data : list Z) f :
  remove_repetitions dim data = Abort f -> f = IndexOutOfRange.
Proof.
  unfold remove_repetitions.
  apply (for_loop_abort (fun f => f = IndexOutOfRange)).
  intros j st f0 H.
  destruct (at_index (fst st) j) eqn:E1; cbn [bind] in H;
    [|injection H as <-; eapply at_index_abort, E1].
  destruct (at_index (fst st) (j - 1)) eqn:E2; cbn [bind] in H;
    [|injection H as <-; eapply at_index_abort, E2].
  destruct (negb _); discriminate.
Qed.

Lemma remove_blanks_abort (data : list Z) (i : Z) f :
  remove_blanks data i = Abort f -> f = IndexOutOfRange.
Proof.
  unfold remove_blanks.
  apply (for_loop_abort (fun f => f = IndexOutOfRange)).
  intros j st f0 H.
  destruct (at_index data j) eqn:E1; cbn [bind] in H;
    [discriminate | injection H as <-; eapply at_index_abort, E1].
Qed.

Lemma raw_hyp_seq_of_abort (data : list Z) (N s fn : Z) f :
  raw_hyp_seq_of data N s fn = Abort f -> f = IndexOutOfRange.
Proof.
  unfold raw_hyp_seq_of.
  apply (for_loop_abort (fun f => f = IndexOutOfRange)).
  intros j st f0 H.
  destruct (at_index data (j * N + s)) eqn:E1; cbn [bind] in H;
    [discriminate | injection H as <-; eapply at_index_abort, E1].
Qed.

Lemma ErrorRateMSeq_hyp_abort (data : list Z) (N s fn : Z) f :
  ErrorRateMSeq_hyp data N s fn = Abort f -> f = IndexOutOfRange.
Proof.
  unfold ErrorRateMSeq_hyp. intros H.
  destruct (raw_hyp_seq_of data N s fn) as [raw|f1] eqn:E1; cbn [bind] in H;
    [|injection H as <-; eapply raw_hyp_seq_of_abort, E1].
  destruct (remove_repetitions fn raw) as [[d i]|f1] eqn:E2; cbn [bind] in H;
    [|injection H as <-; eapply remove_repetitions_abort, E2].
  eapply remove_blanks_abort, H.
Qed.

Lemma ErrorRateMSeq_hyp_no_frame (data : list Z) (N s : Z) :
  ErrorRateMSeq_hyp data N s 0 = Abort IndexOutOfRange.
Proof. reflexivity. Qed.

(** X20. A sequence of the batch with a frame count of 0 stops [ErrorRateMSeq]:
    its [raw_hyp_seq] is empty, the write index starts at 1 and the loop that
    removes the blanks reads [raw_hyp_seq[0]]. No hypothesis is returned for
    any sequence of the batch. *)
Theorem ErrorRateMSeq_empty_sequence :
  forall (frame_num_utt data : list Z) (s : nat),
    frame_num_utt !! s = Some 0 ->
    ErrorRateMSeq_hyps frame_num_utt data = Abort IndexOutOfRange.
Proof.
  intros fnu data s Hs. unfold ErrorRateMSeq_hyps.
  set (body := fun (s : Z) (hyps : list (list Z)) =>
    let! num_frame := at_index fnu s in
    let! hyp_seq := ErrorRateMSeq_hyp data (Z.of_nat (length fnu)) s num_frame in
    Ok (hyps ++ [hyp_seq])).
  destruct (for_loop_stops body (Z.of_nat s)) with (n := length fnu) (i := 0) (s := @nil (list Z))
    as [f Hf].
  - intros hyps. exists IndexOutOfRange. unfold body.
    rewrite at_index_nat, Hs. cbn [of_option bind].
    now rewrite ErrorRateMSeq_hyp_no_frame.
  - apply lookup_lt_Some in Hs. lia.
  - rewrite Hf. f_equal.
    apply (for_loop_abort (fun f => f = IndexOutOfRange) body) in Hf; [exact Hf|].
    intros j hyps f0 H. unfold body in H.
    destruct (at_index fnu j) as [fn|f1] eqn:E1; cbn [bind] in H;
      [|injection H as <-; eapply at_index_abort, E1].
    destruct (ErrorRateMSeq_hyp data (Z.of_nat (length fnu)) j fn) as [h|f1] eqn:E2;
      cbn [bind] in H; [discriminate | injection H as <-; eapply ErrorRateMSeq_hyp_abort, E2].
Qed.

Lemma ErrorRateMSeq_empty_sequence_witness :
  ErrorRateMSeq_hyps [2; 0] [5; 0; 5; 0] = Abort IndexOutOfRange.
Proof.
  apply (ErrorRateMSeq_empty_sequence [2; 0] [5; 0; 5; 0] 1). reflexivity.
Defined.
